(** * A line-oriented TF-IDF search engine (search.cpp)

    Shallow embedding of [struct Comp] and [class SearchEngine] and the
    properties of their tokenizer, index builder and query engine.

    Modelling conventions.
    - [std::string_view] is a [string]; positions and sizes ([size_t]) are
      [nat]; [npos] is [None].
    - [char] is an [ascii] in the "C" locale: [std::isalpha] holds of the
      letters A-Z and a-z, [std::tolower] maps A-Z to a-z and is the
      identity elsewhere.
    - [double] and [long double] are idealised as the real numbers [R], so
      [std::log] is [ln] and the arithmetic is exact.
    - [std::set<std::string_view, Comp>] is a list kept strictly increasing
      for [Comp]; [std::unordered_map<std::string_view, V>] is a
      [gmap string V] (keys are compared by content, case-sensitively);
      [std::set<size_t>] is a [gset nat].
    - Reading a [std::vector] out of range with [operator[]] and dividing
      by a zero token count are faults, threaded through the [outcome]
      monad. *)

From stdpp Require Import gmap strings list sorting.
From Stdlib Require Import Ascii Reals Lra Sorting.Sorted Sorting.Permutation.

Local Open Scope nat_scope.

(** ** Faults *)

Inductive fault : Set :=
  | OutOfRange       (* vector operator[] with an index >= size() *)
  | DivisionByZero.  (* x / static_cast<double>(0) *)

Inductive outcome (A : Type) : Type :=
  | Ok (a : A)
  | Fault (f : fault).
Arguments Ok {A} a.
Arguments Fault {A} f.

#[global] Instance outcome_ret : MRet outcome := @Ok.
#[global] Instance outcome_bind : MBind outcome := λ A B f m,
  match m with Ok a => f a | Fault e => Fault e end.

(** [for (x : xs) acc = body(acc, x)] for a body that may fault. *)
Fixpoint foldM {A B : Type} (body : B → A → outcome B) (xs : list A) (acc : B)
  : outcome B :=
  match xs with
  | [] => Ok acc
  | x :: xs' => acc' ← body acc x; foldM body xs' acc'
  end.

(** ** Characters *)

Definition isupper (c : ascii) : bool :=
  let n := nat_of_ascii c in (65 <=? n) && (n <=? 90).

Definition islower (c : ascii) : bool :=
  let n := nat_of_ascii c in (97 <=? n) && (n <=? 122).

Definition isalpha (c : ascii) : bool := isupper c || islower c.

Definition tolower (c : ascii) : nat :=
  if isupper c then nat_of_ascii c + 32 else nat_of_ascii c.

Definition newline : ascii := ascii_of_nat 10.

(** ** struct Comp *)

(** The loop over [i < lhs.size() && i < rhs.size()] walks both views in
    step; when it runs off one of them the sizes decide. *)
Fixpoint Comp (lhs rhs : string) : bool :=
  match lhs, rhs with
  | String a lhs', String b rhs' =>
      if tolower a <? tolower b then true
      else if tolower b <? tolower a then false
      else Comp lhs' rhs'
  | EmptyString, String _ _ => true
  | _, EmptyString => false
  end.

(** Equivalence of keys in an ordered container: neither is less. *)
Definition equiv_key (a b : string) : bool := negb (Comp a b) && negb (Comp b a).

(** ** std::set<std::string_view, Comp> *)

(** [insert] keeps the element already present when an equivalent key is
    inserted. *)
Fixpoint set_insert (s : list string) (x : string) : list string :=
  match s with
  | [] => [x]
  | y :: s' =>
      if Comp x y then x :: y :: s'
      else if Comp y x then y :: set_insert s' x
      else y :: s'
  end.

(** [find] returns the stored element equivalent to [x], if any. *)
Fixpoint set_find (s : list string) (x : string) : option string :=
  match s with
  | [] => None
  | y :: s' =>
      if Comp x y then None
      else if Comp y x then set_find s' x
      else Some y
  end.

(** ** std::string_view operations *)

(** [str.find(c, pos)]. *)
Fixpoint find (str : string) (c : ascii) (pos : nat) : option nat :=
  match str with
  | EmptyString => None
  | String a str' =>
      match pos with
      | 0 => if Ascii.eqb a c then Some 0 else S <$> find str' c 0
      | S pos' => S <$> find str' c pos'
      end
  end.

(** [str.substr(pos, n)] and [str.substr(pos)], for [pos <= str.size()]. *)
Definition substr (str : string) (pos n : nat) : string := String.substring pos n str.
Definition substr_from (str : string) (pos : nat) : string :=
  String.substring pos (String.length str - pos) str.

(** [while (pos < str.size() && p(str[pos])) ++pos;] *)
Fixpoint scan (fuel : nat) (p : ascii → bool) (str : string) (pos : nat) : nat :=
  match fuel with
  | 0 => pos
  | S fuel' =>
      match String.get pos str with
      | Some c => if p c then scan fuel' p str (S pos) else pos
      | None => pos
      end
  end.

Definition scan_while (p : ascii → bool) (str : string) (pos : nat) : nat :=
  scan (String.length str - pos) p str pos.

(** ** Tokenizer *)

(** The scanning loop shared, statement for statement, by
    [GetWordsFromStringView] and [GetUniqueWordsFromStringView]; [emit] is
    [result.emplace_back] in the first and [result.insert] in the second. *)
Fixpoint words_loop {C : Type} (emit : C → string → C) (fuel : nat)
    (str : string) (start_pos : nat) (result : C) : C :=
  match fuel with
  | 0 => result
  | S fuel' =>
      if start_pos <? String.length str then
        let start_pos := scan_while (λ c, negb (isalpha c)) str start_pos in
        if start_pos =? String.length str then result
        else
          let finish_pos := scan_while isalpha str (start_pos + 1) in
          if finish_pos =? String.length str then
            emit result (substr_from str start_pos)
          else
            words_loop emit fuel' str (finish_pos + 1)
              (emit result (substr str start_pos (finish_pos - start_pos)))
      else result
  end.

Definition GetWordsFromStringView (str : string) : list string :=
  words_loop (λ result w, result ++ [w]) (String.length str) str 0 [].

Definition GetUniqueWordsFromStringView (str : string) : list string :=
  words_loop set_insert (String.length str) str 0 [].

(** The [do ... while (start_pos < text.size())] loop; [continue] jumps to
    the loop condition. *)
Fixpoint lines_loop (fuel : nat) (text : string) (start_pos : nat)
    (result : list string) : list string :=
  match fuel with
  | 0 => result
  | S fuel' =>
      let finish_pos := find text newline start_pos in
      if decide (finish_pos = Some start_pos) then
        let start_pos := S start_pos in
        if start_pos <? String.length text
        then lines_loop fuel' text start_pos result else result
      else
        match finish_pos with
        | None => result ++ [substr_from text start_pos]
        | Some finish_pos =>
            let result := result ++ [substr text start_pos (finish_pos - start_pos)] in
            let start_pos := finish_pos + 1 in
            if start_pos <? String.length text
            then lines_loop fuel' text start_pos result else result
        end
  end.

Definition GetLinesFromText (text : string) : list string :=
  lines_loop (S (String.length text)) text 0 [].

(** ** Numbers *)

#[global] Instance Req_decision : EqDecision R := Req_dec_T.
#[global] Instance Rlt_decision (x y : R) : Decision (x < y)%R := Rlt_dec x y.

(** [const long double ERROR = 1e-9;] *)
Definition ERROR : R := (/ 10 ^ 9)%R.

(** ** class SearchEngine *)

Record RelevanceAndPos : Type := {
  relevance : R;
  pos : nat;
}.

Record SearchEngine : Type := {
  text_words_ : list string;
  words_relevance_in_lines_ : gmap string (list R);
  lines_ : list string;
  ignore_list_ : gset nat;
}.

(** The elements of a vector with their positions, for the loops
    [for (size_t i = 0; i < v.size(); ++i)] that read [v[i]]. *)
Definition indexed {A : Type} (v : list A) : list (nat * A) :=
  zip (seq 0 (length v)) v.

(** [operator[]] of an [unordered_map] default-constructs the value of a
    missing key.  The model reads such a key as the default and leaves it
    absent; no later read can tell the difference. *)
Definition at_key {V : Type} (d : V) (m : gmap string V) (k : string) : V :=
  default d (m !! k).

(** *** GetTFOfWordsInLine *)

Definition count_word (keywords : list string) (result : gmap string R)
    (word : string) : gmap string R :=
  match set_find keywords word with
  | Some it => <[it := (at_key 0 result it + 1)%R]> result
  | None => result
  end.

Definition divide_word (size : nat) (result : gmap string R) (word : string)
  : outcome (gmap string R) :=
  if size =? 0 then Fault DivisionByZero
  else Ok (<[word := (at_key 0 result word / INR size)%R]> result).

Definition GetTFOfWordsInLine (words_in_line : list string)
    (keywords : list string) : outcome (gmap string R) :=
  let result := fold_left (count_word keywords) words_in_line ∅ in
  foldM (divide_word (length words_in_line)) keywords result.

(** *** BuildIndex *)

(** First loop: the words of every line, and the lines without words. *)
Definition collect_line (st : list (list string) * gset nat) (il : nat * string)
  : list (list string) * gset nat :=
  let '(words_in_lines, ignore_list) := st in
  let words := GetWordsFromStringView il.2 in
  (words_in_lines ++ [words],
   if bool_decide (words = []) then {[il.1]} ∪ ignore_list else ignore_list).

Definition collect_lines (lines : list string) : list (list string) * gset nat :=
  fold_left collect_line (indexed lines) ([], ∅).

(** Second loop: term frequencies and document counts. *)
Definition tf_word (temp : gmap string R)
    (st : gmap string (list R) * gmap string R) (word : string)
  : gmap string (list R) * gmap string R :=
  let '(word_tf_in_line, word_idf) := st in
  let t := at_key 0%R temp word in
  (<[word := at_key [] word_tf_in_line word ++ [t]]> word_tf_in_line,
   if decide (t = 0%R) then word_idf
   else <[word := (at_key 0 word_idf word + 1)%R]> word_idf).

Definition tf_line (text_words : list string) (ignore_list : gset nat)
    (st : gmap string (list R) * gmap string R) (iw : nat * list string)
  : outcome (gmap string (list R) * gmap string R) :=
  if decide (iw.1 ∈ ignore_list) then Ok st
  else
    temp ← GetTFOfWordsInLine iw.2 text_words;
    Ok (fold_left (tf_word temp) text_words st).

(** Third loop: document counts become inverse document frequencies. *)
Definition idf_word (size : nat) (word_idf : gmap string R) (word : string)
  : gmap string R :=
  let d := at_key 0%R word_idf word in
  if decide (d = 0%R) then word_idf
  else <[word := ln (INR size / d)]> word_idf.

(** Fourth loop: the relevance table. *)
Definition relevance_word (word_tf_in_line : gmap string (list R))
    (word_idf : gmap string R) (i : nat)
    (rel : gmap string (list R)) (word : string) : outcome (gmap string (list R)) :=
  match at_key [] word_tf_in_line word !! i with
  | Some t => Ok (<[word := at_key [] rel word ++ [(t * at_key 0 word_idf word)%R]]> rel)
  | None => Fault OutOfRange
  end.

Definition relevance_line (text_words : list string) (ignore_list : gset nat)
    (word_tf_in_line : gmap string (list R)) (word_idf : gmap string R)
    (rel : gmap string (list R)) (i : nat) : outcome (gmap string (list R)) :=
  if decide (i ∈ ignore_list) then Ok rel
  else foldM (relevance_word word_tf_in_line word_idf i) text_words rel.

(** The state of [BuildIndex] after its second loop. *)
Definition BuildIndex_tf (text : string)
  : outcome (gmap string (list R) * gmap string R) :=
  let lines := GetLinesFromText text in
  let text_words := GetUniqueWordsFromStringView text in
  let '(words_in_lines, ignore_list) := collect_lines lines in
  foldM (tf_line text_words ignore_list) (indexed words_in_lines) (∅, ∅).

(** [word_tf_in_line] and [word_idf] after the third loop. *)
Definition BuildIndex_idf (text : string)
  : outcome (gmap string (list R) * gmap string R) :=
  st ← BuildIndex_tf text;
  Ok (st.1, fold_left (idf_word (length (GetLinesFromText text)))
              (GetUniqueWordsFromStringView text) st.2).

Definition BuildIndex (text : string) : outcome SearchEngine :=
  let lines := GetLinesFromText text in
  let text_words := GetUniqueWordsFromStringView text in
  let ignore_list := (collect_lines lines).2 in
  st ← BuildIndex_idf text;
  rel ← foldM (relevance_line text_words ignore_list st.1 st.2)
        (seq 0 (length lines)) ∅;
  Ok {| text_words_ := text_words;
        words_relevance_in_lines_ := rel;
        lines_ := lines;
        ignore_list_ := ignore_list |}.

(** *** Search *)

(** The comparison passed to [std::sort]. *)
Definition less (lhs rhs : RelevanceAndPos) : bool :=
  if decide (Rabs (relevance lhs - relevance rhs) < ERROR)%R
  then pos rhs <? pos lhs
  else bool_decide (relevance lhs < relevance rhs)%R.

(** [std::sort(first, last, comp)]: the range in ascending order for [comp].
    The standard fixes the outcome when [comp] is a strict weak order in
    which no two elements of the range are equivalent; the model sorts by
    insertion. *)
Fixpoint sort_insert {A : Type} (comp : A → A → bool) (x : A) (l : list A)
  : list A :=
  match l with
  | [] => [x]
  | y :: l' => if comp y x then y :: sort_insert comp x l' else x :: y :: l'
  end.

Fixpoint std_sort {A : Type} (comp : A → A → bool) (l : list A) : list A :=
  match l with
  | [] => []
  | x :: l' => sort_insert comp x (std_sort comp l')
  end.

(** Sorting through [rbegin()]/[rend()] sorts the reversed vector. *)
Definition sort_reversed {A : Type} (comp : A → A → bool) (v : list A) : list A :=
  reverse (std_sort comp (reverse v)).

Definition add_relevance (rel : gmap string (list R)) (i : nat) (acc : R)
    (word : string) : outcome R :=
  match rel !! word with
  | Some v =>
      match v !! i with
      | Some x => Ok (acc + x)%R
      | None => Fault OutOfRange
      end
  | None => Ok acc
  end.

Definition score_line (engine : SearchEngine) (query_words : list string)
    (lines_relevance : list RelevanceAndPos) (i : nat)
  : outcome (list RelevanceAndPos) :=
  if decide (i ∈ ignore_list_ engine) then Ok lines_relevance
  else
    r ← foldM (add_relevance (words_relevance_in_lines_ engine) i) query_words 0%R;
    Ok (lines_relevance ++ [{| relevance := r; pos := i |}]).

(** The last loop of [Search], from [i] on. *)
Fixpoint take_results (lines : list string) (results_count : nat)
    (lines_relevance : list RelevanceAndPos) (i : nat) (result : list string)
  : outcome (list string) :=
  match lines_relevance with
  | [] => Ok result
  | x :: rest =>
      if (results_count <=? i) || bool_decide (relevance x = 0%R) then Ok result
      else
        match lines !! pos x with
        | Some line => take_results lines results_count rest (S i) (result ++ [line])
        | None => Fault OutOfRange
        end
  end.

(** [lines_relevance] as [Search] has it after [std::sort]. *)
Definition ranked (engine : SearchEngine) (query : string)
  : outcome (list RelevanceAndPos) :=
  let query_words := GetUniqueWordsFromStringView query in
  lines_relevance ← foldM (score_line engine query_words)
                      (seq 0 (length (lines_ engine))) [];
  Ok (sort_reversed less lines_relevance).

Definition Search (engine : SearchEngine) (query : string) (results_count : nat)
  : outcome (list string) :=
  if (results_count =? 0) || bool_decide (lines_ engine = []) then Ok []
  else
    lines_relevance ← ranked engine query;
    take_results (lines_ engine) results_count lines_relevance 0 [].

Definition nl : string := String newline EmptyString.

(** ** Reference functions

    Closed forms of the loops above and the quantities the statements
    below are about. *)

Abbreviation chars := String.list_ascii_of_string.
Abbreviation str_of := String.string_of_list_ascii.

Fixpoint prefix_len (p : ascii → bool) (l : list ascii) : nat :=
  match l with
  | c :: l' => if p c then S (prefix_len p l') else 0
  | [] => 0
  end.

Fixpoint fields (sep : ascii → bool) (l : list ascii) : list (list ascii) :=
  match l with
  | [] => [[]]
  | c :: l' =>
      if sep c then [] :: fields sep l'
      else match fields sep l' with
           | f :: fs => (c :: f) :: fs
           | [] => [[c]]
           end
  end.

Definition runs (sep : ascii → bool) (l : list ascii) : list (list ascii) :=
  filter (λ f, f ≠ []) (fields sep l).

Definition not_alpha (c : ascii) : bool := negb (isalpha c).
Definition is_newline (c : ascii) : bool := Ascii.eqb c newline.

Definition tokens (s : string) : list string :=
  map str_of (runs not_alpha (chars s)).

Definition text_lines (text : string) : list string :=
  map str_of (runs is_newline (chars text)).

Fixpoint lex_lt (a b : list nat) : bool :=
  match a, b with
  | x :: a', y :: b' =>
      if x <? y then true else if y <? x then false else lex_lt a' b'
  | [], _ :: _ => true
  | _, [] => false
  end.

Definition key (s : string) : list nat := map tolower (chars s).

Definition set_ok (s : list string) : Prop :=
  StronglySorted (λ a b, Comp a b = true) s.

(** How many words of a line [keywords.find] maps to the keyword [k]. *)
Definition occurrences (keywords : list string) (k : string) (ws : list string) : nat :=
  length (filter (λ w, set_find keywords w = Some k) ws).

Definition TF (keywords : list string) (ws : list string) (k : string) : R :=
  (INR (occurrences keywords k ws) / INR (length ws))%R.

(** The document frequency of [k]: the number of scored lines, given by
    their word lists, whose term frequency for [k] is not zero. *)
Definition DF (keywords : list string) (scored : list (list string)) (k : string) : nat :=
  length (filter (λ ws, TF keywords ws k ≠ 0%R) scored).

Definition IDF (keywords : list string) (scored : list (list string))
    (size : nat) (k : string) : R :=
  if decide (DF keywords scored k = 0) then 0%R
  else ln (INR size / INR (DF keywords scored k)).

(** The word lists of the lines that are not ignored, in line order. *)
Definition scored_words (words_in_lines : list (list string)) : list (list string) :=
  filter (λ ws, ws ≠ []) words_in_lines.

(** The positions of the lines that are not ignored, in increasing order,
    for lines numbered from [a]. *)
Fixpoint positions_from (a : nat) (words_in_lines : list (list string)) : list nat :=
  match words_in_lines with
  | [] => []
  | ws :: rest =>
      if decide (ws = []) then positions_from (S a) rest
      else a :: positions_from (S a) rest
  end.

Definition scored_positions (words_in_lines : list (list string)) : list nat :=
  positions_from 0 words_in_lines.

(** No ignored line comes before a line with words. *)
Definition aligned (words_in_lines : list (list string)) : Prop :=
  words_in_lines
  = scored_words words_in_lines
    ++ replicate (length words_in_lines - length (scored_words words_in_lines)) [].

Definition words_of_lines (text : string) : list (list string) :=
  map GetWordsFromStringView (GetLinesFromText text).

(** The relevance of line words [ws] for keyword [k]. *)
Definition relevance_of (text : string) (ws : list string) (k : string) : R :=
  (TF (GetUniqueWordsFromStringView text) ws k
   * IDF (GetUniqueWordsFromStringView text) (scored_words (words_of_lines text))
       (length (GetLinesFromText text)) k)%R.

Definition Rsum (l : list R) : R := foldr Rplus 0%R l.

(** The table entry of word [q] at line [i], [0] when there is none. *)
Definition lookup_relevance (rel : gmap string (list R)) (i : nat) (q : string) : R :=
  default 0%R (at_key [] rel q !! i).

Definition line_score (rel : gmap string (list R)) (query_words : list string)
    (i : nat) : R :=
  Rsum (map (lookup_relevance rel i) query_words).

Definition entry (rel : gmap string (list R)) (query_words : list string)
    (i : nat) : RelevanceAndPos :=
  {| relevance := line_score rel query_words i; pos := i |}.

(** The entries of the ranked vector whose lines [Search] returns. *)
Fixpoint returned (results_count : nat) (lines_relevance : list RelevanceAndPos)
    (i : nat) : list RelevanceAndPos :=
  match lines_relevance with
  | [] => []
  | x :: rest =>
      if (results_count <=? i) || bool_decide (relevance x = 0%R) then []
      else x :: returned results_count rest (S i)
  end.

(** Per scored line, how often keyword [k] occurs and how many words the
    line has: the two integers behind each term frequency. *)
Definition occ_profile_of (keywords : list string) (scored : list (list string))
    (k : string) : list (nat * nat) :=
  map (λ ws, (occurrences keywords k ws, length ws)) scored.

Definition occ_profile (text : string) (k : string) : list (nat * nat) :=
  occ_profile_of (GetUniqueWordsFromStringView text)
    (scored_words (words_of_lines text)) k.

(** The number of scored lines in which keyword [k] occurs. *)
Definition df_count (text : string) (k : string) : nat :=
  length (filter (λ p : nat * nat, p.1 ≠ 0) (occ_profile text k)).

Definition idf_value (text : string) (k : string) : R :=
  if decide (df_count text k = 0) then 0%R
  else ln (INR (length (GetLinesFromText text)) / INR (df_count text k)).

Definition profile_entry (idf : R) (i : nat) (p : nat * nat) : RelevanceAndPos :=
  {| relevance := (INR p.1 / INR p.2 * idf)%R; pos := i |}.

Definition ranking_text : string :=
  "cat sat" +:+ nl +:+ "dog ran" +:+ nl +:+ "cat cat cat".

(** A text whose first line has no word. *)
Definition leading_ignored_text : string := "1" +:+ nl +:+ "a".

(** A text whose last line has no word. *)
Definition trailing_ignored_text : string := "a" +:+ nl +:+ "1".

Definition fruit_text : string := "apple" +:+ nl +:+ "banana".

(** Two scores "differ by less than the tolerance". *)
Definition tie (a b : RelevanceAndPos) : Prop :=
  (Rabs (relevance a - relevance b) < ERROR)%R.

(** The order of the returned entries: of two entries the earlier one has
    the smaller position if their scores tie, and the strictly larger
    score otherwise. *)
Definition ranking_rule (l : list RelevanceAndPos) : Prop :=
  ∀ i j a b, i < j → l !! i = Some a → l !! j = Some b →
    (tie a b → pos a < pos b) ∧ (¬ tie a b → (relevance b < relevance a)%R).

Fixpoint repeat_string (n : nat) (s : string) : string :=
  match n with
  | 0 => EmptyString
  | S n' => s +:+ repeat_string n' s
  end.

(** Three long lines in which "w" makes up 500/1001, 501/1003 and 502/1005
    of the words, a line without "w", and 1500 lines "w". *)
Definition near_tie_text : string :=
  repeat_string 500 "w " +:+ repeat_string 501 "x " +:+ nl +:+
  repeat_string 501 "w " +:+ repeat_string 502 "x " +:+ nl +:+
  repeat_string 502 "w " +:+ repeat_string 503 "x " +:+ nl +:+
  "x" +:+ nl +:+
  repeat_string 1500 ("w" +:+ nl).

Definition near_tie_words : list (list string) :=
  [replicate 500 "w" ++ replicate 501 "x";
   replicate 501 "w" ++ replicate 502 "x";
   replicate 502 "w" ++ replicate 503 "x";
   ["x"]] ++ replicate 1500 ["w"].

Definition near_tie_profile : list (nat * nat) :=
  [(500, 1001); (501, 1003); (502, 1005); (0, 1)] ++ replicate 1500 (1, 1).

(** * The Minesweeper game (search.cpp, class Minesweeper)

    Shallow embedding of [class Minesweeper].

    Modelling conventions.
    - The object is a [state] record of the data members; a member function
      takes the state and returns the new one.
    - [field_] is a list of lines of cells; [field_[cell.y][cell.x]] out of
      range is [OutOfBounds].
    - [size_t] is [nat], [int64_t] and [time_t] are [Z].  [cell.y + i] with
      [int i] is computed in [size_t]: below zero it wraps to a value that
      is not less than any vector size, so [cell.y + i < field_.size()] is
      [0 <= y + i < size] over the integers.
    - [rand()] is the sequence [rand] of the values it returns, with the
      number of calls made so far threaded along; [time()] is passed in as
      the value it returns.  [difftime] followed by the cast to [time_t] is
      the difference of the two readings.
    - The constructors leave [game_time_] uninitialised; the model starts it
      at 0.
    - [Infect] recurses; the model recurses on a depth bound and answers
      [OutOfFuel] below it.  [OpenCell] starts it with more than the number
      of cells, which the recursion never exhausts. *)

From stdpp Require pretty.

Module Minesweeper.

Inductive run (A : Type) : Type :=
  | Done (a : A)
  | OutOfBounds   (* vector operator[] with an index >= size() *)
  | OutOfFuel.    (* the depth bound of the model is used up *)
Arguments Done {A} a.
Arguments OutOfBounds {A}.
Arguments OutOfFuel {A}.

#[global] Instance run_ret : MRet run := @Done.
#[global] Instance run_bind : MBind run := λ A B f m,
  match m with
  | Done a => f a
  | OutOfBounds => OutOfBounds
  | OutOfFuel => OutOfFuel
  end.

(** [for (x : xs) acc = body(acc, x)] *)
Fixpoint for_each {A B : Type} (body : B → A → run B) (xs : list A) (acc : B)
  : run B :=
  match xs with
  | [] => Done acc
  | x :: xs' => acc' ← body acc x; for_each body xs' acc'
  end.

Record Cell : Type := { x : nat; y : nat }.

Inductive CellContent : Type := EMPTY | MINE.

Record CellInfo : Type := {
  opened : bool;
  flaged : bool;
  content : CellContent;
  number_of_mines_in_near_cells : Z;
}.

Inductive GameStatus : Type := NOT_STARTED | IN_PROGRESS | VICTORY | DEFEAT.

Record state : Type := {
  game_status_ : GameStatus;
  field_ : list (list CellInfo);
  game_time_ : Z;
  opened_cell_number_ : nat;
  mine_counter_ : nat;
  mines_ : nat;
  titles_ : nat;
}.

(** Assignments to one member. *)
Definition set_opened (b : bool) (c : CellInfo) : CellInfo :=
  {| opened := b; flaged := flaged c; content := content c;
     number_of_mines_in_near_cells := number_of_mines_in_near_cells c |}.

Definition set_flaged (b : bool) (c : CellInfo) : CellInfo :=
  {| opened := opened c; flaged := b; content := content c;
     number_of_mines_in_near_cells := number_of_mines_in_near_cells c |}.

Definition set_content (k : CellContent) (c : CellInfo) : CellInfo :=
  {| opened := opened c; flaged := flaged c; content := k;
     number_of_mines_in_near_cells := number_of_mines_in_near_cells c |}.

Definition set_number (n : Z) (c : CellInfo) : CellInfo :=
  {| opened := opened c; flaged := flaged c; content := content c;
     number_of_mines_in_near_cells := n |}.

Definition with_status (s : GameStatus) (g : state) : state :=
  {| game_status_ := s; field_ := field_ g; game_time_ := game_time_ g;
     opened_cell_number_ := opened_cell_number_ g;
     mine_counter_ := mine_counter_ g; mines_ := mines_ g;
     titles_ := titles_ g |}.

Definition with_field (f : list (list CellInfo)) (g : state) : state :=
  {| game_status_ := game_status_ g; field_ := f; game_time_ := game_time_ g;
     opened_cell_number_ := opened_cell_number_ g;
     mine_counter_ := mine_counter_ g; mines_ := mines_ g;
     titles_ := titles_ g |}.

Definition with_time (t : Z) (g : state) : state :=
  {| game_status_ := game_status_ g; field_ := field_ g; game_time_ := t;
     opened_cell_number_ := opened_cell_number_ g;
     mine_counter_ := mine_counter_ g; mines_ := mines_ g;
     titles_ := titles_ g |}.

Definition with_opened_cell_number (n : nat) (g : state) : state :=
  {| game_status_ := game_status_ g; field_ := field_ g;
     game_time_ := game_time_ g; opened_cell_number_ := n;
     mine_counter_ := mine_counter_ g; mines_ := mines_ g;
     titles_ := titles_ g |}.

Definition with_mine_counter (n : nat) (g : state) : state :=
  {| game_status_ := game_status_ g; field_ := field_ g;
     game_time_ := game_time_ g;
     opened_cell_number_ := opened_cell_number_ g;
     mine_counter_ := n; mines_ := mines_ g; titles_ := titles_ g |}.

(** [CellInfo()] and [CellInfo({false, false, CellContent::MINE, 0})] *)
Definition default_cell : CellInfo :=
  {| opened := false; flaged := false; content := EMPTY;
     number_of_mines_in_near_cells := 0 |}.

Definition mine_cell : CellInfo :=
  {| opened := false; flaged := false; content := MINE;
     number_of_mines_in_near_cells := 0 |}.

(** [std::vector<std::vector<CellInfo>>(height, std::vector<CellInfo>(width, c))] *)
Definition filled (width height : nat) (c : CellInfo) : list (list CellInfo) :=
  replicate height (replicate width c).

(** Reading [field_[cell.y][cell.x]]. *)
Definition at_cell (field : list (list CellInfo)) (cell : Cell) : run CellInfo :=
  match field !! y cell with
  | Some line =>
      match line !! x cell with
      | Some info => Done info
      | None => OutOfBounds
      end
  | None => OutOfBounds
  end.

(** Assigning to a member of [field_[cell.y][cell.x]]. *)
Definition assign (f : CellInfo → CellInfo) (field : list (list CellInfo))
    (cell : Cell) : run (list (list CellInfo)) :=
  _ ← at_cell field cell;
  Done (alter (alter f (x cell)) (y cell) field).

(** ** Restart *)

Definition Restart (mines_count title_count : nat) (g : state) : state :=
  {| game_status_ := NOT_STARTED; field_ := field_ g;
     game_time_ := game_time_ g; opened_cell_number_ := 0;
     mine_counter_ := 0; mines_ := mines_count; titles_ := title_count |}.

(** ** MineGenerator, FillLine, FillField

    The pair threaded along is the number of calls of [rand()] made so far
    and the object. *)

Definition MineGenerator (rand : nat → nat) (s : nat * state)
  : CellInfo * (nat * state) :=
  let '(calls, g) := s in
  let temp := default_cell in
  if mine_counter_ g =? mines_ g then (temp, s)
  else if negb (rand calls mod 2 =? 0) then
    (set_content MINE temp,
     (S calls, with_mine_counter (S (mine_counter_ g)) g))
  else (temp, (S calls, g)).

Fixpoint FillLine (rand : nat → nat) (line : list CellInfo) (s : nat * state)
  : list CellInfo * (nat * state) :=
  match line with
  | [] => ([], s)
  | _ :: line' =>
      let '(cell, s) := MineGenerator rand s in
      let '(line', s) := FillLine rand line' s in
      (cell :: line', s)
  end.

Fixpoint fill_lines (rand : nat → nat) (lines : list (list CellInfo))
    (s : nat * state) : list (list CellInfo) * (nat * state) :=
  match lines with
  | [] => ([], s)
  | line :: lines' =>
      let '(line, s) := FillLine rand line s in
      let '(lines', s) := fill_lines rand lines' s in
      (line :: lines', s)
  end.

Definition FillField (rand : nat → nat) (s : nat * state) : nat * state :=
  let '(lines, (calls, g)) := fill_lines rand (field_ (snd s)) s in
  (calls, with_field lines g).

(** ** OpenLine *)

Definition OpenLine (line : list CellInfo) : list CellInfo :=
  map (set_opened true) line.

(** ** Constructors and NewGame *)

(** The data members as their default member initializers leave them. *)
Definition initial : state :=
  {| game_status_ := NOT_STARTED; field_ := []; game_time_ := 0;
     opened_cell_number_ := 0; mine_counter_ := 0; mines_ := 0;
     titles_ := 0 |}.

(** The body shared by the constructor and [NewGame] on a mine count. *)
Definition lay_mines_count (rand : nat → nat) (width height mines_count : nat)
    (s : nat * state) : nat * state :=
  let '(calls, g) := s in
  if width * height <=? mines_count then
    (calls, with_field (filled width height mine_cell) g)
  else
    let g := with_field (filled width height default_cell) g in
    if 0 <? mines_count then FillField rand (calls, g) else (calls, g).

Definition Minesweeper_mines_count (rand : nat → nat) (calls : nat)
    (width height mines_count : nat) : nat * state :=
  let g :=
    {| game_status_ := NOT_STARTED; field_ := []; game_time_ := 0;
       opened_cell_number_ := 0; mine_counter_ := 0; mines_ := mines_count;
       titles_ := width * height |} in
  lay_mines_count rand width height mines_count (calls, g).

Definition NewGame_mines_count (rand : nat → nat) (calls : nat)
    (width height mines_count : nat) (g : state) : nat * state :=
  let g := Restart mines_count (width * height) g in
  lay_mines_count rand width height mines_count (calls, g).

(** [for (cell : cells_with_mines) field_[cell.y][cell.x].content = MINE] *)
Definition lay_cells_with_mines (cells_with_mines : list Cell) (g : state)
  : run state :=
  field ← for_each (assign (set_content MINE)) cells_with_mines (field_ g);
  Done (with_field field g).

Definition Minesweeper_cells_with_mines (width height : nat)
    (cells_with_mines : list Cell) : run state :=
  lay_cells_with_mines cells_with_mines
    {| game_status_ := NOT_STARTED;
       field_ := filled width height default_cell; game_time_ := 0;
       opened_cell_number_ := 0; mine_counter_ := 0;
       mines_ := length cells_with_mines; titles_ := width * height |}.

Definition NewGame_cells_with_mines (width height : nat)
    (cells_with_mines : list Cell) (g : state) : run state :=
  let g := with_field (filled width height default_cell) g in
  let g := Restart (length cells_with_mines) (width * height) g in
  lay_cells_with_mines cells_with_mines g.

(** ** Infect *)

(** The locals of [Infect] that the double loop updates. *)
Record around : Type := {
  number_of_mines : Z;
  infect_further : bool;
  next_cells : list Cell;
}.

(** The pairs [(i, j)] in the order the double loop visits them. *)
Definition offsets : list (Z * Z) :=
  flat_map (λ i, map (λ j, (i, j)) [-1; 0; 1]%Z) [-1; 0; 1]%Z.

(** [field_[0].size()], read only once [field_] is known to have a line. *)
Definition width_of (field : list (list CellInfo)) : nat :=
  match field with
  | line :: _ => length line
  | [] => 0
  end.

(** One pass of the body of the double loop. *)
Definition look (field : list (list CellInfo)) (cell : Cell) (acc : around)
    (ij : Z * Z) : run around :=
  let '(i, j) := ij in
  let ny := (Z.of_nat (y cell) + i)%Z in
  let nx := (Z.of_nat (x cell) + j)%Z in
  if negb ((negb (i =? 0)%Z || negb (j =? 0)%Z)
           && ((0 <=? ny)%Z && (ny <? Z.of_nat (length field))%Z)
           && ((0 <=? nx)%Z && (nx <? Z.of_nat (width_of field))%Z))
  then Done acc
  else
    let next := {| x := Z.to_nat nx; y := Z.to_nat ny |} in
    info ← at_cell field next;
    match content info with
    | MINE =>
        Done {| number_of_mines := number_of_mines acc + 1;
                infect_further := false;
                next_cells := next_cells acc |}
    | EMPTY =>
        if infect_further acc && negb (opened info) && negb (flaged info)
        then Done {| number_of_mines := number_of_mines acc;
                     infect_further := infect_further acc;
                     next_cells := next_cells acc ++ [next] |}
        else Done acc
    end.

(** [field_[next_cell.y][next_cell.x].opened = true; ++opened_cell_number_;] *)
Definition open_next (g : state) (next_cell : Cell) : run state :=
  field ← assign (set_opened true) (field_ g) next_cell;
  Done (with_opened_cell_number (S (opened_cell_number_ g))
          (with_field field g)).

Fixpoint Infect (fuel : nat) (cluster : list Cell) (cell : Cell) (g : state)
  : run (list Cell * state) :=
  match fuel with
  | 0 => OutOfFuel
  | S fuel =>
      let cluster := cluster ++ [cell] in
      seen ← for_each (look (field_ g) cell) offsets
                {| number_of_mines := 0; infect_further := true;
                   next_cells := [] |};
      field ← assign (set_number (number_of_mines seen)) (field_ g) cell;
      let g := with_field field g in
      if infect_further seen then
        g ← for_each open_next (next_cells seen) g;
        for_each (λ '(cluster, g) next_cell, Infect fuel cluster next_cell g)
          (next_cells seen) (cluster, g)
      else Done (cluster, g)
  end.

(** ** OpenCell, MarkCell *)

(** The depth bound [OpenCell] starts [Infect] with. *)
Definition enough (g : state) : nat := S (length (concat (field_ g))).

Definition OpenCell (started finished : Z) (cell : Cell) (g : state)
  : run state :=
  let g :=
    match game_status_ g with
    | NOT_STARTED => with_time started (with_status IN_PROGRESS g)
    | _ => g
    end in
  match game_status_ g with
  | IN_PROGRESS =>
      info ← at_cell (field_ g) cell;
      match content info with
      | MINE =>
          let g := with_field (map OpenLine (field_ g)) g in
          let g := with_status DEFEAT g in
          Done (with_time (finished - game_time_ g) g)
      | EMPTY =>
          if opened info then Done g
          else
            field ← assign (set_flaged false) (field_ g) cell;
            let buff : list Cell := [] in
            field ← assign (set_opened true) field cell;
            let g := with_field field g in
            let g := with_opened_cell_number (S (opened_cell_number_ g)) g in
            '(buff, g) ← Infect (enough g) buff cell g;
            if mines_ g + opened_cell_number_ g =? titles_ g then
              let g := with_status VICTORY g in
              Done (with_time (finished - game_time_ g) g)
            else Done g
      end
  | _ => Done g
  end.

Definition MarkCell (started : Z) (cell : Cell) (g : state) : run state :=
  let g :=
    match game_status_ g with
    | NOT_STARTED => with_time started (with_status IN_PROGRESS g)
    | _ => g
    end in
  match game_status_ g with
  | IN_PROGRESS =>
      info ← at_cell (field_ g) cell;
      if negb (opened info) then
        field ← assign (λ c, set_flaged (negb (flaged c)) c) (field_ g) cell;
        Done (with_field field g)
      else Done g
  | _ => Done g
  end.

(** ** GetGameStatus, GetGameTime, RenderField *)

Definition GetGameStatus (g : state) : GameStatus := game_status_ g.

Definition GetGameTime (now : Z) (g : state) : Z :=
  match game_status_ g with
  | NOT_STARTED => 0
  | IN_PROGRESS => now - game_time_ g
  | VICTORY => game_time_ g
  | DEFEAT => game_time_ g
  end.

(** What one cell appends to [temp]. *)
Definition render_cell (cell : CellInfo) : string :=
  if flaged cell then "?"
  else if negb (opened cell) then "-"
  else
    match content cell with
    | MINE => "*"
    | EMPTY =>
        if (number_of_mines_in_near_cells cell =? 0)%Z then "."
        else pretty.pretty (number_of_mines_in_near_cells cell)
    end.

Definition RenderField (g : state) : list string :=
  map (λ line, foldl (λ temp cell, temp +:+ render_cell cell) "" line)
    (field_ g).

(** ** Reference notions *)

#[global] Instance Cell_eq_dec : EqDecision Cell.
Proof. solve_decision. Defined.

(** A field of [height] lines of [width] cells each. *)
Definition rectangular (width height : nat) (field : list (list CellInfo))
  : Prop :=
  length field = height ∧ Forall (λ line, length line = width) field.

Definition inside (width height : nat) (cell : Cell) : Prop :=
  x cell < width ∧ y cell < height.

#[global] Instance inside_dec width height cell :
  Decision (inside width height cell).
Proof. unfold inside. apply _. Defined.

(** Two different cells that touch by a side or a corner. *)
Definition adjacent (a b : Cell) : Prop :=
  a ≠ b ∧ x a ≤ S (x b) ∧ x b ≤ S (x a) ∧ y a ≤ S (y b) ∧ y b ≤ S (y a).

(** [field] after [field_[cell.y][cell.x] = f(field_[cell.y][cell.x])]. *)
Definition altered (f : CellInfo → CellInfo) (cell : Cell)
    (field : list (list CellInfo)) : list (list CellInfo) :=
  alter (alter f (x cell)) (y cell) field.

Definition is_mine (c : CellInfo) : bool :=
  match content c with MINE => true | EMPTY => false end.

(** The number of cells of the field that satisfy [p]. *)
Definition count_cells (p : CellInfo → bool) (field : list (list CellInfo))
  : nat :=
  length (List.filter p (concat field)).

(** A cell as the constructors make it, with or without a mine. *)
Definition untouched (c : CellInfo) : Prop :=
  opened c = false ∧ flaged c = false ∧ number_of_mines_in_near_cells c = 0%Z.

(** The number of odd values among [n] values of [rand()] from the
    call numbered [calls] on. *)
Definition odd_draws (rand : nat → nat) (calls n : nat) : nat :=
  length (List.filter (λ k, negb (rand k mod 2 =? 0)) (seq calls n)).

Definition closed (c : CellInfo) : bool := negb (opened c).

(** The cell at [cell], for uses where it is known to exist. *)
Definition info_at (field : list (list CellInfo)) (cell : Cell) : CellInfo :=
  match at_cell field cell with
  | Done info => info
  | _ => default_cell
  end.

(** The cell [Infect] looks at for the offsets [(i, j)], and the condition
    under which it does. *)
Definition near (cell : Cell) (ij : Z * Z) : Cell :=
  {| x := Z.to_nat (Z.of_nat (x cell) + ij.2);
     y := Z.to_nat (Z.of_nat (y cell) + ij.1) |}.

Definition reachable (field : list (list CellInfo)) (cell : Cell)
    (ij : Z * Z) : bool :=
  (negb (ij.1 =? 0)%Z || negb (ij.2 =? 0)%Z)
  && ((0 <=? Z.of_nat (y cell) + ij.1)%Z
      && (Z.of_nat (y cell) + ij.1 <? Z.of_nat (length field))%Z)
  && ((0 <=? Z.of_nat (x cell) + ij.2)%Z
      && (Z.of_nat (x cell) + ij.2 <? Z.of_nat (width_of field))%Z).

(** The cells [Infect] looks at around [cell], in the order of the loop. *)
Definition around_cells (field : list (list CellInfo)) (cell : Cell)
  : list Cell :=
  map (near cell) (List.filter (reachable field cell) offsets).

(** [n] is the number of cells that satisfy [P]. *)
Definition cardinal (P : Cell → Prop) (n : nat) : Prop :=
  ∃ cells : list Cell, NoDup cells ∧ (∀ c, c ∈ cells ↔ P c) ∧ length cells = n.

(** The cell holds a mine. *)
Definition mined (field : list (list CellInfo)) (cell : Cell) : Prop :=
  ∃ info, at_cell field cell = Done info ∧ content info = MINE.

(** The cell is open. *)
Definition open (field : list (list CellInfo)) (cell : Cell) : Prop :=
  ∃ info, at_cell field cell = Done info ∧ opened info = true.

(** The cell carries a flag. *)
Definition flagged (field : list (list CellInfo)) (cell : Cell) : Prop :=
  ∃ info, at_cell field cell = Done info ∧ flaged info = true.

(** [n] is the number of mines in the cells adjacent to [cell]. *)
Definition mines_around (field : list (list CellInfo)) (cell : Cell) (n : nat)
  : Prop :=
  cardinal (λ k, adjacent cell k ∧ mined field k) n.

(** The number stored in [info], the cell at [cell], is the number of
    mines around it; and if that is zero, every cell around it is open or
    flagged. *)
Definition surveyed (field : list (list CellInfo)) (cell : Cell)
    (info : CellInfo) : Prop :=
  ∃ n, number_of_mines_in_near_cells info = Z.of_nat n ∧
    mines_around field cell n ∧
    (n = 0 → ∀ k i, adjacent cell k → at_cell field k = Done i →
               opened i = true ∨ flaged i = true).

(** [field'] is [field] after a flood fill that visited the cells
    [visited] of it, of which it opened [opened_now]: contents and flags are
    unchanged, the cells not visited are unchanged, the cells opened were
    closed, unflagged and empty, and the cells visited are open and
    surveyed. *)
Definition flood (width height : nat) (field field' : list (list CellInfo))
    (visited opened_now : list Cell) : Prop :=
  rectangular width height field ∧ rectangular width height field' ∧
  Forall (inside width height) visited ∧
  NoDup opened_now ∧ opened_now ⊆ visited ∧
  count_cells closed field' + length opened_now = count_cells closed field ∧
  ∀ k i, at_cell field k = Done i →
    ∃ i', at_cell field' k = Done i' ∧
      content i' = content i ∧ flaged i' = flaged i ∧
      (k ∉ visited → i' = i) ∧
      (k ∈ opened_now →
       opened i = false ∧ flaged i = false ∧ content i = EMPTY) ∧
      (k ∈ visited → opened i' = true ∧ surveyed field' k i').

(** The character [RenderField] shows for a cell whose number has one
    digit. *)
Definition symbol (c : CellInfo) : ascii :=
  if flaged c then "?"%char
  else if negb (opened c) then "-"%char
  else
    match content c with
    | MINE => "*"%char
    | EMPTY =>
        if (number_of_mines_in_near_cells c =? 0)%Z then "."%char
        else ascii_of_nat (48 + Z.to_nat (number_of_mines_in_near_cells c))
    end.

(** The object after the first statement of [OpenCell] and [MarkCell]: a
    game not started is started at the clock reading. *)
Definition begun (started : Z) (g : state) : state :=
  match game_status_ g with
  | NOT_STARTED => with_time started (with_status IN_PROGRESS g)
  | _ => g
  end.

(** What holds of the object between the calls of a game whose mines are
    counted right: the field is rectangular and [titles_] is its number of
    cells, [mines_] is its number of mines; unless the game is lost,
    [opened_cell_number_] is the number of open cells and every open cell
    is empty, carries no flag and stores the number of mines around it;
    and a game won has all its empty cells open. *)
Definition consistent (width height : nat) (g : state) : Prop :=
  rectangular width height (field_ g) ∧
  titles_ g = width * height ∧
  mines_ g = count_cells is_mine (field_ g) ∧
  (game_status_ g ≠ DEFEAT →
   opened_cell_number_ g = count_cells opened (field_ g) ∧
   ∀ k i, at_cell (field_ g) k = Done i → opened i = true →
     content i = EMPTY ∧ flaged i = false ∧
     ∃ n, number_of_mines_in_near_cells i = Z.of_nat n ∧
          mines_around (field_ g) k n) ∧
  (game_status_ g = VICTORY →
   ∀ k i, at_cell (field_ g) k = Done i → content i = EMPTY →
     opened i = true).

End Minesweeper.

(** * Properties *)

Lemma length_chars s : String.length s = length (chars s).
Proof. induction s; simpl; congruence. Qed.

Lemma get_chars s i : String.get i s = chars s !! i.
Proof. revert i; induction s as [|a s IH]; intros [|i]; simpl; auto. Qed.

Lemma substring_chars s n m :
  chars (String.substring n m s) = take m (drop n (chars s)).
Proof.
  revert n m; induction s as [|a s IH]; intros [|n] [|m]; simpl; auto.
  - by rewrite (IH 0 m), drop_0.
Qed.

Lemma chars_inj s t : chars s = chars t → s = t.
Proof.
  intros H. rewrite <- (String.string_of_list_ascii_of_string s), H.
  apply String.string_of_list_ascii_of_string.
Qed.

Lemma prefix_len_le p l : prefix_len p l ≤ length l.
Proof. induction l; simpl; [lia|]. destruct (p a); simpl; lia. Qed.

Lemma prefix_len_ext p q l : (∀ c, p c = q c) → prefix_len p l = prefix_len q l.
Proof. intros E. induction l; simpl; [done|]. rewrite E, IHl. done. Qed.

Lemma prefix_len_lookup p l c :
  l !! prefix_len p l = Some c → p c = false.
Proof.
  induction l as [|a l IH]; simpl; [done|].
  destruct (p a) eqn:E; simpl; [done|]. congruence.
Qed.

Lemma scan_spec fuel p s pos :
  String.length s - pos ≤ fuel →
  scan fuel p s pos = pos + prefix_len p (drop pos (chars s)).
Proof.
  revert pos; induction fuel as [|fuel IH]; intros pos Hf; simpl.
  - rewrite drop_ge by (rewrite <- length_chars; lia). simpl; lia.
  - rewrite get_chars. destruct (chars s !! pos) as [c|] eqn:E.
    + rewrite (drop_S _ _ _ E). simpl. destruct (p c); [|lia].
      rewrite IH by lia. lia.
    + apply lookup_ge_None in E. rewrite drop_ge by lia. simpl; lia.
Qed.

Lemma scan_while_spec p s pos :
  scan_while p s pos = pos + prefix_len p (drop pos (chars s)).
Proof. apply scan_spec. lia. Qed.

Lemma find_spec s c pos :
  find s c pos =
    if decide (prefix_len (λ a, negb (Ascii.eqb a c)) (drop pos (chars s))
               < length (drop pos (chars s)))
    then Some (pos + prefix_len (λ a, negb (Ascii.eqb a c)) (drop pos (chars s)))
    else None.
Proof.
  revert pos; induction s as [|a s IH]; intros pos.
  - destruct pos; done.
  - destruct pos as [|pos]; cbn [find chars drop prefix_len length].
    + destruct (Ascii.eqb a c) eqn:E; cbn [negb].
      * rewrite decide_True by lia. done.
      * rewrite IH. rewrite drop_0.
        repeat case_decide; try lia; done.
    + rewrite IH. repeat case_decide; try lia; done.
Qed.

Lemma fields_ne sep l : fields sep l ≠ [].
Proof. destruct l; simpl; [done|]. destruct (sep a); [done|]. by destruct (fields sep l). Qed.

Lemma fields_cons_nonsep sep c l :
  sep c = false →
  ∃ f fs, fields sep l = f :: fs ∧ fields sep (c :: l) = (c :: f) :: fs.
Proof.
  intros E. simpl. rewrite E. destruct (fields sep l) eqn:F.
  - by apply fields_ne in F.
  - eauto.
Qed.

(** The first field is the longest separator-free prefix. *)
Lemma fields_prefix sep q l :
  (∀ c, q c = negb (sep c)) →
  let n := prefix_len q l in
  fields sep l = take n l ::
    match drop n l with [] => [] | _ :: w => fields sep w end.
Proof.
  intros Hq. induction l as [|c l IH]; simpl; [done|].
  rewrite Hq. destruct (sep c) eqn:E; simpl; [done|].
  simpl in IH. rewrite IH. done.
Qed.

Lemma runs_nil sep : runs sep [] = [].
Proof. done. Qed.

Lemma runs_cons_sep sep c l : sep c = true → runs sep (c :: l) = runs sep l.
Proof. intros E. unfold runs. simpl. rewrite E. by rewrite filter_cons_False by naive_solver. Qed.

Lemma runs_skip sep l : runs sep l = runs sep (drop (prefix_len sep l) l).
Proof.
  induction l as [|c l IH]; simpl; [done|].
  destruct (sep c) eqn:E; simpl; [|done]. by rewrite runs_cons_sep.
Qed.

Lemma runs_prefix sep q l :
  (∀ c, q c = negb (sep c)) →
  let n := prefix_len q l in
  0 < n →
  runs sep l = take n l ::
    match drop n l with [] => [] | _ :: w => runs sep w end.
Proof.
  intros Hq n Hn. unfold runs at 1. rewrite (fields_prefix sep q l Hq). fold n.
  rewrite filter_cons_True.
  2:{ destruct l; simpl in *; [lia|]. subst n. simpl in *. destruct (q a); [done|lia]. }
  f_equal. destruct (drop n l); done.
Qed.

Lemma runs_all_sep sep l : prefix_len sep l = length l → runs sep l = [].
Proof. intros H. rewrite runs_skip, H, drop_all. done. Qed.

Lemma substr_from_chars s pos : chars (substr_from s pos) = drop pos (chars s).
Proof.
  unfold substr_from. rewrite substring_chars, length_chars.
  rewrite take_ge; [done|]. rewrite length_drop. lia.
Qed.

Lemma str_of_chars s : str_of (chars s) = s.
Proof. apply String.string_of_list_ascii_of_string. Qed.

Lemma chars_str_of l : chars (str_of l) = l.
Proof. apply String.list_ascii_of_string_of_list_ascii. Qed.

Lemma substr_from_eq s pos : substr_from s pos = str_of (drop pos (chars s)).
Proof. by rewrite <- substr_from_chars, str_of_chars. Qed.

Lemma substr_eq s pos n : substr s pos n = str_of (take n (drop pos (chars s))).
Proof. unfold substr. by rewrite <- substring_chars, str_of_chars. Qed.

Lemma words_loop_spec {C} (emit : C → string → C) fuel s start result :
  start ≤ String.length s → String.length s - start ≤ fuel →
  words_loop emit fuel s start result
  = fold_left emit (map str_of (runs not_alpha (drop start (chars s)))) result.
Proof.
  revert start result. induction fuel as [|fuel IH]; intros start result Hs Hf.
  - simpl. rewrite drop_ge by (rewrite <- length_chars; lia). done.
  - simpl. destruct (Nat.ltb_spec start (String.length s)) as [Hlt|Hge].
    2:{ rewrite drop_ge by (rewrite <- length_chars; lia). done. }
    rewrite !scan_while_spec.
    set (u := drop start (chars s)).
    set (a := prefix_len (λ c, negb (isalpha c)) u).
    assert (Hlen : length u = String.length s - start)
      by (unfold u; rewrite length_drop, length_chars; done).
    assert (Ha : a ≤ length u) by apply prefix_len_le.
    rewrite (runs_skip not_alpha u). change (prefix_len not_alpha u) with a.
    assert (Hv : drop a u = drop (start + a) (chars s))
      by (unfold u; rewrite drop_drop; done).
    rewrite Hv.
    destruct (Nat.eqb_spec (start + a) (String.length s)) as [He|Hne].
    { rewrite drop_ge by (rewrite <- length_chars; lia). done. }
    assert (Hvl : length (drop (start + a) (chars s)) = String.length s - (start + a))
      by (rewrite length_drop, length_chars; done).
    destruct (drop (start + a) (chars s)) as [|c v'] eqn:Ev; [simpl in Hvl; lia|].
    assert (Hc : isalpha c = true).
    { assert (u !! a = Some c).
      { rewrite <- (Nat.add_0_r a), <- lookup_drop, Hv. done. }
      apply prefix_len_lookup in H. by destruct (isalpha c). }
    assert (Hd : drop (start + a + 1) (chars s) = v').
    { rewrite <- drop_drop, Ev. done. }
    rewrite Hd.
    set (b := prefix_len isalpha v').
    assert (Hb : b ≤ length v') by apply prefix_len_le.
    simpl in Hvl.
    pose proof (runs_prefix not_alpha isalpha (c :: v')) as RP.
    simpl in RP. rewrite Hc in RP. fold b in RP.
    rewrite RP; [|intros x; unfold not_alpha; by destruct (isalpha x)|lia].
    clear RP.
    destruct (Nat.eqb_spec (start + a + 1 + b) (String.length s)) as [He|Hne2].
    + assert (b = length v') by lia.
      cbn [take drop]. rewrite H, drop_all, take_ge by lia. simpl.
      rewrite substr_from_eq, Ev. done.
    + rewrite IH by lia.
      rewrite substr_eq, Ev.
      replace (start + a + 1 + b - (start + a)) with (S b) by lia.
      cbn [take drop map fold_left].
      assert (Hd2 : drop (start + a + 1 + b + 1) (chars s) = drop (S b) v').
      { rewrite <- Hd, drop_drop. f_equal. lia. }
      rewrite Hd2.
      destruct (drop b v') as [|x w] eqn:Ew.
      { apply (f_equal length) in Ew. rewrite length_drop in Ew. simpl in Ew. lia. }
      replace (drop (S b) v') with w; [done|].
      replace (S b) with (b + 1) by lia. rewrite <- drop_drop, Ew. done.
Qed.

Lemma fold_left_snoc {A} (l acc : list A) :
  fold_left (λ result w, result ++ [w]) l acc = acc ++ l.
Proof.
  revert acc; induction l as [|x l IH]; intros acc; simpl; [by rewrite app_nil_r|].
  rewrite IH. by rewrite <- app_assoc.
Qed.

Lemma GetWords_tokens s : GetWordsFromStringView s = tokens s.
Proof.
  unfold GetWordsFromStringView, tokens.
  rewrite words_loop_spec by lia. rewrite drop_0. apply fold_left_snoc.
Qed.

Lemma GetUniqueWords_tokens s :
  GetUniqueWordsFromStringView s = fold_left set_insert (GetWordsFromStringView s) [].
Proof.
  rewrite GetWords_tokens. unfold GetUniqueWordsFromStringView, tokens.
  rewrite words_loop_spec by lia. by rewrite drop_0.
Qed.

Lemma lines_loop_spec fuel s start result :
  start < String.length s → String.length s - start ≤ fuel →
  lines_loop fuel s start result
  = result ++ map str_of (runs is_newline (drop start (chars s))).
Proof.
  revert start result. induction fuel as [|fuel IH]; intros start result Hs Hf; [lia|].
  cbn [lines_loop]. rewrite find_spec.
  set (u := drop start (chars s)).
  set (n := prefix_len (λ a, negb (Ascii.eqb a newline)) u).
  assert (Hlen : length u = String.length s - start)
    by (unfold u; rewrite length_drop, length_chars; done).
  assert (Hn : n ≤ length u) by apply prefix_len_le.
  assert (Hq : ∀ c, negb (Ascii.eqb c newline) = negb (is_newline c)) by done.
  destruct (decide (n < length u)) as [Hin|Hout].
  - destruct (drop n u) as [|x w] eqn:Ew.
    { apply (f_equal length) in Ew. rewrite length_drop in Ew. simpl in Ew. lia. }
    assert (Hw : drop (start + n + 1) (chars s) = w).
    { rewrite <- drop_drop. unfold u in Ew. rewrite drop_drop in Ew. by rewrite Ew. }
    assert (Hwl : length w = String.length s - (start + n + 1)).
    { rewrite <- Hw, length_drop, length_chars. done. }
    destruct (decide (Some (start + n) = Some start)) as [E|E].
    + assert (n = 0) by (injection E; lia).
      assert (Hx : is_newline x = true).
      { assert (u !! n = Some x).
        { rewrite <- (Nat.add_0_r n), <- lookup_drop, Ew. done. }
        apply prefix_len_lookup in H0. unfold is_newline. by destruct (Ascii.eqb x newline). }
      rewrite H in *. rewrite drop_0 in Ew. rewrite Ew, runs_cons_sep by done.
      replace (start + 0 + 1) with (S start) in * by lia.
      destruct (Nat.ltb_spec (S start) (String.length s)).
      * rewrite IH by lia. by rewrite Hw.
      * destruct w; [|simpl in Hwl; lia]. by rewrite app_nil_r.
    + assert (0 < n) by (destruct n; [by rewrite Nat.add_0_r in E|lia]).
      rewrite (runs_prefix is_newline _ u Hq) by done. fold n. rewrite Ew.
      rewrite substr_eq. fold u.
      replace (start + n - start) with n by lia.
      destruct (Nat.ltb_spec (start + n + 1) (String.length s)).
      * rewrite IH by lia. rewrite Hw, <- app_assoc. done.
      * destruct w; [|simpl in Hwl; lia]. done.
  - rewrite decide_False by done.
    assert (n = length u) by lia.
    rewrite (runs_prefix is_newline _ u Hq) by (fold n; lia). fold n.
    rewrite H, drop_all, take_ge by lia.
    by rewrite substr_from_eq.
Qed.

Lemma GetLinesFromText_spec text :
  text ≠ EmptyString → GetLinesFromText text = text_lines text.
Proof.
  intros H. unfold GetLinesFromText. rewrite lines_loop_spec.
  - by rewrite drop_0.
  - destruct text; [done|simpl; lia].
  - lia.
Qed.

Lemma fields_app_sep sep x s y :
  sep s = true → fields sep (x ++ s :: y) = fields sep x ++ fields sep y.
Proof.
  intros Hs. induction x as [|c x IH]; simpl.
  - by rewrite Hs.
  - rewrite IH. destruct (sep c); [done|].
    destruct (fields sep x) eqn:F; [by apply fields_ne in F|done].
Qed.

Lemma runs_app_sep sep x s y :
  sep s = true → runs sep (x ++ s :: y) = runs sep x ++ runs sep y.
Proof. intros Hs. unfold runs. by rewrite fields_app_sep, filter_app. Qed.

Lemma runs_elem_ne sep l f : f ∈ runs sep l → f ≠ [].
Proof. unfold runs. rewrite list_elem_of_filter. tauto. Qed.

(** Splitting at separators of a coarser class first changes nothing. *)
Lemma runs_refine (sepA sepN : ascii → bool) l :
  (∀ c, sepN c = true → sepA c = true) →
  runs sepA l = concat (map (runs sepA) (runs sepN l)).
Proof.
  intros Hsub.
  assert (Hf : ∀ fs, concat (map (runs sepA) (filter (λ f, f ≠ []) fs))
                     = concat (map (runs sepA) fs)).
  { induction fs as [|f fs IH]; [done|]. destruct f.
    - rewrite filter_cons_False by naive_solver. done.
    - rewrite filter_cons_True by done. simpl. by rewrite IH. }
  unfold runs at 3. rewrite Hf. clear Hf.
  remember (length l) as n eqn:Hn.
  revert l Hn. induction n as [n IH] using lt_wf_ind. intros l Hn.
  rewrite (fields_prefix sepN (λ c, negb (sepN c)) l) by done.
  set (k := prefix_len (λ c, negb (sepN c)) l).
  destruct (drop k l) as [|s w] eqn:Ew.
  - simpl. rewrite app_nil_r.
    assert (length l ≤ k).
    { apply (f_equal length) in Ew. rewrite length_drop in Ew. simpl in Ew. lia. }
    by rewrite take_ge.
  - assert (Hs : sepN s = true).
    { assert (l !! k = Some s).
      { rewrite <- (Nat.add_0_r k), <- lookup_drop, Ew. done. }
      apply prefix_len_lookup in H. by destruct (sepN s). }
    rewrite <- (take_drop k l) at 1. rewrite Ew.
    rewrite runs_app_sep by auto. simpl. f_equal.
    apply (IH (length w)); [|done].
    apply (f_equal length) in Ew. rewrite length_drop in Ew. simpl in Ew. lia.
Qed.

Lemma tokens_str_of f : tokens (str_of f) = map str_of (runs not_alpha f).
Proof. unfold tokens. by rewrite chars_str_of. Qed.

Lemma newline_not_alpha c : is_newline c = true → not_alpha c = true.
Proof.
  unfold is_newline. intros H. apply Ascii.eqb_eq in H. by subst c.
Qed.

Lemma tokens_lines text :
  tokens text = concat (map tokens (text_lines text)).
Proof.
  unfold text_lines, tokens at 1.
  rewrite (runs_refine not_alpha is_newline) by apply newline_not_alpha.
  induction (runs is_newline (chars text)) as [|f fs IH]; [done|].
  simpl. rewrite map_app, IH, tokens_str_of. done.
Qed.

(** The words of a text are the words of its lines, in order. *)
Lemma GetWords_lines text :
  GetWordsFromStringView text
  = concat (map GetWordsFromStringView (GetLinesFromText text)).
Proof.
  destruct (decide (text = EmptyString)) as [->|Hne]; [done|].
  rewrite GetLinesFromText_spec by done.
  rewrite GetWords_tokens, tokens_lines. f_equal.
  apply map_ext. intros. by rewrite GetWords_tokens.
Qed.

Lemma text_lines_nonempty text line :
  line ∈ text_lines text → 1 ≤ String.length line.
Proof.
  unfold text_lines. rewrite list_elem_of_fmap. intros (f & -> & Hf).
  apply runs_elem_ne in Hf. destruct f; [done|]. simpl. lia.
Qed.

Lemma Comp_key x y : Comp x y = lex_lt (key x) (key y).
Proof.
  revert y; induction x as [|a x IH]; intros [|b y]; simpl; try done.
  by rewrite IH.
Qed.

Lemma lex_irrefl a : lex_lt a a = false.
Proof. induction a; simpl; [done|]. by rewrite Nat.ltb_irrefl. Qed.

Lemma lex_trans a b c : lex_lt a b = true → lex_lt b c = true → lex_lt a c = true.
Proof.
  revert b c; induction a as [|x a IH]; intros [|y b] [|z c]; simpl; try done.
  destruct (Nat.ltb_spec x y), (Nat.ltb_spec y x), (Nat.ltb_spec y z),
    (Nat.ltb_spec z y), (Nat.ltb_spec x z), (Nat.ltb_spec z x);
    try done; try lia. apply IH.
Qed.

Lemma lex_total a b : lex_lt a b = false → lex_lt b a = false → a = b.
Proof.
  revert b; induction a as [|x a IH]; intros [|y b]; simpl; try done.
  destruct (Nat.ltb_spec x y), (Nat.ltb_spec y x); try done; try lia.
  intros. f_equal; [lia|]. by apply IH.
Qed.

Lemma equiv_key_spec x y : equiv_key x y = true ↔ key x = key y.
Proof.
  unfold equiv_key. rewrite !Comp_key. split.
  - intros H. apply andb_prop in H as [H1 H2].
    apply lex_total; [by destruct (lex_lt (key x) (key y))|by destruct (lex_lt (key y) (key x))].
  - intros ->. by rewrite lex_irrefl.
Qed.

Lemma Comp_irrefl x : Comp x x = false.
Proof. rewrite Comp_key. apply lex_irrefl. Qed.

Lemma Comp_trans x y z : Comp x y = true → Comp y z = true → Comp x z = true.
Proof. rewrite !Comp_key. apply lex_trans. Qed.

Lemma Comp_asym x y : Comp x y = true → Comp y x = false.
Proof.
  intros H. destruct (Comp y x) eqn:E; [|done].
  pose proof (Comp_trans _ _ _ H E) as F. by rewrite Comp_irrefl in F.
Qed.

Lemma Comp_same_key_l x y z : key x = key y → Comp x z = Comp y z.
Proof. intros H. by rewrite !Comp_key, H. Qed.

Lemma Comp_same_key_r x y z : key x = key y → Comp z x = Comp z y.
Proof. intros H. by rewrite !Comp_key, H. Qed.

Lemma Comp_total x y : Comp x y = false → Comp y x = false → key x = key y.
Proof. rewrite !Comp_key. apply lex_total. Qed.

Lemma set_insert_elem s x y : y ∈ set_insert s x → y ∈ s ∨ y = x.
Proof.
  induction s as [|z s IH]; simpl.
  - set_solver.
  - destruct (Comp x z); [set_solver|]. destruct (Comp z x); set_solver.
Qed.

Lemma set_insert_mono s x y : y ∈ s → y ∈ set_insert s x.
Proof.
  induction s as [|z s IH]; simpl; [set_solver|].
  destruct (Comp x z); [set_solver|]. destruct (Comp z x); set_solver.
Qed.

Lemma set_insert_has s x : ∃ y, y ∈ set_insert s x ∧ key y = key x.
Proof.
  induction s as [|z s IH]; simpl.
  - exists x. set_solver.
  - destruct (Comp x z) eqn:E1; [exists x; set_solver|].
    destruct (Comp z x) eqn:E2.
    + destruct IH as (y & ? & ?). exists y. set_solver.
    + exists z. split; [set_solver|]. by apply Comp_total.
Qed.

Lemma set_insert_ok s x : set_ok s → set_ok (set_insert s x).
Proof.
  unfold set_ok. induction 1 as [|z s Hs IH Hz]; simpl.
  - repeat constructor.
  - destruct (Comp x z) eqn:E1.
    + constructor; [by constructor|]. constructor; [done|].
      eapply Forall_impl; [exact Hz|]. intros. by eapply Comp_trans.
    + destruct (Comp z x) eqn:E2; [|by constructor].
      constructor; [done|]. apply Forall_forall. intros y Hy.
      apply set_insert_elem in Hy as [Hy| ->]; [|done].
      rewrite Forall_forall in Hz. by apply Hz.
Qed.

Lemma set_ok_key_inj s a b : set_ok s → a ∈ s → b ∈ s → key a = key b → a = b.
Proof.
  unfold set_ok. induction 1 as [|z s Hs IH Hz]; [set_solver|].
  rewrite Forall_forall in Hz.
  intros Ha Hb Hk. apply elem_of_cons in Ha, Hb.
  destruct Ha as [->|Ha], Hb as [->|Hb]; auto.
  - specialize (Hz _ Hb). rewrite (Comp_same_key_r _ _ _ (eq_sym Hk)), Comp_irrefl in Hz. done.
  - specialize (Hz _ Ha). rewrite (Comp_same_key_r _ _ _ Hk), Comp_irrefl in Hz. done.
Qed.

Lemma set_ok_NoDup s : set_ok s → NoDup s.
Proof.
  unfold set_ok. induction 1 as [|z s Hs IH Hz]; constructor; [|done].
  rewrite Forall_forall in Hz. intros Hin. specialize (Hz _ Hin).
  by rewrite Comp_irrefl in Hz.
Qed.

Lemma set_find_spec s x y :
  set_ok s → set_find s x = Some y ↔ y ∈ s ∧ key y = key x.
Proof.
  unfold set_ok. induction 1 as [|z s Hs IH Hz]; simpl; [set_solver|].
  rewrite Forall_forall in Hz.
  destruct (Comp x z) eqn:E1.
  - split; [done|]. intros [Hy Hk]. apply elem_of_cons in Hy as [->|Hy].
    + by rewrite (Comp_same_key_l _ _ _ (eq_sym Hk)), Comp_irrefl in E1.
    + specialize (Hz _ Hy).
      pose proof (Comp_trans _ _ _ E1 Hz) as F.
      by rewrite (Comp_same_key_l _ _ _ (eq_sym Hk)), Comp_irrefl in F.
  - destruct (Comp z x) eqn:E2.
    + rewrite IH. split; [set_solver|]. intros [Hy Hk].
      apply elem_of_cons in Hy as [->|Hy]; [|done].
      by rewrite (Comp_same_key_r _ _ _ (eq_sym Hk)), Comp_irrefl in E2.
    + pose proof (Comp_total _ _ E1 E2) as Hk. split.
      * intros [= <-]. split; [set_solver|done].
      * intros [Hy Hk']. apply elem_of_cons in Hy as [->|Hy]; [done|].
        specialize (Hz _ Hy).
        rewrite (Comp_same_key_r _ _ _ Hk'), (Comp_same_key_r _ _ _ Hk), Comp_irrefl in Hz.
        done.
Qed.

Lemma set_find_None s x :
  set_ok s → set_find s x = None ↔ ∀ y, y ∈ s → key y ≠ key x.
Proof.
  intros Hs. split.
  - intros H y Hy Hk. assert (set_find s x = Some y) by (by apply set_find_spec).
    congruence.
  - intros H. destruct (set_find s x) as [y|] eqn:E; [|done].
    apply set_find_spec in E as [? ?]; [|done]. naive_solver.
Qed.

(** The set built from a list of words. *)
Lemma fold_insert_ok ws s : set_ok s → set_ok (fold_left set_insert ws s).
Proof. revert s; induction ws; simpl; auto using set_insert_ok. Qed.

Lemma fold_insert_mono ws s y : y ∈ s → y ∈ fold_left set_insert ws s.
Proof. revert s; induction ws; simpl; auto using set_insert_mono. Qed.

Lemma fold_insert_elem ws s y :
  y ∈ fold_left set_insert ws s → y ∈ s ∨ y ∈ ws.
Proof.
  revert s; induction ws as [|w ws IH]; simpl; intros s H; [auto|].
  apply IH in H as [H|H]; [|set_solver].
  apply set_insert_elem in H. set_solver.
Qed.

Lemma fold_insert_has ws s w :
  w ∈ ws → ∃ y, y ∈ fold_left set_insert ws s ∧ key y = key w.
Proof.
  revert s; induction ws as [|v ws IH]; simpl; intros s H; [set_solver|].
  apply elem_of_cons in H as [->|H]; [|by apply IH].
  destruct (set_insert_has s v) as (y & Hy & Hk).
  exists y. split; [by apply fold_insert_mono|done].
Qed.

Lemma set_ok_nil : set_ok [].
Proof. constructor. Qed.

Lemma GetUniqueWords_ok str : set_ok (GetUniqueWordsFromStringView str).
Proof. rewrite GetUniqueWords_tokens. apply fold_insert_ok, set_ok_nil. Qed.

Lemma GetUniqueWords_find str w :
  w ∈ GetWordsFromStringView str →
  ∃ y, set_find (GetUniqueWordsFromStringView str) w = Some y.
Proof.
  intros H. rewrite GetUniqueWords_tokens.
  destruct (fold_insert_has _ [] _ H) as (y & Hy & Hk).
  exists y. apply set_find_spec; [apply fold_insert_ok, set_ok_nil|done].
Qed.

Lemma GetUniqueWords_elem str y :
  y ∈ GetUniqueWordsFromStringView str → y ∈ GetWordsFromStringView str.
Proof.
  rewrite GetUniqueWords_tokens. intros H.
  apply fold_insert_elem in H. set_solver.
Qed.

Lemma at_key_insert {V} (d : V) (m : gmap string V) k v k' :
  at_key d (<[k := v]> m) k' = if decide (k = k') then v else at_key d m k'.
Proof. unfold at_key. rewrite lookup_insert. by case_decide. Qed.

Lemma at_key_empty {V} (d : V) k : at_key d (∅ : gmap string V) k = d.
Proof. done. Qed.

Lemma occurrences_cons kws k w ws :
  occurrences kws k (w :: ws)
  = (if decide (set_find kws w = Some k) then 1 else 0) + occurrences kws k ws.
Proof.
  unfold occurrences. case_decide.
  - by rewrite filter_cons_True.
  - by rewrite filter_cons_False.
Qed.

Lemma count_loop_spec kws ws m k :
  at_key 0%R (fold_left (count_word kws) ws m) k
  = (at_key 0 m k + INR (occurrences kws k ws))%R.
Proof.
  revert m; induction ws as [|w ws IH]; intros m.
  - simpl. unfold occurrences. simpl. lra.
  - cbn [fold_left]. rewrite IH, occurrences_cons. unfold count_word.
    destruct (set_find kws w) as [it|] eqn:E.
    + rewrite at_key_insert. case_decide as Hk.
      * subst it. rewrite decide_True by done. rewrite plus_INR. simpl. lra.
      * rewrite decide_False by congruence. simpl. lra.
    + rewrite decide_False by done. simpl. lra.
Qed.

Lemma divide_word_ok n m x :
  n ≠ 0 → divide_word n m x = Ok (<[x := (at_key 0 m x / INR n)%R]> m).
Proof. intros H. unfold divide_word. by destruct (Nat.eqb_spec n 0). Qed.

Lemma divide_loop_spec n kws m :
  n ≠ 0 → NoDup kws →
  ∃ m', foldM (divide_word n) kws m = Ok m' ∧
    ∀ k, at_key 0%R m' k
         = if decide (k ∈ kws) then (at_key 0 m k / INR n)%R else at_key 0%R m k.
Proof.
  intros Hn Hnd. revert m. induction Hnd as [|x kws Hx Hnd IH]; intros m.
  - exists m. split; [done|]. intros k. rewrite decide_False; [done|]. set_solver.
  - cbn [foldM]. rewrite divide_word_ok by done.
    destruct (IH (<[x:=(at_key 0 m x / INR n)%R]> m)) as (m' & Hm' & Hk).
    exists m'. split; [exact Hm'|]. intros k. rewrite Hk, at_key_insert.
    destruct (decide (x = k)) as [->|Hne].
    + rewrite decide_False by done. rewrite decide_True by set_solver. done.
    + destruct (decide (k ∈ kws)).
      * rewrite decide_True by set_solver. done.
      * rewrite decide_False by set_solver. done.
Qed.

Lemma occurrences_not_elem kws k ws :
  set_ok kws → k ∉ kws → occurrences kws k ws = 0.
Proof.
  intros Hs Hk. unfold occurrences.
  induction ws as [|w ws IH]; [done|].
  rewrite filter_cons_False; [done|].
  intros E. apply set_find_spec in E; [|done]. tauto.
Qed.

Lemma GetTF_spec ws kws :
  ws ≠ [] → set_ok kws →
  ∃ tf, GetTFOfWordsInLine ws kws = Ok tf ∧ ∀ k, at_key 0%R tf k = TF kws ws k.
Proof.
  intros Hws Hs. unfold GetTFOfWordsInLine.
  destruct (divide_loop_spec (length ws) kws (fold_left (count_word kws) ws ∅))
    as (tf & Htf & Hk); [by destruct ws|by apply set_ok_NoDup|].
  exists tf. split; [done|]. intros k. rewrite Hk, count_loop_spec, at_key_empty.
  unfold TF. case_decide.
  - f_equal. lra.
  - rewrite occurrences_not_elem by done. simpl. lra.
Qed.

Lemma GetTF_empty_line k kws :
  GetTFOfWordsInLine [] (k :: kws) = Fault DivisionByZero.
Proof. done. Qed.

Lemma GetTF_no_keywords ws : GetTFOfWordsInLine ws [] = Ok ∅.
Proof.
  unfold GetTFOfWordsInLine. simpl. f_equal.
  induction ws as [|w ws IH]; [done|]. simpl. done.
Qed.

Lemma collect_loop_spec l a wil ign :
  let st := fold_left collect_line (zip (seq a (length l)) l) (wil, ign) in
  st.1 = wil ++ map GetWordsFromStringView l ∧
  ∀ i, i ∈ st.2 ↔
       i ∈ ign ∨ ∃ line, l !! (i - a) = Some line ∧ a ≤ i ∧
                         GetWordsFromStringView line = [].
Proof.
  revert a wil ign. induction l as [|x l IH]; intros a wil ign; cbn zeta.
  - simpl. split; [by rewrite app_nil_r|]. intros i. naive_solver.
  - cbn [length seq zip zip_with fold_left collect_line fst snd].
    destruct (IH (S a) (wil ++ [GetWordsFromStringView x])
      (if bool_decide (GetWordsFromStringView x = []) then {[a]} ∪ ign else ign))
      as [H1 H2].
    cbn zeta in H1, H2. split.
    + rewrite H1, <- app_assoc. done.
    + intros i. rewrite H2. clear H1 H2 IH. split.
      * intros [H|(line & Hl & Hle & Hw)].
        -- case_bool_decide as Hx; [|by left].
           apply elem_of_union in H as [H|H]; [|by left].
           apply elem_of_singleton in H as ->. right. exists x.
           rewrite Nat.sub_diag. done.
        -- right. exists line. replace (i - a) with (S (i - S a)) by lia.
           split; [done|]. split; [lia|done].
      * intros [H|(line & Hl & Hle & Hw)].
        -- left. case_bool_decide; set_solver.
        -- destruct (decide (i = a)) as [->|Hne].
           ++ rewrite Nat.sub_diag in Hl. injection Hl as ->.
              left. rewrite bool_decide_eq_true_2 by done. set_solver.
           ++ right. exists line. replace (i - a) with (S (i - S a)) in Hl by lia.
              split; [done|]. split; [lia|done].
Qed.

Lemma collect_lines_fst lines :
  (collect_lines lines).1 = map GetWordsFromStringView lines.
Proof. apply (collect_loop_spec lines 0 [] ∅). Qed.

Lemma collect_lines_snd lines i :
  i ∈ (collect_lines lines).2 ↔
  ∃ line, lines !! i = Some line ∧ GetWordsFromStringView line = [].
Proof.
  destruct (collect_loop_spec lines 0 [] ∅) as [_ H]. cbn zeta in H.
  unfold collect_lines, indexed. rewrite H, Nat.sub_0_r. split.
  - intros [?|(line & ? & ? & ?)]; [set_solver|eauto].
  - intros (line & ? & ?). right. exists line. split; [done|]. split; [lia|done].
Qed.

Lemma collect_lines_ignored lines i :
  i ∈ (collect_lines lines).2 ↔ map GetWordsFromStringView lines !! i = Some [].
Proof.
  rewrite collect_lines_snd, list_lookup_fmap. split.
  - intros (line & -> & Hw). simpl. by rewrite Hw.
  - destruct (lines !! i) as [line|]; [|done]. simpl. intros [= H]. eauto.
Qed.

Lemma tf_word_loop temp voc st :
  NoDup voc →
  let st' := fold_left (tf_word temp) voc st in
  (∀ k, k ∈ voc →
     at_key [] st'.1 k = at_key [] st.1 k ++ [at_key 0%R temp k] ∧
     at_key 0%R st'.2 k
     = (at_key 0 st.2 k + if decide (at_key 0%R temp k = 0%R) then 0 else 1)%R) ∧
  (∀ k, k ∉ voc → st'.1 !! k = st.1 !! k ∧ st'.2 !! k = st.2 !! k).
Proof.
  intros Hnd. revert st. induction Hnd as [|x voc Hx Hnd IH]; intros st; cbn zeta.
  - split; [set_solver|done].
  - cbn [fold_left]. destruct (IH (tf_word temp st x)) as [IH1 IH2].
    cbn zeta in IH1, IH2. clear IH.
    assert (Hst : ∀ k, k ≠ x →
              (tf_word temp st x).1 !! k = st.1 !! k ∧
              (tf_word temp st x).2 !! k = st.2 !! k).
    { intros k Hk. destruct st as [tf idf]. simpl. split.
      - by rewrite lookup_insert_ne.
      - case_decide; [done|]. by rewrite lookup_insert_ne. }
    split.
    + intros k Hk. apply elem_of_cons in Hk as [->|Hk].
      * destruct (IH2 x Hx) as [E1 E2].
        assert (A1 : at_key [] (fold_left (tf_word temp) voc (tf_word temp st x)).1 x
                     = at_key [] (tf_word temp st x).1 x)
          by (unfold at_key; by rewrite E1).
        assert (A2 : at_key 0%R (fold_left (tf_word temp) voc (tf_word temp st x)).2 x
                     = at_key 0%R (tf_word temp st x).2 x)
          by (unfold at_key; by rewrite E2).
        rewrite A1, A2. destruct st as [tf idf]. cbn [tf_word fst snd].
        rewrite at_key_insert, decide_True by done. split; [done|].
        case_decide; [lra|]. by rewrite at_key_insert, decide_True by done.
      * destruct (IH1 k Hk) as [E1 E2]. rewrite E1, E2.
        assert (k ≠ x) by (intros ->; done).
        destruct (Hst k) as [F1 F2]; [done|]. unfold at_key. by rewrite F1, F2.
    + intros k Hk. apply not_elem_of_cons in Hk as [Hne Hk].
      destruct (IH2 k Hk) as [E1 E2]. destruct (Hst k Hne) as [F1 F2].
      by rewrite E1, E2, F1, F2.
Qed.

Lemma scored_words_cons ws wil :
  scored_words (ws :: wil)
  = if decide (ws = []) then scored_words wil else ws :: scored_words wil.
Proof.
  unfold scored_words. case_decide.
  - by rewrite filter_cons_False by naive_solver.
  - by rewrite filter_cons_True.
Qed.

Lemma DF_cons voc ws wil k :
  DF voc (ws :: wil) k
  = (if decide (TF voc ws k = 0%R) then 0 else 1) + DF voc wil k.
Proof.
  unfold DF. case_decide.
  - by rewrite filter_cons_False by naive_solver.
  - by rewrite filter_cons_True.
Qed.

Lemma tf_line_ignored voc ign st i ws :
  i ∈ ign → tf_line voc ign st (i, ws) = Ok st.
Proof. intros H. unfold tf_line. by rewrite decide_True. Qed.

Lemma tf_line_scored voc ign st i ws temp :
  i ∉ ign → GetTFOfWordsInLine ws voc = Ok temp →
  tf_line voc ign st (i, ws) = Ok (fold_left (tf_word temp) voc st).
Proof. intros H E. unfold tf_line. rewrite decide_False by done. simpl. by rewrite E. Qed.

Lemma tf_loop_spec voc ign (l : list (nat * list string)) st :
  set_ok voc →
  (∀ iw, iw ∈ l → iw.1 ∈ ign ↔ iw.2 = []) →
  ∃ st', foldM (tf_line voc ign) l st = Ok st' ∧
    (∀ k, k ∈ voc →
       at_key [] st'.1 k
       = at_key [] st.1 k ++ map (λ ws, TF voc ws k) (scored_words l.*2) ∧
       at_key 0%R st'.2 k
       = (at_key 0 st.2 k + INR (DF voc (scored_words l.*2) k))%R) ∧
    (∀ k, k ∉ voc → st'.1 !! k = st.1 !! k ∧ st'.2 !! k = st.2 !! k).
Proof.
  intros Hvoc. revert st. induction l as [|[i ws] l IH]; intros st Hign.
  - exists st. split; [done|]. split; [|done]. intros k Hk.
    simpl. rewrite app_nil_r. split; [done|]. unfold DF; simpl. lra.
  - cbn [foldM].
    assert (Hi : i ∈ ign ↔ ws = []) by (apply (Hign (i, ws)); set_solver).
    assert (Hign' : ∀ iw, iw ∈ l → iw.1 ∈ ign ↔ iw.2 = [])
      by (intros; apply Hign; set_solver).
    cbn [fmap list_fmap]. cbn [snd]. rewrite scored_words_cons.
    destruct (decide (i ∈ ign)) as [Hin|Hout].
    + rewrite decide_True by (by apply Hi).
      rewrite tf_line_ignored by done. apply (IH st Hign').
    + rewrite decide_False by (by rewrite <- Hi).
      destruct (GetTF_spec ws voc) as (temp & Etemp & Htemp);
        [by rewrite <- Hi|done|].
      rewrite (tf_line_scored _ _ _ _ _ temp) by done.
      destruct (tf_word_loop temp voc st (set_ok_NoDup _ Hvoc)) as [W1 W2].
      cbn zeta in W1, W2.
      destruct (IH (fold_left (tf_word temp) voc st) Hign') as (st' & Hst' & S1 & S2).
      exists st'. split; [exact Hst'|]. split.
      * intros k Hk. destruct (S1 k Hk) as [E1 E2]. destruct (W1 k Hk) as [F1 F2].
        rewrite E1, E2, F1, F2, Htemp, <- app_assoc. split; [done|].
        rewrite DF_cons, plus_INR. destruct (decide (TF voc ws k = 0%R)); simpl; lra.
      * intros k Hk. destruct (S2 k Hk) as [E1 E2]. destruct (W2 k Hk) as [F1 F2].
        by rewrite E1, E2, F1, F2.
Qed.

Lemma idf_loop_spec size voc idf :
  NoDup voc →
  let idf' := fold_left (idf_word size) voc idf in
  (∀ k, k ∈ voc →
     at_key 0%R idf' k
     = if decide (at_key 0%R idf k = 0%R) then 0%R
       else ln (INR size / at_key 0%R idf k)) ∧
  (∀ k, k ∉ voc → idf' !! k = idf !! k).
Proof.
  intros Hnd. revert idf. induction Hnd as [|x voc Hx Hnd IH]; intros idf; cbn zeta.
  - split; [set_solver|done].
  - cbn [fold_left]. destruct (IH (idf_word size idf x)) as [IH1 IH2].
    cbn zeta in IH1, IH2. clear IH.
    assert (Hst : ∀ k, k ≠ x → idf_word size idf x !! k = idf !! k).
    { intros k Hk. unfold idf_word. case_decide; [done|]. by rewrite lookup_insert_ne. }
    split.
    + intros k Hk. apply elem_of_cons in Hk as [->|Hk].
      * unfold at_key at 1. rewrite (IH2 x Hx). unfold idf_word.
        case_decide as Hd; [exact Hd|].
        by rewrite lookup_insert_eq.
      * rewrite (IH1 k Hk). assert (k ≠ x) by (intros ->; done).
        unfold at_key. by rewrite (Hst k).
    + intros k Hk. apply not_elem_of_cons in Hk as [Hne Hk].
      by rewrite (IH2 k Hk), (Hst k Hne).
Qed.

Lemma foldM_cons {A B} (body : B → A → outcome B) x xs acc :
  foldM body (x :: xs) acc = body acc x ≫= λ acc', foldM body xs acc'.
Proof. done. Qed.

Lemma relevance_word_ok tf idf i rel k t :
  at_key [] tf k !! i = Some t →
  relevance_word tf idf i rel k
  = Ok (<[k := at_key [] rel k ++ [(t * at_key 0 idf k)%R]]> rel).
Proof. intros H. unfold relevance_word. by rewrite H. Qed.

Lemma relevance_word_fault tf idf i rel k :
  at_key [] tf k !! i = None → relevance_word tf idf i rel k = Fault OutOfRange.
Proof. intros H. unfold relevance_word. by rewrite H. Qed.

Lemma relevance_word_loop tf idf i voc rel :
  NoDup voc → (∀ k, k ∈ voc → is_Some (at_key [] tf k !! i)) →
  ∃ rel', foldM (relevance_word tf idf i) voc rel = Ok rel' ∧
    (∀ k, k ∈ voc →
       at_key [] rel' k
       = at_key [] rel k
         ++ [(default 0 (at_key [] tf k !! i) * at_key 0 idf k)%R]) ∧
    (∀ k, k ∉ voc → rel' !! k = rel !! k).
Proof.
  intros Hnd. revert rel. induction Hnd as [|x voc Hx Hnd IH]; intros rel Hin.
  - exists rel. split; [done|]. split; [set_solver|done].
  - rewrite foldM_cons. destruct (Hin x) as [t Ht]; [set_solver|].
    rewrite (relevance_word_ok _ _ _ _ _ t) by done. cbn [mbind outcome_bind].
    destruct (IH (<[x := at_key [] rel x ++ [(t * at_key 0 idf x)%R]]> rel))
      as (rel' & Hrel' & H1 & H2); [intros; apply Hin; set_solver|].
    exists rel'. split; [exact Hrel'|]. split.
    + intros k Hk. apply elem_of_cons in Hk as [->|Hk].
      * unfold at_key at 1. rewrite (H2 x Hx), lookup_insert_eq. simpl.
        by rewrite Ht.
      * rewrite (H1 k Hk), at_key_insert, decide_False; [done|]. by intros ->.
    + intros k Hk. apply not_elem_of_cons in Hk as [Hne Hk].
      by rewrite (H2 k Hk), lookup_insert_ne.
Qed.

Lemma relevance_line_ignored voc ign tf idf rel i :
  i ∈ ign → relevance_line voc ign tf idf rel i = Ok rel.
Proof. intros H. unfold relevance_line. by rewrite decide_True. Qed.

Lemma relevance_line_scored voc ign tf idf rel i :
  i ∉ ign →
  relevance_line voc ign tf idf rel i = foldM (relevance_word tf idf i) voc rel.
Proof. intros H. unfold relevance_line. by rewrite decide_False. Qed.

Lemma relevance_line_loop voc ign tf idf (positions : list nat) rel :
  NoDup voc →
  (∀ i k, i ∈ positions → i ∉ ign → k ∈ voc → is_Some (at_key [] tf k !! i)) →
  ∃ rel', foldM (relevance_line voc ign tf idf) positions rel = Ok rel' ∧
    (∀ k, k ∈ voc →
       at_key [] rel' k
       = at_key [] rel k
         ++ map (λ i, (default 0 (at_key [] tf k !! i) * at_key 0 idf k)%R)
              (filter (λ i, i ∉ ign) positions)) ∧
    (∀ k, k ∉ voc → rel' !! k = rel !! k).
Proof.
  intros Hnd. revert rel. induction positions as [|i positions IH]; intros rel Hin.
  - exists rel. split; [done|]. split; [|done]. intros. simpl. by rewrite app_nil_r.
  - rewrite foldM_cons. destruct (decide (i ∈ ign)) as [Hi|Hi].
    + rewrite relevance_line_ignored by done. cbn [mbind outcome_bind].
      rewrite filter_cons_False by naive_solver.
      apply IH. intros. apply Hin; set_solver.
    + rewrite relevance_line_scored by done.
      destruct (relevance_word_loop tf idf i voc rel Hnd)
        as (rel1 & -> & A1 & A2); [intros; apply Hin; set_solver|].
      cbn [mbind outcome_bind].
      destruct (IH rel1) as (rel' & Hrel' & H1 & H2); [intros; apply Hin; set_solver|].
      exists rel'. split; [exact Hrel'|]. split.
      * intros k Hk. rewrite (H1 k Hk), (A1 k Hk), filter_cons_True by done.
        by rewrite <- app_assoc.
      * intros k Hk. by rewrite (H2 k Hk), (A2 k Hk).
Qed.

Lemma relevance_word_loop_outcome tf idf i voc rel :
  foldM (relevance_word tf idf i) voc rel ≠ Fault DivisionByZero.
Proof.
  revert rel. induction voc as [|x voc IH]; intros rel; [done|].
  rewrite foldM_cons.
  destruct (at_key [] tf x !! i) as [t|] eqn:E.
  - rewrite (relevance_word_ok _ _ _ _ _ t) by done. apply IH.
  - by rewrite relevance_word_fault.
Qed.

Lemma relevance_line_loop_outcome voc ign tf idf (positions : list nat) rel :
  foldM (relevance_line voc ign tf idf) positions rel ≠ Fault DivisionByZero.
Proof.
  revert rel. induction positions as [|i positions IH]; intros rel; [done|].
  rewrite foldM_cons.
  destruct (relevance_line voc ign tf idf rel i) as [rel1|[]] eqn:E;
    cbn [mbind outcome_bind]; [apply IH|done|].
  unfold relevance_line in E. case_decide; [done|].
  by apply relevance_word_loop_outcome in E.
Qed.

Lemma relevance_line_loop_fault k0 voc ign tf idf (positions : list nat) rel i :
  i ∈ positions → i ∉ ign → at_key [] tf k0 !! i = None →
  foldM (relevance_line (k0 :: voc) ign tf idf) positions rel = Fault OutOfRange.
Proof.
  intros Hi Hign Hk0.
  destruct (foldM (relevance_line (k0 :: voc) ign tf idf) positions rel)
    as [rel'|[]] eqn:E; [exfalso|done|by apply relevance_line_loop_outcome in E].
  revert rel E. induction positions as [|j positions IH]; intros rel; [set_solver|].
  rewrite foldM_cons.
  destruct (relevance_line (k0 :: voc) ign tf idf rel j) as [rel1|] eqn:Ej;
    cbn [mbind outcome_bind]; [|done].
  apply elem_of_cons in Hi as [<-|Hi]; [|by apply IH].
  rewrite relevance_line_scored, foldM_cons, relevance_word_fault in Ej by done.
  done.
Qed.

Lemma indexed_from_elem {A} (l : list A) a i x :
  (i, x) ∈ zip (seq a (length l)) l ↔ a ≤ i ∧ l !! (i - a) = Some x.
Proof.
  revert a. induction l as [|y l IH]; intros a; simpl.
  - split; [by intros ?%elem_of_nil|]. by intros [_ ?].
  - rewrite elem_of_cons, IH. split.
    + intros [[= -> ->]|[Hle Hl]].
      * rewrite Nat.sub_diag. split; [lia|done].
      * split; [lia|]. replace (i - a) with (S (i - S a)) by lia. done.
    + intros [Hle Hl]. destruct (decide (i = a)) as [->|Hne].
      * rewrite Nat.sub_diag in Hl. left. by injection Hl as ->.
      * right. split; [lia|]. replace (i - a) with (S (i - S a)) in Hl by lia. done.
Qed.

Lemma indexed_elem {A} (l : list A) i x : (i, x) ∈ indexed l ↔ l !! i = Some x.
Proof.
  unfold indexed. rewrite indexed_from_elem, Nat.sub_0_r. split; [tauto|].
  intros; split; [lia|done].
Qed.

Lemma indexed_snd {A} (l : list A) : (indexed l).*2 = l.
Proof. unfold indexed. apply snd_zip. by rewrite length_seq. Qed.

Lemma scored_words_Forall wil : Forall (λ ws, ws ≠ []) (scored_words wil).
Proof. apply Forall_forall. intros ws H. by apply list_elem_of_filter in H as [? ?]. Qed.

Lemma scored_words_nil wil :
  scored_words wil = [] → wil = replicate (length wil) [].
Proof.
  induction wil as [|ws wil IH]; [done|]. rewrite scored_words_cons.
  case_decide as H; [|done]. intros E. simpl. by rewrite H, <- IH.
Qed.

Lemma scored_words_app l1 l2 :
  scored_words (l1 ++ l2) = scored_words l1 ++ scored_words l2.
Proof. apply filter_app. Qed.

Lemma scored_words_replicate n : scored_words (replicate n []) = [].
Proof. induction n; [done|]. simpl. by rewrite scored_words_cons, decide_True. Qed.

Lemma scored_words_id l : Forall (λ ws, ws ≠ []) l → scored_words l = l.
Proof.
  induction 1 as [|ws l H _ IH]; [done|].
  by rewrite scored_words_cons, decide_False, IH.
Qed.

Lemma positions_from_length a wil :
  length (positions_from a wil) = length (scored_words wil).
Proof.
  revert a. induction wil as [|ws wil IH]; intros a; [done|].
  simpl. rewrite scored_words_cons. case_decide; simpl; by rewrite IH.
Qed.

Lemma positions_from_lb a wil j x :
  positions_from a wil !! j = Some x → a + j ≤ x.
Proof.
  revert a j. induction wil as [|ws wil IH]; intros a j; [done|].
  simpl. case_decide.
  - intros E%IH. lia.
  - destruct j as [|j]; simpl; [intros [= <-]; lia|]. intros E%IH. lia.
Qed.

Lemma positions_from_elem a wil i :
  i ∈ positions_from a wil ↔
  a ≤ i ∧ ∃ ws, wil !! (i - a) = Some ws ∧ ws ≠ [].
Proof.
  revert a. induction wil as [|ws wil IH]; intros a; simpl.
  - split; [by intros ?%elem_of_nil|]. by intros [_ (? & ? & _)].
  - assert (Hstep : (S a ≤ i ∧ ∃ ws', wil !! (i - S a) = Some ws' ∧ ws' ≠ []) ↔
                    (a ≤ i ∧ i ≠ a ∧ ∃ ws', (ws :: wil) !! (i - a) = Some ws' ∧ ws' ≠ [])).
    { split.
      - intros [Hle (ws' & Hl & Hne)]. split; [lia|]. split; [lia|].
        exists ws'. replace (i - a) with (S (i - S a)) by lia. done.
      - intros [Hle [Hne (ws' & Hl & Hne')]]. split; [lia|].
        exists ws'. replace (i - a) with (S (i - S a)) in Hl by lia. done. }
    case_decide as Hws.
    + rewrite IH, Hstep. split; [naive_solver|].
      intros [Hle (ws' & Hl & Hne)]. split; [done|]. split; [|eauto].
      intros ->. rewrite Nat.sub_diag in Hl. simpl in Hl. congruence.
    + rewrite elem_of_cons, IH, Hstep. split.
      * intros [->|?]; [|naive_solver]. split; [done|]. exists ws.
        by rewrite Nat.sub_diag.
      * intros [Hle Hex]. destruct (decide (i = a)); [by left|right]. done.
Qed.

Lemma filter_positions (ign : gset nat) a wil :
  (∀ j, j < length wil → a + j ∈ ign ↔ wil !! j = Some []) →
  filter (λ i, i ∉ ign) (seq a (length wil)) = positions_from a wil.
Proof.
  revert a. induction wil as [|ws wil IH]; intros a H; [done|].
  simpl. assert (Ha : a ∈ ign ↔ ws = []).
  { specialize (H 0). rewrite Nat.add_0_r in H. simpl in H. rewrite H by lia.
    naive_solver. }
  assert (IH' : filter (λ i, i ∉ ign) (seq (S a) (length wil)) = positions_from (S a) wil).
  { apply IH. intros j Hj. specialize (H (S j)). simpl in H.
    replace (S a + j) with (a + S j) by lia. apply H. lia. }
  case_decide.
  - rewrite filter_cons_False by (rewrite Ha; naive_solver). done.
  - rewrite filter_cons_True by (by rewrite Ha). by rewrite IH'.
Qed.

Lemma positions_from_full a l :
  Forall (λ ws, ws ≠ []) l → positions_from a l = seq a (length l).
Proof.
  intros H. revert a. induction H as [|ws l Hws _ IH]; intros a; [done|].
  simpl. by rewrite decide_False, IH.
Qed.

Lemma positions_from_app a l1 l2 :
  positions_from a (l1 ++ l2)
  = positions_from a l1 ++ positions_from (a + length l1) l2.
Proof.
  revert a. induction l1 as [|ws l1 IH]; intros a; simpl.
  - by rewrite Nat.add_0_r.
  - rewrite IH. replace (S a + length l1) with (a + S (length l1)) by lia.
    by case_decide.
Qed.

Lemma positions_from_replicate a n : positions_from a (replicate n []) = [].
Proof. revert a. induction n as [|n IH]; intros a; [done|]. apply IH. Qed.

Lemma trailing_ignored a l n :
  Forall (λ ws, ws ≠ []) l →
  positions_from a (l ++ replicate n []) = seq a (length l) ∧
  scored_words (l ++ replicate n []) = l.
Proof.
  intros H. split.
  - rewrite positions_from_app, positions_from_replicate, app_nil_r.
    by apply positions_from_full.
  - rewrite scored_words_app, scored_words_replicate, app_nil_r.
    by apply scored_words_id.
Qed.

Lemma aligned_positions a wil :
  aligned wil → positions_from a wil = seq a (length (scored_words wil)).
Proof.
  intros H.
  destruct (trailing_ignored a (scored_words wil)
              (length wil - length (scored_words wil))) as [E _];
    [apply scored_words_Forall|].
  by rewrite <- H in E.
Qed.

Lemma bounded_aligned a wil :
  (∀ i, i ∈ positions_from a wil → i < a + length (scored_words wil)) →
  aligned wil.
Proof.
  revert a. induction wil as [|ws wil IH]; intros a H; [done|].
  unfold aligned. simpl in H. rewrite scored_words_cons in *.
  destruct (decide (ws = [])) as [->|Hws].
  - destruct (scored_words wil) as [|x sw] eqn:Esw.
    + simpl. f_equal. by apply scored_words_nil.
    + exfalso. pose proof (positions_from_length (S a) wil) as Hlen.
      rewrite Esw in Hlen. simpl in Hlen.
      destruct (lookup_lt_is_Some_2 (positions_from (S a) wil) (length sw)) as [y Hy];
        [lia|].
      pose proof (positions_from_lb _ _ _ _ Hy).
      assert (y < a + length (x :: sw)) by (apply H; by eapply list_elem_of_lookup_2).
      simpl in *. lia.
  - simpl. f_equal.
    assert (Hwil : aligned wil).
    { apply (IH (S a)). intros i Hi. specialize (H i). simpl in H.
      assert (i < a + S (length (scored_words wil))) by (apply H; set_solver). lia. }
    exact Hwil.
Qed.

Lemma misaligned_position wil :
  ¬ aligned wil →
  ∃ i, i ∈ scored_positions wil ∧ length (scored_words wil) ≤ i.
Proof.
  intros H.
  destruct (decide (Forall (λ i, i < length (scored_words wil)) (scored_positions wil)))
    as [HF|HF].
  - exfalso. apply H. apply (bounded_aligned 0). rewrite Forall_forall in HF.
    intros i Hi. by apply HF.
  - apply not_Forall_Exists in HF; [|apply _]. apply Exists_exists in HF as (i & Hi & Hge).
    exists i. split; [done|]. simpl in Hge. lia.
Qed.

Lemma ignored_spec text i :
  i ∈ (collect_lines (GetLinesFromText text)).2 ↔ words_of_lines text !! i = Some [].
Proof. apply collect_lines_ignored. Qed.

Lemma BuildIndex_tf_spec text :
  ∃ st, BuildIndex_tf text = Ok st ∧
    (∀ k, k ∈ GetUniqueWordsFromStringView text →
       at_key [] st.1 k
       = map (λ ws, TF (GetUniqueWordsFromStringView text) ws k)
           (scored_words (words_of_lines text)) ∧
       at_key 0%R st.2 k
       = INR (DF (GetUniqueWordsFromStringView text)
                (scored_words (words_of_lines text)) k)) ∧
    (∀ k, k ∉ GetUniqueWordsFromStringView text →
       st.1 !! k = None ∧ st.2 !! k = None).
Proof.
  unfold BuildIndex_tf.
  pose proof (collect_lines_fst (GetLinesFromText text)) as E1.
  pose proof (ignored_spec text) as E2.
  destruct (collect_lines (GetLinesFromText text)) as [wil ign].
  simpl in E1, E2. subst wil. fold (words_of_lines text).
  destruct (tf_loop_spec (GetUniqueWordsFromStringView text) ign
              (indexed (words_of_lines text)) (∅, ∅)) as (st & Hst & H1 & H2).
  - apply GetUniqueWords_ok.
  - intros [i ws] Hin. apply indexed_elem in Hin. simpl. rewrite E2, Hin.
    naive_solver.
  - exists st. split; [exact Hst|]. rewrite indexed_snd in H1. split.
    + intros k Hk. destruct (H1 k Hk) as [-> ->]. simpl.
      rewrite !at_key_empty. split; [done|]. lra.
    + intros k Hk. destruct (H2 k Hk) as [-> ->]. done.
Qed.

Lemma BuildIndex_idf_spec text :
  ∃ st, BuildIndex_idf text = Ok st ∧
    (∀ k, k ∈ GetUniqueWordsFromStringView text →
       at_key [] st.1 k
       = map (λ ws, TF (GetUniqueWordsFromStringView text) ws k)
           (scored_words (words_of_lines text)) ∧
       at_key 0%R st.2 k
       = IDF (GetUniqueWordsFromStringView text)
           (scored_words (words_of_lines text))
           (length (GetLinesFromText text)) k) ∧
    (∀ k, k ∉ GetUniqueWordsFromStringView text →
       st.1 !! k = None ∧ st.2 !! k = None).
Proof.
  unfold BuildIndex_idf.
  destruct (BuildIndex_tf_spec text) as (st & -> & H1 & H2).
  cbn [mbind outcome_bind]. eexists. split; [reflexivity|]. cbn [fst snd].
  destruct (idf_loop_spec (length (GetLinesFromText text))
              (GetUniqueWordsFromStringView text) st.2) as [I1 I2];
    [apply set_ok_NoDup, GetUniqueWords_ok|].
  cbn zeta in I1, I2. split.
  - intros k Hk. destruct (H1 k Hk) as [E1 E2]. split; [done|].
    rewrite (I1 k Hk), E2. unfold IDF.
    destruct (decide (DF _ _ k = 0)) as [->|Hne].
    + by rewrite decide_True.
    + rewrite decide_False; [done|]. by apply not_0_INR.
  - intros k Hk. destruct (H2 k Hk) as [E1 E2]. split; [done|].
    by rewrite (I2 k Hk).
Qed.

Lemma scored_positions_spec text :
  filter (λ i, i ∉ (collect_lines (GetLinesFromText text)).2)
    (seq 0 (length (GetLinesFromText text)))
  = scored_positions (words_of_lines text).
Proof.
  replace (length (GetLinesFromText text)) with (length (words_of_lines text))
    by apply length_map.
  apply filter_positions. intros j _. simpl. apply ignored_spec.
Qed.

(** A line with words puts its words in the vocabulary. *)
Lemma scored_vocabulary text ws w :
  ws ∈ words_of_lines text → w ∈ ws →
  ∃ y, set_find (GetUniqueWordsFromStringView text) w = Some y.
Proof.
  intros Hws Hw. apply GetUniqueWords_find. rewrite GetWords_lines.
  apply list_elem_of_In, in_concat. exists ws. by rewrite <- !list_elem_of_In.
Qed.

Lemma BuildIndex_aligned text :
  aligned (words_of_lines text) →
  ∃ engine, BuildIndex text = Ok engine ∧
    text_words_ engine = GetUniqueWordsFromStringView text ∧
    lines_ engine = GetLinesFromText text ∧
    ignore_list_ engine = (collect_lines (GetLinesFromText text)).2 ∧
    (∀ k, k ∈ GetUniqueWordsFromStringView text →
       at_key [] (words_relevance_in_lines_ engine) k
       = map (λ ws, relevance_of text ws k) (scored_words (words_of_lines text))) ∧
    (∀ k, k ∉ GetUniqueWordsFromStringView text →
       words_relevance_in_lines_ engine !! k = None).
Proof.
  intros Hal. unfold BuildIndex.
  destruct (BuildIndex_idf_spec text) as (st & -> & H1 & H2).
  cbn [mbind outcome_bind].
  pose proof (aligned_positions 0 _ Hal) as Hpos.
  fold (scored_positions (words_of_lines text)) in Hpos.
  destruct (relevance_line_loop (GetUniqueWordsFromStringView text)
              (collect_lines (GetLinesFromText text)).2 st.1 st.2
              (seq 0 (length (GetLinesFromText text))) ∅)
    as (rel & -> & R1 & R2).
  - apply set_ok_NoDup, GetUniqueWords_ok.
  - intros i k Hi Hign Hk. destruct (H1 k Hk) as [-> _].
    apply lookup_lt_is_Some_2. rewrite length_map.
    assert (i ∈ scored_positions (words_of_lines text)) as Hsc.
    { rewrite <- scored_positions_spec. apply list_elem_of_filter. done. }
    rewrite Hpos in Hsc. apply elem_of_seq in Hsc. lia.
  - cbn [mbind outcome_bind]. eexists. split; [reflexivity|].
    cbn [text_words_ lines_ ignore_list_ words_relevance_in_lines_].
    do 3 (split; [reflexivity|]). split; [|intros k Hk; rewrite (R2 k Hk); apply lookup_empty].
    intros k Hk. rewrite (R1 k Hk), scored_positions_spec, Hpos, at_key_empty.
    destruct (H1 k Hk) as [-> ->]. cbn [app]. unfold relevance_of.
    generalize (scored_words (words_of_lines text)). intros l.
    apply list_eq. intros j. rewrite !list_lookup_fmap.
    destruct (l !! j) as [ws|] eqn:E.
    + rewrite lookup_seq_lt by (by eapply lookup_lt_Some). simpl.
      rewrite list_lookup_fmap, E. done.
    + rewrite lookup_seq_ge by (by apply lookup_ge_None). done.
Qed.

Lemma BuildIndex_misaligned text :
  ¬ aligned (words_of_lines text) → BuildIndex text = Fault OutOfRange.
Proof.
  intros Hal. unfold BuildIndex.
  destruct (BuildIndex_idf_spec text) as (st & -> & H1 & H2).
  cbn [mbind outcome_bind].
  destruct (misaligned_position _ Hal) as (i & Hi & Hge).
  assert (Hi' := Hi). rewrite <- scored_positions_spec in Hi'.
  apply list_elem_of_filter in Hi' as [Hign Hseq].
  apply positions_from_elem in Hi as [_ (ws & Hws & Hne)].
  rewrite Nat.sub_0_r in Hws.
  destruct ws as [|w ws]; [done|].
  destruct (scored_vocabulary text (w :: ws) w) as [y Hy];
    [by eapply list_elem_of_lookup_2|set_solver|].
  destruct (GetUniqueWordsFromStringView text) as [|k0 voc] eqn:Evoc; [done|].
  rewrite (relevance_line_loop_fault _ _ _ _ _ _ _ i); [done..|].
  destruct (H1 k0) as [-> _]; [set_solver|].
  apply lookup_ge_None. by rewrite length_map.
Qed.

Lemma add_relevance_some rel i acc q v x :
  rel !! q = Some v → v !! i = Some x →
  add_relevance rel i acc q = Ok (acc + x)%R ∧ lookup_relevance rel i q = x.
Proof.
  intros H1 H2. unfold add_relevance, lookup_relevance, at_key.
  by rewrite H1; simpl; rewrite H2.
Qed.

Lemma add_relevance_none rel i acc q :
  rel !! q = None →
  add_relevance rel i acc q = Ok acc ∧ lookup_relevance rel i q = 0%R.
Proof.
  intros H1. unfold add_relevance, lookup_relevance, at_key. by rewrite H1.
Qed.

Lemma add_relevance_loop rel i qws acc :
  (∀ q v, q ∈ qws → rel !! q = Some v → is_Some (v !! i)) →
  foldM (add_relevance rel i) qws acc
  = Ok (acc + Rsum (map (lookup_relevance rel i) qws))%R.
Proof.
  revert acc. induction qws as [|q qws IH]; intros acc H.
  - simpl. f_equal. lra.
  - rewrite foldM_cons. cbn [map Rsum foldr].
    fold (Rsum (map (lookup_relevance rel i) qws)).
    destruct (rel !! q) as [v|] eqn:E.
    + destruct (H q v) as [x Hx]; [set_solver|done|].
      destruct (add_relevance_some rel i acc q v x E Hx) as [-> ->].
      cbn [mbind outcome_bind]. rewrite IH by (intros; eapply H; set_solver).
      f_equal. lra.
    + destruct (add_relevance_none rel i acc q E) as [-> ->].
      cbn [mbind outcome_bind]. rewrite IH by (intros; eapply H; set_solver).
      f_equal. lra.
Qed.

Lemma score_line_ignored engine qws lr i :
  i ∈ ignore_list_ engine → score_line engine qws lr i = Ok lr.
Proof. intros H. unfold score_line. by rewrite decide_True. Qed.

Lemma score_line_scored engine qws lr i :
  i ∉ ignore_list_ engine →
  (∀ q v, q ∈ qws → words_relevance_in_lines_ engine !! q = Some v → is_Some (v !! i)) →
  score_line engine qws lr i
  = Ok (lr ++ [entry (words_relevance_in_lines_ engine) qws i]).
Proof.
  intros H Hin. unfold score_line. rewrite decide_False by done.
  rewrite add_relevance_loop by done. cbn [mbind outcome_bind].
  by rewrite Rplus_0_l.
Qed.

Lemma score_loop engine qws (positions : list nat) lr :
  (∀ i q v, i ∈ positions → i ∉ ignore_list_ engine → q ∈ qws →
            words_relevance_in_lines_ engine !! q = Some v → is_Some (v !! i)) →
  foldM (score_line engine qws) positions lr
  = Ok (lr ++ map (entry (words_relevance_in_lines_ engine) qws)
                (filter (λ i, i ∉ ignore_list_ engine) positions)).
Proof.
  revert lr. induction positions as [|i positions IH]; intros lr H.
  - simpl. by rewrite app_nil_r.
  - rewrite foldM_cons. destruct (decide (i ∈ ignore_list_ engine)) as [Hi|Hi].
    + rewrite score_line_ignored by done. cbn [mbind outcome_bind].
      rewrite filter_cons_False by naive_solver.
      apply IH. intros; eapply H; set_solver.
    + rewrite score_line_scored; [|done|intros; eapply H; set_solver].
      cbn [mbind outcome_bind]. rewrite filter_cons_True by done.
      rewrite IH by (intros; eapply H; set_solver).
      by rewrite <- app_assoc.
Qed.

Lemma take_results_spec lines k lr i res :
  Forall (λ x, is_Some (lines !! pos x)) lr →
  ∃ out, take_results lines k lr i res = Ok (res ++ out) ∧
         Forall2 (λ x line, lines !! pos x = Some line) (returned k lr i) out.
Proof.
  intros H. revert i res. induction H as [|x lr [line Hx] _ IH]; intros i res.
  - exists []. simpl. by rewrite app_nil_r.
  - cbn [take_results returned].
    destruct ((k <=? i) || bool_decide (relevance x = 0%R)).
    + exists []. by rewrite app_nil_r.
    + rewrite Hx. destruct (IH (S i) (res ++ [line])) as (out & -> & Hout).
      exists (line :: out). rewrite <- app_assoc. split; [done|]. by constructor.
Qed.

Lemma returned_prefix k lr i : ∃ n, returned k lr i = take n lr.
Proof.
  revert i. induction lr as [|x lr IH]; intros i; [by exists 0|].
  simpl. destruct ((k <=? i) || bool_decide (relevance x = 0%R)).
  - by exists 0.
  - destruct (IH (S i)) as [n ->]. by exists (S n).
Qed.

Lemma returned_length k lr i : length (returned k lr i) ≤ k - i.
Proof.
  revert i. induction lr as [|x lr IH]; intros i; simpl; [lia|].
  destruct (Nat.leb_spec k i); simpl; [lia|].
  case_bool_decide; simpl; [lia|]. specialize (IH (S i)). lia.
Qed.

Lemma returned_nonzero k lr i x : x ∈ returned k lr i → relevance x ≠ 0%R.
Proof.
  revert i. induction lr as [|y lr IH]; intros i; simpl; [by intros ?%elem_of_nil|].
  destruct (k <=? i); simpl; [by intros ?%elem_of_nil|].
  case_bool_decide; [by intros ?%elem_of_nil|].
  intros [->|?]%elem_of_cons; [done|]. by eapply IH.
Qed.

Lemma returned_elem k lr i x : x ∈ returned k lr i → x ∈ lr.
Proof.
  destruct (returned_prefix k lr i) as [n ->]. rewrite elem_of_take.
  intros (j & Hj & _). by eapply list_elem_of_lookup_2.
Qed.

Lemma returned_all k lr :
  length lr ≤ k → Forall (λ x, relevance x ≠ 0%R) lr → returned k lr 0 = lr.
Proof.
  assert (∀ i, i + length lr ≤ k → Forall (λ x, relevance x ≠ 0%R) lr →
               returned k lr i = lr) as H; [|intros; by apply H].
  induction lr as [|x lr IH]; intros i Hk HF; [done|].
  inversion_clear HF. simpl in *.
  destruct (Nat.leb_spec k i); [lia|]. rewrite bool_decide_eq_false_2 by done.
  simpl. rewrite IH; [done|lia|done].
Qed.

Lemma returned_stop k pre z rest :
  length pre < k → Forall (λ x, relevance x ≠ 0%R) pre → relevance z = 0%R →
  returned k (pre ++ z :: rest) 0 = pre.
Proof.
  assert (∀ i, i + length pre < k → Forall (λ x, relevance x ≠ 0%R) pre →
               relevance z = 0%R → returned k (pre ++ z :: rest) i = pre) as H;
    [|intros; by apply H].
  induction pre as [|x pre IH]; intros i Hk HF Hz.
  - simpl. rewrite bool_decide_eq_true_2 by done. by rewrite orb_true_r.
  - inversion_clear HF. simpl in *.
    destruct (Nat.leb_spec k i); [lia|]. rewrite bool_decide_eq_false_2 by done.
    simpl. rewrite IH; [done|lia|done..].
Qed.

Lemma sort_insert_perm {A} (comp : A → A → bool) x l :
  sort_insert comp x l ≡ₚ x :: l.
Proof.
  induction l as [|y l IH]; simpl; [done|].
  destruct (comp y x); [|done]. rewrite IH. apply Permutation_swap.
Qed.

Lemma std_sort_perm {A} (comp : A → A → bool) l : std_sort comp l ≡ₚ l.
Proof.
  induction l as [|x l IH]; simpl; [done|]. by rewrite sort_insert_perm, IH.
Qed.

Lemma sort_reversed_perm {A} (comp : A → A → bool) l : sort_reversed comp l ≡ₚ l.
Proof.
  unfold sort_reversed. by rewrite reverse_Permutation, std_sort_perm, reverse_Permutation.
Qed.

Lemma StronglySorted_reverse {A} (R : relation A) l :
  StronglySorted R l → StronglySorted (flip R) (reverse l).
Proof.
  induction 1 as [|x l Hl IH Hx]; [constructor|]. rewrite reverse_cons.
  apply StronglySorted_app_2; [|done|repeat constructor].
  intros x1 x2 H1 H2. apply list_elem_of_singleton in H2 as ->.
  rewrite Forall_forall in Hx. apply Hx. by apply elem_of_reverse.
Qed.

Lemma StronglySorted_lookup_lt {A} (R : relation A) l i j a b :
  StronglySorted R l → i < j → l !! i = Some a → l !! j = Some b → R a b.
Proof.
  intros Hl. revert i j. induction Hl as [|x l Hl IH Hx]; intros i j Hij Hi Hj; [done|].
  destruct j as [|j]; [lia|]. simpl in Hj. destruct i as [|i]; simpl in Hi.
  - injection Hi as ->. rewrite Forall_forall in Hx. apply Hx.
    by eapply list_elem_of_lookup_2.
  - apply (IH i j); [lia|done..].
Qed.

Section sorting.
Context {A : Type} (comp : A → A → bool) (P : A → Prop).
Hypothesis total :
  ∀ a b, P a → P b → a ≠ b → comp a b = false → comp b a = true.
Hypothesis trans :
  ∀ a b c, P a → P b → P c →
           comp a b = true → comp b c = true → comp a c = true.

Lemma sort_insert_sorted x l :
  P x → Forall P l → x ∉ l →
  StronglySorted (λ a b, comp a b = true) l →
  StronglySorted (λ a b, comp a b = true) (sort_insert comp x l).
Proof.
  intros Hx HP Hin Hl. induction Hl as [|y l Hl IH Hy]; simpl.
  - repeat constructor.
  - inversion_clear HP as [|?? Py HPl]. apply not_elem_of_cons in Hin as [Hne Hin].
    destruct (comp y x) eqn:E.
    + constructor; [by apply IH|].
      apply Forall_forall. intros z Hz.
      rewrite sort_insert_perm in Hz.
      apply elem_of_cons in Hz as [->|Hz]; [done|].
      rewrite Forall_forall in Hy. by apply Hy.
    + assert (comp x y = true) as Hxy by (by apply total).
      constructor; [by constructor|]. constructor; [done|].
      rewrite Forall_forall in Hy, HPl. apply Forall_forall. intros z Hz.
      apply (trans x y z); auto.
Qed.

Lemma std_sort_sorted l :
  Forall P l → NoDup l → StronglySorted (λ a b, comp a b = true) (std_sort comp l).
Proof.
  intros HP Hnd. induction Hnd as [|x l Hx Hnd IH]; simpl; [constructor|].
  inversion_clear HP as [|?? Px HPl]. apply sort_insert_sorted; [done| | |by apply IH].
  - by rewrite std_sort_perm.
  - by rewrite std_sort_perm.
Qed.

Lemma sort_reversed_sorted l :
  Forall P l → NoDup l →
  StronglySorted (λ a b, comp b a = true) (sort_reversed comp l).
Proof.
  intros HP Hnd. unfold sort_reversed.
  apply (StronglySorted_reverse (λ a b, comp a b = true)), std_sort_sorted.
  - by rewrite reverse_Permutation.
  - by rewrite reverse_Permutation.
Qed.
End sorting.

(** An element below all the others comes first, whatever the order is
    among the others. *)
Lemma std_sort_least {A} (comp : A → A → bool) z l :
  z ∈ l → NoDup l →
  (∀ y, y ∈ l → y ≠ z → comp z y = true ∧ comp y z = false) →
  ∃ rest, std_sort comp l = z :: rest.
Proof.
  intros Hz Hnd. revert Hz. induction Hnd as [|x l Hx Hnd IH]; intros Hz H.
  - by apply elem_of_nil in Hz.
  - simpl. apply elem_of_cons in Hz as [->|Hz].
    + destruct (std_sort comp l) as [|y s] eqn:E; [by exists []|].
      simpl. assert (y ∈ l) as Hy by (rewrite <- (std_sort_perm comp l), E; set_solver).
      destruct (H y) as [_ ->]; [set_solver|by intros ->|]. eauto.
    + destruct IH as [rest ->]; [done|intros; apply H; set_solver|].
      simpl. destruct (H x) as [-> _]; [set_solver|by intros ->|]. eauto.
Qed.

Lemma BuildIndex_cases text :
  (aligned (words_of_lines text) ∧ ∃ engine, BuildIndex text = Ok engine) ∨
  (¬ aligned (words_of_lines text) ∧ BuildIndex text = Fault OutOfRange).
Proof.
  destruct (decide (aligned (words_of_lines text))) as [H|H].
  - left. split; [done|]. destruct (BuildIndex_aligned text H) as (e & ? & _). eauto.
  - right. split; [done|]. by apply BuildIndex_misaligned.
Qed.

Lemma built_facts text engine :
  BuildIndex text = Ok engine →
  aligned (words_of_lines text) ∧
  text_words_ engine = GetUniqueWordsFromStringView text ∧
  lines_ engine = GetLinesFromText text ∧
  ignore_list_ engine = (collect_lines (GetLinesFromText text)).2 ∧
  (∀ k, k ∈ GetUniqueWordsFromStringView text →
     at_key [] (words_relevance_in_lines_ engine) k
     = map (λ ws, relevance_of text ws k) (scored_words (words_of_lines text))) ∧
  (∀ k, k ∉ GetUniqueWordsFromStringView text →
     words_relevance_in_lines_ engine !! k = None).
Proof.
  intros HB. destruct (BuildIndex_cases text) as [[Hal _]|[_ HF]]; [|congruence].
  split; [done|]. destruct (BuildIndex_aligned text Hal) as (e & He & H).
  rewrite HB in He. injection He as <-. exact H.
Qed.

Lemma scored_words_length wil : length (scored_words wil) ≤ length wil.
Proof. apply length_filter. Qed.

Lemma words_of_lines_length text :
  length (words_of_lines text) = length (GetLinesFromText text).
Proof. apply length_map. Qed.

(** In an aligned text the lines with words are the first ones. *)
Lemma aligned_lookup wil i :
  aligned wil →
  (i < length (scored_words wil) →
     ∃ ws, wil !! i = Some ws ∧ scored_words wil !! i = Some ws ∧ ws ≠ []) ∧
  (length (scored_words wil) ≤ i → i < length wil → wil !! i = Some []).
Proof.
  intros Hal. split.
  - intros Hi. destruct (lookup_lt_is_Some_2 (scored_words wil) i Hi) as [ws Hws].
    exists ws. split; [|split; [done|]].
    + rewrite Hal. by apply lookup_app_l_Some.
    + pose proof (scored_words_Forall wil) as HF. rewrite Forall_forall in HF.
      apply HF. by eapply list_elem_of_lookup_2.
  - intros Hge Hlt. rewrite Hal. rewrite lookup_app_r by done.
    apply lookup_replicate_2. lia.
Qed.

Lemma ranked_built text engine query :
  BuildIndex text = Ok engine →
  ranked engine query
  = Ok (sort_reversed less
          (map (entry (words_relevance_in_lines_ engine)
                  (GetUniqueWordsFromStringView query))
             (seq 0 (length (scored_words (words_of_lines text)))))).
Proof.
  intros HB. destruct (built_facts text engine HB) as (Hal & Hv & Hl & Hi & R1 & R2).
  unfold ranked. rewrite score_loop.
  - cbn [mbind outcome_bind app]. rewrite Hl, Hi, scored_positions_spec.
    unfold scored_positions. by rewrite (aligned_positions 0 _ Hal).
  - intros i q v Hin Hign Hq Hv'. rewrite Hl in Hin. rewrite Hi in Hign.
    assert (i ∈ scored_positions (words_of_lines text)) as Hsc.
    { rewrite <- scored_positions_spec. by apply list_elem_of_filter. }
    unfold scored_positions in Hsc. rewrite (aligned_positions 0 _ Hal) in Hsc.
    apply elem_of_seq in Hsc.
    destruct (decide (q ∈ GetUniqueWordsFromStringView text)) as [Hk|Hk].
    + specialize (R1 q Hk). unfold at_key in R1. rewrite Hv' in R1. simpl in R1.
      subst v. apply lookup_lt_is_Some_2. rewrite length_map. lia.
    + rewrite (R2 q Hk) in Hv'. done.
Qed.

Lemma entries_pos rel qws (positions : list nat) x :
  x ∈ map (entry rel qws) positions → pos x ∈ positions.
Proof. intros (i & -> & Hi)%list_elem_of_fmap. done. Qed.

Lemma Search_built text engine query k :
  BuildIndex text = Ok engine →
  ∃ lr out,
    ranked engine query = Ok lr ∧
    Search engine query k = Ok out ∧
    Forall2 (λ x line, lines_ engine !! pos x = Some line) (returned k lr 0) out.
Proof.
  intros HB. pose proof (ranked_built text engine query HB) as HR.
  destruct (built_facts text engine HB) as (Hal & Hv & Hl & Hi & R1 & R2).
  unfold Search. rewrite HR. cbn [mbind outcome_bind].
  set (lr := sort_reversed less _).
  assert (HF : Forall (λ x, is_Some (lines_ engine !! pos x)) lr).
  { apply Forall_forall. intros x Hx. unfold lr in Hx.
    rewrite sort_reversed_perm in Hx. apply entries_pos, elem_of_seq in Hx.
    apply lookup_lt_is_Some_2. rewrite Hl, <- words_of_lines_length.
    pose proof (scored_words_length (words_of_lines text)). lia. }
  destruct (take_results_spec (lines_ engine) k lr 0 [] HF) as (out & Hout & H2).
  exists lr. destruct (Nat.eqb_spec k 0) as [->|Hk]; cbn [orb].
  - exists []. split; [done|]. split; [done|]. destruct lr; constructor.
  - case_bool_decide as Hnil.
    + exists []. split; [done|]. split; [done|].
      assert (lr = []) as ->; [|constructor].
      apply Permutation_nil_r. unfold lr. rewrite sort_reversed_perm.
      pose proof (scored_words_length (words_of_lines text)) as Hle.
      rewrite words_of_lines_length, <- Hl, Hnil in Hle. simpl in Hle.
      by destruct (length (scored_words (words_of_lines text))); [|lia].
    + exists out. split; [done|]. split; [exact Hout|done].
Qed.

(** *** Numeric facts *)

Lemma ln_le_sub1 y : (0 < y → ln y <= y - 1)%R.
Proof.
  intros Hy. destruct (Req_dec y 1) as [->|Hne]; [rewrite ln_1; lra|].
  pose proof (exp_ineq1 (y - 1)) as H.
  assert (y < exp (y - 1))%R as Hlt by (specialize (H ltac:(lra)); lra).
  apply ln_increasing in Hlt; [|done]. rewrite ln_exp in Hlt. lra.
Qed.

Lemma ln_nonneg y : (1 <= y → 0 <= ln y)%R.
Proof.
  intros Hy. destruct (Req_dec y 1) as [->|Hne]; [rewrite ln_1; lra|].
  rewrite <- ln_1. left. apply ln_increasing; lra.
Qed.

Lemma ln_ratio_upper n d : (0 < d → 0 < n → ln (n / d) <= (n - d) / d)%R.
Proof.
  intros Hd Hn. pose proof (ln_le_sub1 (n / d)) as H.
  assert (0 < n / d)%R by (apply Rdiv_lt_0_compat; lra).
  replace ((n - d) / d)%R with (n / d - 1)%R by (field; lra). auto.
Qed.

Lemma ln_ratio_lower n d : (0 < d → 0 < n → (n - d) / n <= ln (n / d))%R.
Proof.
  intros Hd Hn. pose proof (ln_le_sub1 (d / n)) as H.
  assert (0 < d / n)%R as Hdn by (apply Rdiv_lt_0_compat; lra).
  specialize (H Hdn).
  replace (n / d)%R with (/ (d / n))%R by (field; lra).
  rewrite ln_Rinv by done.
  replace ((n - d) / n)%R with (- (d / n - 1))%R by (field; lra). lra.
Qed.

Lemma Rdiv_nonneg a b : (0 <= a → 0 < b → 0 <= a / b)%R.
Proof.
  intros Ha Hb. unfold Rdiv. apply Rmult_le_pos; [done|].
  left. by apply Rinv_0_lt_compat.
Qed.

Lemma Rdiv_ge_1 a b : (0 < b → b <= a → 1 <= a / b)%R.
Proof.
  intros Hb Hab. replace (a / b)%R with (1 + (a - b) / b)%R by (field; lra).
  pose proof (Rdiv_nonneg (a - b) b). lra.
Qed.

Lemma TF_nonneg voc ws k : (0 <= TF voc ws k)%R.
Proof.
  unfold TF. destruct ws as [|w ws].
  - simpl. unfold Rdiv. rewrite Rinv_0. lra.
  - apply Rdiv_nonneg; [apply pos_INR|]. apply lt_0_INR. simpl; lia.
Qed.

Lemma DF_le voc sw k : DF voc sw k ≤ length sw.
Proof. apply length_filter. Qed.

Lemma IDF_nonneg voc sw n k : length sw ≤ n → (0 <= IDF voc sw n k)%R.
Proof.
  intros Hn. unfold IDF. case_decide as Hd; [lra|].
  pose proof (DF_le voc sw k) as Hle.
  apply ln_nonneg.
  assert (0 < INR (DF voc sw k))%R by (apply lt_0_INR; lia).
  apply Rdiv_ge_1; [done|]. apply le_INR. lia.
Qed.

Lemma TF_zero voc ws k :
  ws ≠ [] → TF voc ws k = 0%R ↔ occurrences voc k ws = 0.
Proof.
  intros Hws. unfold TF.
  assert (0 < INR (length ws))%R as Hn by (apply lt_0_INR; destruct ws; [done|simpl; lia]).
  split.
  - intros H. apply INR_eq. simpl.
    apply (Rmult_eq_compat_r (INR (length ws))) in H.
    unfold Rdiv in H. rewrite Rmult_assoc, Rinv_l, Rmult_1_r, Rmult_0_l in H by lra.
    done.
  - intros ->. simpl. unfold Rdiv. lra.
Qed.

Lemma DF_count voc sw k :
  Forall (λ ws, ws ≠ []) sw →
  DF voc sw k = length (filter (λ ws, occurrences voc k ws ≠ 0) sw).
Proof.
  unfold DF. induction 1 as [|ws sw Hws _ IH]; [done|].
  destruct (decide (occurrences voc k ws = 0)) as [E|E].
  - rewrite !filter_cons_False; [done|naive_solver|].
    intros H. apply H. by apply TF_zero.
  - rewrite !filter_cons_True; [simpl; by rewrite IH|done|].
    by rewrite TF_zero.
Qed.

Lemma df_count_spec text k :
  df_count text k
  = DF (GetUniqueWordsFromStringView text) (scored_words (words_of_lines text)) k.
Proof.
  rewrite DF_count by apply scored_words_Forall. unfold df_count, occ_profile, occ_profile_of.
  induction (scored_words (words_of_lines text)) as [|ws sw IH]; [done|].
  cbn [map]. destruct (decide (occurrences (GetUniqueWordsFromStringView text) k ws = 0)).
  - by rewrite !filter_cons_False by naive_solver.
  - rewrite !filter_cons_True by done. simpl. by rewrite IH.
Qed.

Lemma idf_value_spec text k :
  idf_value text k
  = IDF (GetUniqueWordsFromStringView text) (scored_words (words_of_lines text))
      (length (GetLinesFromText text)) k.
Proof. unfold idf_value, IDF. by rewrite df_count_spec. Qed.

Lemma built_profile text engine k :
  BuildIndex text = Ok engine → k ∈ GetUniqueWordsFromStringView text →
  at_key [] (words_relevance_in_lines_ engine) k
  = map (λ p : nat * nat, (INR p.1 / INR p.2 * idf_value text k)%R) (occ_profile text k).
Proof.
  intros HB Hk. destruct (built_facts text engine HB) as (_ & _ & _ & _ & R1 & _).
  rewrite (R1 k Hk). unfold occ_profile, occ_profile_of. rewrite map_map.
  apply map_ext. intros ws. unfold relevance_of. by rewrite idf_value_spec.
Qed.

Lemma map_seq_imap {A B} (f : nat → A → B) (g : nat → B) (l : list A) :
  (∀ i x, l !! i = Some x → g i = f i x) →
  map g (seq 0 (length l)) = imap f l.
Proof.
  intros H. apply list_eq. intros i. rewrite list_lookup_fmap, list_lookup_imap.
  destruct (l !! i) as [x|] eqn:E; simpl.
  - rewrite lookup_seq_lt by (by eapply lookup_lt_Some). simpl. f_equal. by apply H.
  - rewrite lookup_seq_ge by (by apply lookup_ge_None). done.
Qed.

Lemma occ_profile_length text k :
  length (occ_profile text k) = length (scored_words (words_of_lines text)).
Proof. apply length_map. Qed.

(** The ranking of a one-word query whose word is a vocabulary entry. *)
Lemma ranked_single text engine query q :
  BuildIndex text = Ok engine →
  GetUniqueWordsFromStringView query = [q] →
  q ∈ GetUniqueWordsFromStringView text →
  ranked engine query
  = Ok (sort_reversed less (imap (profile_entry (idf_value text q)) (occ_profile text q))).
Proof.
  intros HB Hq Hin. rewrite (ranked_built text engine query HB), Hq.
  do 2 f_equal. rewrite <- (occ_profile_length text q).
  apply map_seq_imap. intros i p Hp. unfold entry, profile_entry. f_equal.
  unfold line_score, lookup_relevance. cbn [map Rsum foldr].
  rewrite (built_profile text engine q HB Hin), list_lookup_fmap, Hp. simpl. lra.
Qed.

(** A query none of whose words is spelled like a vocabulary entry scores
    every line 0. *)
Lemma ranked_unknown text engine query x :
  BuildIndex text = Ok engine →
  (∀ q, q ∈ GetUniqueWordsFromStringView query →
        q ∉ GetUniqueWordsFromStringView text) →
  ∀ lr, ranked engine query = Ok lr → x ∈ lr → relevance x = 0%R.
Proof.
  intros HB Hq lr. rewrite (ranked_built text engine query HB). intros [= <-].
  rewrite sort_reversed_perm. intros (i & -> & _)%list_elem_of_fmap.
  destruct (built_facts text engine HB) as (_ & _ & _ & _ & _ & R2).
  unfold entry, line_score. cbn [relevance].
  induction (GetUniqueWordsFromStringView query) as [|q qws IH]; [done|].
  cbn [map Rsum foldr]. fold (Rsum (map (lookup_relevance (words_relevance_in_lines_ engine) i) qws)).
  rewrite IH by (intros; apply Hq; set_solver).
  unfold lookup_relevance, at_key. rewrite R2 by (apply Hq; set_solver). simpl. lra.
Qed.

Lemma less_far a b :
  (relevance a + ERROR <= relevance b)%R → less a b = true ∧ less b a = false.
Proof.
  intros H. assert (0 < ERROR)%R as He by (unfold ERROR; apply Rinv_0_lt_compat; lra).
  unfold less. split.
  - rewrite decide_False.
    + apply bool_decide_eq_true_2. lra.
    + rewrite Rabs_left by lra. lra.
  - rewrite decide_False.
    + apply bool_decide_eq_false_2. lra.
    + rewrite Rabs_right by lra. lra.
Qed.

Lemma ERROR_value : ERROR = (1 / 1000000000)%R.
Proof. unfold ERROR. simpl. lra. Qed.

Lemma ERROR_pos : (0 < ERROR)%R.
Proof. rewrite ERROR_value. lra. Qed.

Lemma ranking_text_aligned : aligned (words_of_lines ranking_text).
Proof. vm_compute. reflexivity. Qed.

Lemma ranking_text_profile :
  occ_profile ranking_text "cat" = [(1, 2); (0, 2); (3, 3)] ∧
  df_count ranking_text "cat" = 2 ∧
  GetLinesFromText ranking_text = ["cat sat"; "dog ran"; "cat cat cat"] ∧
  GetUniqueWordsFromStringView ranking_text = ["cat"; "dog"; "ran"; "sat"] ∧
  GetUniqueWordsFromStringView "cat" = ["cat"].
Proof. vm_compute. repeat split. Qed.

Lemma ranking_text_idf :
  (/ 3 <= idf_value ranking_text "cat" <= / 2)%R.
Proof.
  unfold idf_value. destruct ranking_text_profile as (_ & -> & -> & _).
  rewrite decide_False by done. cbn [length INR].
  split.
  - pose proof (ln_ratio_lower (1 + 1 + 1) (1 + 1)). lra.
  - pose proof (ln_ratio_upper (1 + 1 + 1) (1 + 1)). lra.
Qed.

Lemma ranking_text_ranked engine :
  BuildIndex ranking_text = Ok engine →
  ranked engine "cat"
  = Ok [profile_entry (idf_value ranking_text "cat") 2 (3, 3);
        profile_entry (idf_value ranking_text "cat") 0 (1, 2);
        profile_entry (idf_value ranking_text "cat") 1 (0, 2)].
Proof.
  intros HB. destruct ranking_text_profile as (Hp & _ & _ & Hv & Hq).
  rewrite (ranked_single ranking_text engine "cat" "cat" HB Hq)
    by (rewrite Hv; apply list_elem_of_here).
  rewrite Hp. pose proof ranking_text_idf as HL. pose proof ERROR_value as HE.
  set (L := idf_value ranking_text "cat") in *. clearbody L.
  cbn [imap]. unfold compose.
  set (e0 := profile_entry L 0 (1, 2)).
  set (e1 := profile_entry L 1 (0, 2)).
  set (e2 := profile_entry L 2 (3, 3)).
  destruct (less_far e1 e0) as [_ H01]; [unfold e0, e1; cbn [profile_entry relevance fst snd INR]; lra|].
  destruct (less_far e1 e2) as [H12 _]; [unfold e1, e2; cbn [profile_entry relevance fst snd INR]; lra|].
  destruct (less_far e0 e2) as [H02 _]; [unfold e0, e2; cbn [profile_entry relevance fst snd INR]; lra|].
  unfold sort_reversed. cbn [reverse rev_append std_sort sort_insert].
  rewrite H01. cbn [sort_insert]. rewrite H12, H02. done.
Qed.

Lemma Search_eval text engine query k lr out :
  BuildIndex text = Ok engine → ranked engine query = Ok lr →
  Forall2 (λ x line, GetLinesFromText text !! pos x = Some line)
    (returned k lr 0) out →
  Search engine query k = Ok out.
Proof.
  intros HB Hr HF.
  destruct (Search_built text engine query k HB) as (lr' & out' & Hr' & -> & HF').
  rewrite Hr in Hr'. injection Hr' as <-.
  destruct (built_facts text engine HB) as (_ & _ & Hl & _). rewrite Hl in HF'.
  f_equal. revert out' HF'. induction HF as [|x line r o Hx _ IH]; intros out' HF'.
  - by inversion HF'.
  - inversion HF' as [|?? r' o' Hx' HF'']; subst. rewrite Hx in Hx'.
    injection Hx' as <-. f_equal. by apply IH.
Qed.

Lemma profile_entry_nonzero idf i o n :
  (0 < idf)%R → 0 < o → 0 < n → relevance (profile_entry idf i (o, n)) ≠ 0%R.
Proof.
  intros Hi Ho Hn. cbn [profile_entry relevance fst snd].
  apply lt_0_INR in Ho, Hn.
  assert (0 < INR o / INR n * idf)%R; [|lra].
  apply Rmult_lt_0_compat; [|done]. by apply Rdiv_lt_0_compat.
Qed.

(** C4.  After [BuildIndex] on "cat sat\ndog ran\ncat cat cat",
    [Search("cat", 2)] returns exactly "cat cat cat" followed by "cat sat":
    the third line scores [ln (3/2)], the first half of that, and
    "dog ran" scores 0 and is left out. *)
Theorem ranking_example :
  ∃ engine, BuildIndex ranking_text = Ok engine ∧
            Search engine "cat" 2 = Ok ["cat cat cat"; "cat sat"].
Proof.
  destruct (BuildIndex_aligned _ ranking_text_aligned) as (engine & HB & _).
  exists engine. split; [done|].
  apply (Search_eval ranking_text engine "cat" 2 _ _ HB (ranking_text_ranked engine HB)).
  destruct ranking_text_profile as (_ & _ & -> & _).
  pose proof ranking_text_idf as HL.
  cbn [returned Nat.leb orb].
  rewrite !bool_decide_eq_false_2 by (apply profile_entry_nonzero; [lra|lia..]).
  repeat constructor.
Qed.

(** ** Line splitting *)

Lemma GetLinesFromText_nonempty text :
  text ≠ EmptyString →
  Forall (λ line, 1 ≤ String.length line) (GetLinesFromText text).
Proof.
  intros H. rewrite GetLinesFromText_spec by done.
  apply Forall_forall. intros line. apply text_lines_nonempty.
Qed.

(** C3.  [GetLinesFromText] returns a line of length zero for the empty
    text: the body of the [do ... while] loop runs once before the test
    [start_pos < text.size()], [find] returns [npos], and [text.substr(0)],
    the empty view, is appended.  (On every other text all returned
    lines are non-empty, see [GetLinesFromText_nonempty].) *)
Theorem GetLinesFromText_empty_text :
  GetLinesFromText "" = [""] ∧
  ¬ Forall (λ line, 1 ≤ String.length line) (GetLinesFromText "").
Proof.
  split; [reflexivity|]. intros H. apply Forall_cons_1 in H as [H _].
  simpl in H. lia.
Qed.

(** ** Division in GetTFOfWordsInLine *)

(** C9.  [BuildIndex] never divides by a zero token count: its second
    loop, the only caller of [GetTFOfWordsInLine], completes without a
    fault on every text, every line it passes has at least one word, and
    no fault of [BuildIndex] is a division by zero. *)
Theorem BuildIndex_no_division_by_zero text :
  (∃ st, BuildIndex_tf text = Ok st) ∧
  (∀ i ws, words_of_lines text !! i = Some ws →
           i ∉ (collect_lines (GetLinesFromText text)).2 → ws ≠ []) ∧
  BuildIndex text ≠ Fault DivisionByZero.
Proof.
  split; [|split].
  - destruct (BuildIndex_tf_spec text) as (st & H & _). eauto.
  - intros i ws Hws Hi ->. by apply Hi, ignored_spec.
  - destruct (BuildIndex_cases text) as [[_ [e ->]]|[_ ->]]; done.
Qed.

(** ** Indexing of the score vectors *)

(** C2.  The score vectors have one entry per line with words, not one per
    retained line, and are read at the global line position.  On the text
    "1\na" the only scored line has position 1 while
    [word_tf_in_line["a"]] has one entry: [BuildIndex] reads out of
    range.  On "a\n1" the index is built and the vector of "a" has one
    entry for two retained lines. *)
Theorem BuildIndex_reads_out_of_range :
  BuildIndex leading_ignored_text = Fault OutOfRange ∧
  ∃ engine, BuildIndex trailing_ignored_text = Ok engine ∧
            length (lines_ engine) = 2 ∧
            length (at_key [] (words_relevance_in_lines_ engine) "a") = 1.
Proof.
  split.
  - apply BuildIndex_misaligned. intros H. vm_compute in H. discriminate.
  - assert (aligned (words_of_lines trailing_ignored_text)) as Hal
      by (vm_compute; reflexivity).
    destruct (BuildIndex_aligned _ Hal) as (engine & HB & _ & Hl & _ & R1 & _).
    exists engine. split; [done|]. rewrite Hl, R1.
    + split; [reflexivity|]. rewrite length_map. reflexivity.
    + assert (GetUniqueWordsFromStringView trailing_ignored_text = ["a"]) as ->
        by reflexivity.
      apply list_elem_of_here.
Qed.

(** ** Inverse document frequency *)

(** C5.  After the third loop of [BuildIndex] the value stored for a
    vocabulary word [w] is [ln (N / df)] when [df > 0] and [0] when
    [df = 0], where [df] counts the lines with words whose term frequency
    for [w] is not zero and [N] is the number of retained lines. *)
Theorem BuildIndex_idf_formula text w :
  w ∈ GetUniqueWordsFromStringView text →
  ∃ st, BuildIndex_idf text = Ok st ∧
    let df := DF (GetUniqueWordsFromStringView text)
                (scored_words (words_of_lines text)) w in
    let N := length (GetLinesFromText text) in
    at_key 0%R st.2 w = if decide (df = 0) then 0%R else ln (INR N / INR df).
Proof.
  intros Hw. destruct (BuildIndex_idf_spec text) as (st & Hst & H1 & _).
  exists st. split; [done|]. by destruct (H1 w Hw) as [_ ->].
Qed.

Lemma BuildIndex_idf_formula_witness :
  ∃ st, BuildIndex_idf ranking_text = Ok st ∧
    let df := DF (GetUniqueWordsFromStringView ranking_text)
                (scored_words (words_of_lines ranking_text)) "cat" in
    let N := length (GetLinesFromText ranking_text) in
    at_key 0%R st.2 "cat" = if decide (df = 0) then 0%R else ln (INR N / INR df).
Proof.
  apply (BuildIndex_idf_formula ranking_text "cat").
  apply list_elem_of_In. vm_compute. tauto.
Defined.

(** ** Signs of the scores *)

Lemma relevance_of_nonneg text ws k : (0 <= relevance_of text ws k)%R.
Proof.
  unfold relevance_of. apply Rmult_le_pos; [apply TF_nonneg|].
  apply IDF_nonneg. rewrite <- words_of_lines_length. apply scored_words_length.
Qed.

Lemma built_vector text engine k v :
  BuildIndex text = Ok engine →
  words_relevance_in_lines_ engine !! k = Some v →
  k ∈ GetUniqueWordsFromStringView text ∧
  v = map (λ ws, relevance_of text ws k) (scored_words (words_of_lines text)).
Proof.
  intros HB Hv. destruct (built_facts text engine HB) as (_ & _ & _ & _ & R1 & R2).
  destruct (decide (k ∈ GetUniqueWordsFromStringView text)) as [Hk|Hk].
  - split; [done|]. rewrite <- (R1 k Hk). unfold at_key. by rewrite Hv.
  - rewrite (R2 k Hk) in Hv. done.
Qed.

(** C8.  After [BuildIndex] every entry of the relevance table is at
    least zero; the entry of a word at a line in which it does not occur
    is zero, so a word occurring in no scored line has relevance zero on
    every line. *)
Theorem relevance_nonnegative text engine :
  BuildIndex text = Ok engine →
  (∀ k v, words_relevance_in_lines_ engine !! k = Some v →
          Forall (λ x, (0 <= x)%R) v) ∧
  (∀ k v j ws,
     words_relevance_in_lines_ engine !! k = Some v →
     scored_words (words_of_lines text) !! j = Some ws →
     occurrences (GetUniqueWordsFromStringView text) k ws = 0 →
     v !! j = Some 0%R) ∧
  (∀ k v,
     words_relevance_in_lines_ engine !! k = Some v →
     (∀ ws, ws ∈ scored_words (words_of_lines text) →
            occurrences (GetUniqueWordsFromStringView text) k ws = 0) →
     Forall (λ x, x = 0%R) v).
Proof.
  intros HB.
  assert (Hzero : ∀ k ws, occurrences (GetUniqueWordsFromStringView text) k ws = 0 →
                          relevance_of text ws k = 0%R).
  { intros k ws H. unfold relevance_of, TF. rewrite H. simpl. unfold Rdiv. lra. }
  split; [|split].
  - intros k v Hv. destruct (built_vector text engine k v HB Hv) as [_ ->].
    apply Forall_forall. intros x (ws & -> & _)%list_elem_of_fmap.
    apply relevance_of_nonneg.
  - intros k v j ws Hv Hws Hocc.
    destruct (built_vector text engine k v HB Hv) as [_ ->].
    rewrite list_lookup_fmap, Hws. simpl. f_equal. by apply Hzero.
  - intros k v Hv Hocc. destruct (built_vector text engine k v HB Hv) as [_ ->].
    apply Forall_forall. intros x (ws & -> & Hws)%list_elem_of_fmap.
    by apply Hzero, Hocc.
Qed.

Lemma relevance_nonnegative_witness :
  ∃ engine, BuildIndex ranking_text = Ok engine ∧
    ∀ k v, words_relevance_in_lines_ engine !! k = Some v →
           Forall (λ x, (0 <= x)%R) v.
Proof.
  destruct (BuildIndex_aligned _ ranking_text_aligned) as (engine & HB & _).
  exists engine. split; [exact HB|].
  exact (proj1 (relevance_nonnegative ranking_text engine HB)).
Defined.

(** ** Term frequencies of a line *)

Lemma sum_list_map_add {A} (f g : A → nat) l :
  sum_list (map (λ k, f k + g k) l) = sum_list (map f l) + sum_list (map g l).
Proof. induction l as [|x l IH]; simpl; [done|]. rewrite IH. lia. Qed.

Lemma sum_indicator (l : list string) (o : option string) y :
  NoDup l → o = Some y → y ∈ l →
  sum_list (map (λ k, if decide (o = Some k) then 1 else 0) l) = 1.
Proof.
  intros Hnd -> Hy. induction Hnd as [|x l Hx Hnd IH]; [by apply elem_of_nil in Hy|].
  simpl. apply elem_of_cons in Hy as [->|Hy].
  - rewrite decide_True by done.
    assert (sum_list (map (λ k, if decide (Some x = Some k) then 1 else 0) l) = 0) as ->;
      [|done].
    clear IH Hnd. induction l as [|z l IH]; [done|]. simpl.
    apply not_elem_of_cons in Hx as [Hne Hx].
    rewrite decide_False by congruence. by apply IH.
  - rewrite decide_False by (intros [= ->]; done). by rewrite IH.
Qed.

Lemma occurrences_sum voc ws :
  set_ok voc → (∀ w, w ∈ ws → ∃ y, set_find voc w = Some y) →
  sum_list (map (λ k, occurrences voc k ws) voc) = length ws.
Proof.
  intros Hvoc. induction ws as [|w ws IH]; intros Hws.
  - assert (∀ l, sum_list (map (λ k, occurrences voc k []) l) = 0) as H0
      by (induction l; simpl; auto).
    apply H0.
  - assert (Heq : map (λ k, occurrences voc k (w :: ws)) voc
                  = map (λ k, (if decide (set_find voc w = Some k) then 1 else 0)
                              + occurrences voc k ws) voc)
      by (apply map_ext; intros; apply occurrences_cons).
    rewrite Heq, sum_list_map_add, IH by (intros; apply Hws; set_solver).
    destruct (Hws w) as [y Hy]; [set_solver|].
    rewrite (sum_indicator voc _ y); [done|by apply set_ok_NoDup|done|].
    by apply set_find_spec in Hy as [? _].
Qed.

Lemma Rsum_INR {A} (f : A → nat) l :
  Rsum (map (λ k, INR (f k)) l) = INR (sum_list (map f l)).
Proof.
  induction l as [|x l IH]; [done|]. cbn [map Rsum foldr sum_list].
  fold (Rsum (map (λ k, INR (f k)) l)). by rewrite IH, plus_INR.
Qed.

Lemma Rsum_div {A} (f : A → R) c l :
  Rsum (map (λ k, f k / c)%R l) = (Rsum (map f l) / c)%R.
Proof.
  induction l as [|x l IH]; cbn [map Rsum foldr].
  - unfold Rdiv. lra.
  - fold (Rsum (map (λ k, f k / c)%R l)). fold (Rsum (map f l)). rewrite IH.
    unfold Rdiv. lra.
Qed.

(** C10.  For a line with words of a built text, every word of the line
    is matched by a vocabulary entry, the match counters of
    [GetTFOfWordsInLine] add up to the number of words of the line, and
    the term frequencies it returns add up to 1 over the vocabulary. *)
Theorem term_frequencies_sum_to_one text i ws :
  words_of_lines text !! i = Some ws → ws ≠ [] →
  let voc := GetUniqueWordsFromStringView text in
  (∀ w, w ∈ ws → ∃ y, set_find voc w = Some y) ∧
  Rsum (map (at_key 0%R (fold_left (count_word voc) ws ∅)) voc) = INR (length ws) ∧
  ∃ tf, GetTFOfWordsInLine ws voc = Ok tf ∧ Rsum (map (at_key 0%R tf) voc) = 1%R.
Proof.
  intros Hws Hne voc.
  assert (Hfind : ∀ w, w ∈ ws → ∃ y, set_find voc w = Some y).
  { intros w Hw. apply (scored_vocabulary text ws w); [|done].
    by eapply list_elem_of_lookup_2. }
  pose proof (GetUniqueWords_ok text) as Hvoc. fold voc in Hvoc.
  pose proof (occurrences_sum voc ws Hvoc Hfind) as Hsum.
  split; [done|]. split.
  - rewrite <- Hsum, <- Rsum_INR. f_equal. apply map_ext. intros k.
    rewrite count_loop_spec, at_key_empty. lra.
  - destruct (GetTF_spec ws voc Hne Hvoc) as (tf & Htf & Hk).
    exists tf. split; [done|].
    assert (map (at_key 0%R tf) voc
            = map (λ k, INR (occurrences voc k ws) / INR (length ws))%R voc) as ->
      by (apply map_ext; intros; apply Hk).
    rewrite (Rsum_div (λ k, INR (occurrences voc k ws))), Rsum_INR, Hsum.
    apply Rdiv_diag. apply not_0_INR. by destruct ws.
Qed.

Lemma term_frequencies_sum_to_one_witness :
  let voc := GetUniqueWordsFromStringView ranking_text in
  (∀ w, w ∈ ["cat"; "cat"; "cat"] → ∃ y, set_find voc w = Some y) ∧
  Rsum (map (at_key 0%R (fold_left (count_word voc) ["cat"; "cat"; "cat"] ∅)) voc)
  = INR 3 ∧
  ∃ tf, GetTFOfWordsInLine ["cat"; "cat"; "cat"] voc = Ok tf ∧
        Rsum (map (at_key 0%R tf) voc) = 1%R.
Proof.
  apply (term_frequencies_sum_to_one ranking_text 2 ["cat"; "cat"; "cat"]).
  - reflexivity.
  - discriminate.
Defined.

(** ** Results of Search *)

Lemma Rsum_nonneg l : Forall (λ x, (0 <= x)%R) l → (0 <= Rsum l)%R.
Proof.
  induction 1 as [|x l Hx _ IH]; cbn [Rsum foldr]; [lra|].
  fold (Rsum l). lra.
Qed.

Lemma line_score_nonneg text engine qws i :
  BuildIndex text = Ok engine →
  (0 <= line_score (words_relevance_in_lines_ engine) qws i)%R.
Proof.
  intros HB. unfold line_score. apply Rsum_nonneg, Forall_forall.
  intros x (q & -> & _)%list_elem_of_fmap. unfold lookup_relevance, at_key.
  destruct (words_relevance_in_lines_ engine !! q) as [v|] eqn:Hv; simpl; [|lra].
  destruct (v !! i) as [y|] eqn:Hy; simpl; [|lra].
  destruct (relevance_nonnegative text engine HB) as [H _].
  specialize (H q v Hv). rewrite Forall_forall in H. apply H.
  by eapply list_elem_of_lookup_2.
Qed.

(** C7.  On a built index [Search] returns, for every query and
    [results_count], at most [results_count] lines (none when it is 0);
    every returned line is the line of a ranked entry whose computed score
    is strictly positive, and is not an ignored line. *)
Theorem Search_results text engine query results_count :
  BuildIndex text = Ok engine →
  ∃ result lines_relevance,
    Search engine query results_count = Ok result ∧
    ranked engine query = Ok lines_relevance ∧
    length result ≤ results_count ∧
    (results_count = 0 → result = []) ∧
    Forall (λ line, ∃ x,
              x ∈ lines_relevance ∧
              lines_ engine !! pos x = Some line ∧
              (0 < relevance x)%R ∧
              (pos x ∉ ignore_list_ engine) ∧
              GetWordsFromStringView line ≠ []) result.
Proof.
  intros HB.
  destruct (Search_built text engine query results_count HB)
    as (lr & out & Hr & Hs & HF).
  exists out, lr. split; [done|]. split; [done|].
  pose proof (returned_length results_count lr 0) as Hlen.
  apply Forall2_length in HF as Hlen2. split; [lia|]. split.
  { intros ->. destruct out; [done|simpl in *; lia]. }
  destruct (built_facts text engine HB) as (Hal & _ & Hl & Hi & _).
  apply Forall_forall. intros line Hline.
  apply list_elem_of_lookup in Hline as [j Hj].
  destruct (Forall2_lookup_r _ _ _ _ _ HF Hj) as (x & Hx & Hline).
  apply list_elem_of_lookup_2 in Hx.
  exists x. split; [by eapply returned_elem|]. split; [done|].
  pose proof (returned_nonzero _ _ _ _ Hx) as Hnz.
  apply returned_elem in Hx.
  rewrite (ranked_built text engine query HB) in Hr. injection Hr as <-.
  rewrite sort_reversed_perm in Hx.
  apply list_elem_of_fmap in Hx as (i & -> & Hin). apply elem_of_seq in Hin.
  cbn [entry relevance pos] in *.
  destruct (aligned_lookup (words_of_lines text) i Hal) as [Hsc _].
  destruct Hsc as (ws & Hws & _ & Hne); [lia|].
  split; [|split].
  - pose proof (line_score_nonneg text engine (GetUniqueWordsFromStringView query) i HB).
    lra.
  - rewrite Hi, ignored_spec, Hws. by intros [= ->].
  - rewrite Hl in Hline. unfold words_of_lines in Hws.
    rewrite list_lookup_fmap, Hline in Hws. by injection Hws as ->.
Qed.

Lemma Search_results_witness :
  ∃ engine result,
    BuildIndex ranking_text = Ok engine ∧
    Search engine "cat" 2 = Ok result ∧ length result ≤ 2.
Proof.
  destruct (BuildIndex_aligned _ ranking_text_aligned) as (engine & HB & _).
  destruct (Search_results ranking_text engine "cat" 2 HB)
    as (result & lr & Hs & _ & Hlen & _).
  exists engine, result. split; [exact HB|]. split; [exact Hs|exact Hlen].
Defined.

(** ** Case of the query words *)

Lemma returned_zero k lr i :
  Forall (λ x, relevance x = 0%R) lr → returned k lr i = [].
Proof.
  intros [|x lr' Hx _]; [done|]. simpl.
  rewrite bool_decide_eq_true_2 by done. by rewrite orb_true_r.
Qed.

Lemma fruit_text_aligned : aligned (words_of_lines fruit_text).
Proof. vm_compute. reflexivity. Qed.

Lemma fruit_text_profile :
  occ_profile fruit_text "apple" = [(1, 1); (0, 1)] ∧
  df_count fruit_text "apple" = 1 ∧
  GetLinesFromText fruit_text = ["apple"; "banana"] ∧
  GetUniqueWordsFromStringView fruit_text = ["apple"; "banana"] ∧
  GetUniqueWordsFromStringView "apple" = ["apple"] ∧
  GetUniqueWordsFromStringView "Apple" = ["Apple"].
Proof. vm_compute. repeat split. Qed.

Lemma fruit_text_idf : (/ 2 <= idf_value fruit_text "apple")%R.
Proof.
  unfold idf_value. destruct fruit_text_profile as (_ & -> & -> & _).
  rewrite decide_False by done. cbn [length INR].
  pose proof (ln_ratio_lower (1 + 1) 1). lra.
Qed.

(** C1.  [Search] looks the query words up in the relevance table by
    their exact spelling.  On the index of "apple\nbanana" the query
    "apple" returns the line "apple" and the query "Apple" returns
    nothing. *)
Theorem Search_case_sensitive :
  ∃ engine, BuildIndex fruit_text = Ok engine ∧
            Search engine "apple" 1 = Ok ["apple"] ∧
            Search engine "Apple" 1 = Ok [].
Proof.
  destruct (BuildIndex_aligned _ fruit_text_aligned) as (engine & HB & _).
  exists engine. split; [done|].
  destruct fruit_text_profile as (Hp & _ & Hl & Hv & Hq & HQ). split.
  - pose proof (ranked_single fruit_text engine "apple" "apple" HB Hq) as Hr.
    rewrite Hp in Hr. specialize (Hr ltac:(rewrite Hv; apply list_elem_of_here)).
    apply (Search_eval fruit_text engine "apple" 1 _ _ HB Hr). rewrite Hl.
    pose proof fruit_text_idf as HL. pose proof ERROR_value as HE.
    set (L := idf_value fruit_text "apple") in *. clearbody L.
    cbn [imap]. unfold compose.
    set (e0 := profile_entry L 0 (1, 1)). set (e1 := profile_entry L 1 (0, 1)).
    destruct (less_far e1 e0) as [_ H01];
      [unfold e0, e1; cbn [profile_entry relevance fst snd INR]; lra|].
    unfold sort_reversed. cbn [reverse rev_append std_sort sort_insert].
    rewrite H01. cbn [rev_append returned Nat.leb orb].
    rewrite bool_decide_eq_false_2 by (apply profile_entry_nonzero; [lra|lia..]).
    repeat constructor.
  - destruct (Search_built fruit_text engine "Apple" 1 HB) as (lr & out & Hr & -> & HF).
    rewrite returned_zero in HF.
    + by inversion HF.
    + apply Forall_forall. intros x Hx.
      refine (ranked_unknown fruit_text engine "Apple" x HB _ lr Hr Hx).
      intros q. rewrite HQ, Hv. intros Hq' Hin.
      apply list_elem_of_singleton in Hq' as ->.
      apply elem_of_cons in Hin as [H|Hin]; [discriminate|].
      apply elem_of_cons in Hin as [H|Hin]; [discriminate|].
      by apply elem_of_nil in Hin.
Qed.

(** ** Order of the results *)

Lemma tie_iff a b :
  tie a b ↔ (- ERROR < relevance a - relevance b < ERROR)%R.
Proof.
  unfold tie. split.
  - intros H. by apply Rabs_def2 in H as [? ?].
  - intros [? ?]. by apply Rabs_def1.
Qed.

Lemma tie_sym a b : tie a b → tie b a.
Proof. rewrite !tie_iff. lra. Qed.

Lemma less_tie a b : tie a b → less a b = (pos b <? pos a).
Proof. intros H. unfold less. by rewrite decide_True. Qed.

Lemma less_no_tie a b :
  ¬ tie a b → less a b = bool_decide (relevance a < relevance b)%R.
Proof. intros H. unfold less. by rewrite decide_False. Qed.

Lemma less_total a b :
  pos a ≠ pos b → less a b = false → less b a = true.
Proof.
  intros Hp. destruct (decide (tie a b)) as [Ht|Ht].
  - rewrite (less_tie a b Ht), (less_tie b a (tie_sym _ _ Ht)).
    intros H%Nat.ltb_ge. apply Nat.ltb_lt. lia.
  - assert (¬ tie b a) as Ht' by (intros ?%tie_sym; done).
    rewrite (less_no_tie a b Ht), (less_no_tie b a Ht').
    intros H%bool_decide_eq_false. apply bool_decide_eq_true.
    rewrite tie_iff in Ht. pose proof ERROR_pos. lra.
Qed.

Lemma less_trans a b c :
  (tie a b → tie b c → tie a c) →
  (tie b a → tie a c → tie b c) →
  (tie a c → tie c b → tie a b) →
  less a b = true → less b c = true → less a c = true.
Proof.
  intros T1 T2 T3. pose proof ERROR_pos as He.
  destruct (decide (tie a b)) as [Hab|Hab], (decide (tie b c)) as [Hbc|Hbc].
  - rewrite (less_tie a b Hab), (less_tie b c Hbc), (less_tie a c (T1 Hab Hbc)).
    rewrite !Nat.ltb_lt. lia.
  - assert (¬ tie a c) as Hac by (intros H; apply Hbc, T2; [by apply tie_sym|done]).
    rewrite (less_no_tie b c Hbc), (less_no_tie a c Hac).
    rewrite !bool_decide_eq_true. intros _ H.
    rewrite tie_iff in Hab, Hbc. lra.
  - assert (¬ tie a c) as Hac by (intros H; apply Hab, T3; [done|by apply tie_sym]).
    rewrite (less_no_tie a b Hab), (less_no_tie a c Hac).
    rewrite !bool_decide_eq_true. intros H _.
    rewrite tie_iff in Hab, Hbc. lra.
  - rewrite (less_no_tie a b Hab), (less_no_tie b c Hbc).
    rewrite !bool_decide_eq_true. intros H1 H2.
    assert (¬ tie a c) as Hac by (rewrite tie_iff in *; lra).
    rewrite (less_no_tie a c Hac). apply bool_decide_eq_true. lra.
Qed.

Lemma entries_NoDup rel qws (positions : list nat) :
  NoDup positions → NoDup (map (entry rel qws) positions).
Proof.
  intros H. assert (Inj eq eq (entry rel qws)) by (intros i j [= ?]; done).
  by apply NoDup_fmap_2.
Qed.

Lemma returned_sorted (R : relation RelevanceAndPos) k lr i :
  StronglySorted R lr → StronglySorted R (returned k lr i).
Proof.
  intros H. destruct (returned_prefix k lr i) as [n ->].
  rewrite <- (take_drop n lr) in H. by apply StronglySorted_app_1_l in H.
Qed.

Lemma sorted_ranking_rule l :
  StronglySorted (λ a b, less b a = true) l → ranking_rule l.
Proof.
  intros Hs i j a b Hij Ha Hb.
  pose proof (StronglySorted_lookup_lt _ l i j a b Hs Hij Ha Hb) as H.
  simpl in H. split.
  - intros Ht. rewrite (less_tie b a (tie_sym _ _ Ht)) in H. by apply Nat.ltb_lt.
  - intros Ht. assert (¬ tie b a) as Ht' by (intros ?%tie_sym; done).
    rewrite (less_no_tie b a Ht') in H. by apply bool_decide_eq_true in H.
Qed.

(** C6, amended.  When "differing by less than the tolerance" is
    transitive among the scores of the ranked lines, the returned entries
    follow the ranking rule: ties in ascending position, other pairs in
    strictly descending score. *)
Theorem ranking_rule_transitive_ties text engine query results_count lr :
  BuildIndex text = Ok engine →
  ranked engine query = Ok lr →
  (∀ a b c, a ∈ lr → b ∈ lr → c ∈ lr → tie a b → tie b c → tie a c) →
  ranking_rule (returned results_count lr 0).
Proof.
  intros HB Hr Htrans. apply sorted_ranking_rule, returned_sorted.
  rewrite (ranked_built text engine query HB) in Hr. injection Hr as Hr.
  set (entries := map _ _) in Hr.
  assert (Hin : ∀ x, x ∈ entries ↔ x ∈ lr)
    by (intros x; by rewrite <- Hr, sort_reversed_perm).
  rewrite <- Hr.
  apply (sort_reversed_sorted less (λ x, x ∈ entries)).
  - intros a b Ha Hb Hne Hlt. apply less_total; [|exact Hlt]. intros Hp. apply Hne.
    apply list_elem_of_fmap in Ha as (ia & -> & _).
    apply list_elem_of_fmap in Hb as (ib & -> & _).
    simpl in Hp. by subst.
  - intros a b c Ha Hb Hc H1 H2. apply Hin in Ha, Hb, Hc.
    apply (less_trans a b c); [| | |exact H1|exact H2].
    + by apply Htrans.
    + by apply Htrans.
    + by apply Htrans.
  - by apply Forall_forall.
  - apply entries_NoDup, NoDup_seq.
Qed.

Lemma words_of_lines_vocabulary text :
  GetUniqueWordsFromStringView text
  = fold_left set_insert (concat (words_of_lines text)) [].
Proof. by rewrite GetUniqueWords_tokens, GetWords_lines. Qed.

Lemma words_of_lines_runs text :
  text ≠ EmptyString →
  words_of_lines text
  = map (λ f, map str_of (runs not_alpha f)) (runs is_newline (chars text)).
Proof.
  intros H. unfold words_of_lines. rewrite GetLinesFromText_spec by done.
  unfold text_lines. rewrite map_map. apply map_ext. intros f.
  by rewrite GetWords_tokens, tokens_str_of.
Qed.

Lemma near_tie_words_of_lines : words_of_lines near_tie_text = near_tie_words.
Proof. rewrite words_of_lines_runs by done. lazy. reflexivity. Qed.

Lemma near_tie_vocabulary :
  GetUniqueWordsFromStringView near_tie_text = ["w"; "x"].
Proof.
  rewrite words_of_lines_vocabulary, near_tie_words_of_lines.
  lazy. reflexivity.
Qed.

Lemma near_tie_aligned : aligned (words_of_lines near_tie_text).
Proof. rewrite near_tie_words_of_lines. lazy. reflexivity. Qed.

Lemma near_tie_occ_profile : occ_profile near_tie_text "w" = near_tie_profile.
Proof.
  unfold occ_profile. rewrite near_tie_vocabulary, near_tie_words_of_lines.
  lazy. reflexivity.
Qed.

Lemma near_tie_counts :
  df_count near_tie_text "w" = 1503 ∧
  length (GetLinesFromText near_tie_text) = 1504.
Proof.
  split.
  - unfold df_count. rewrite near_tie_occ_profile. lazy. reflexivity.
  - rewrite <- words_of_lines_length, near_tie_words_of_lines.
    lazy. reflexivity.
Qed.

Lemma near_tie_idf :
  (/ 1504 <= idf_value near_tie_text "w" <= / 1503)%R.
Proof.
  unfold idf_value. destruct near_tie_counts as [-> ->].
  rewrite decide_False by done. rewrite !INR_IZR_INZ.
  change (Z.of_nat 1504) with 1504%Z. change (Z.of_nat 1503) with 1503%Z.
  split.
  - pose proof (ln_ratio_lower 1504 1503). lra.
  - pose proof (ln_ratio_upper 1504 1503). lra.
Qed.

Lemma profile_entries_pos idf a (l : list (nat * nat)) :
  map pos (imap (λ i, profile_entry idf (a + i)) l) = seq a (length l).
Proof.
  revert a. induction l as [|p l IH]; intros a; [done|].
  cbn [imap map length seq]. rewrite Nat.add_0_r. f_equal.
  rewrite <- (IH (S a)). f_equal. apply imap_ext. intros i x _. simpl.
  f_equal. lia.
Qed.

Lemma profile_entries_NoDup idf (l : list (nat * nat)) :
  NoDup (imap (profile_entry idf) l).
Proof.
  apply (NoDup_fmap_1 pos).
  rewrite (imap_ext _ (λ i, profile_entry idf (0 + i)) l) by done.
  rewrite profile_entries_pos. apply NoDup_seq.
Qed.

Lemma profile_entry_relevance idf i o n :
  relevance (profile_entry idf i (o, n))
  = (IZR (Z.of_nat o) / IZR (Z.of_nat n) * idf)%R.
Proof. cbn [profile_entry relevance fst snd]. by rewrite !INR_IZR_INZ. Qed.

Lemma near_tie_profile_lookup i p :
  near_tie_profile !! i = Some p →
  (i = 0 ∧ p = (500, 1001)) ∨ (i = 1 ∧ p = (501, 1003)) ∨
  (i = 2 ∧ p = (502, 1005)) ∨ (i = 3 ∧ p = (0, 1)) ∨ (4 ≤ i ∧ p = (1, 1)).
Proof.
  unfold near_tie_profile. remember (replicate 1500 (1, 1)) as tail eqn:Et.
  intros H. destruct i as [|[|[|[|i]]]]; simpl in H.
  - left. by injection H as <-.
  - right; left. by injection H as <-.
  - right; right; left. by injection H as <-.
  - right; right; right; left. by injection H as <-.
  - right; right; right; right. subst tail.
    apply lookup_replicate in H as [-> _]. split; [lia|done].
Qed.

(** Three entries tied in a chain but not at its ends cannot be put in an
    order that follows the ranking rule. *)
Lemma cycle_breaks_rule l a b c :
  a ∈ l → b ∈ l → c ∈ l →
  tie a b → tie b c → ¬ tie a c →
  pos a < pos b → pos b < pos c → (relevance a < relevance c)%R →
  ¬ ranking_rule l.
Proof.
  intros [ia Ha]%list_elem_of_lookup [ib Hb]%list_elem_of_lookup
         [ic Hc]%list_elem_of_lookup Hab Hbc Hac Pab Pbc Rac Hrule.
  assert (ia < ib) as Hiab.
  { destruct (Nat.lt_trichotomy ia ib) as [?|[->|Hlt]]; [done|..].
    - rewrite Ha in Hb. injection Hb as ->. lia.
    - destruct (Hrule ib ia b a Hlt Hb Ha) as [H _].
      specialize (H (tie_sym _ _ Hab)). lia. }
  assert (ib < ic) as Hibc.
  { destruct (Nat.lt_trichotomy ib ic) as [?|[->|Hlt]]; [done|..].
    - rewrite Hb in Hc. injection Hc as ->. lia.
    - destruct (Hrule ic ib c b Hlt Hc Hb) as [H _].
      specialize (H (tie_sym _ _ Hbc)). lia. }
  destruct (Hrule ia ic a c ltac:(lia) Ha Hc) as [_ H]. specialize (H Hac). lra.
Qed.

(** When one entry scores 0 and all the others at least the tolerance,
    [Search] with a large enough [results_count] returns all the others. *)
Lemma returned_all_but_zero (entries : list RelevanceAndPos) z k :
  NoDup entries → z ∈ entries → relevance z = 0%R →
  (∀ y, y ∈ entries → y ≠ z → (ERROR <= relevance y)%R) →
  length entries ≤ k →
  ∀ y, y ∈ entries → y ≠ z → y ∈ returned k (sort_reversed less entries) 0.
Proof.
  intros Hnd Hz Rz Hfar Hk. pose proof ERROR_pos as He.
  destruct (std_sort_least less z (reverse entries)) as [rest Hrest].
  { by rewrite elem_of_reverse. }
  { by rewrite reverse_Permutation. }
  { intros y Hy Hne. rewrite elem_of_reverse in Hy. apply less_far.
    specialize (Hfar y Hy Hne). lra. }
  assert (Hperm : z :: rest ≡ₚ entries).
  { by rewrite <- Hrest, std_sort_perm, reverse_Permutation. }
  assert (Hrest_in : ∀ y, y ∈ rest → y ∈ entries ∧ y ≠ z).
  { intros y Hy. split.
    - rewrite <- Hperm. by apply elem_of_cons; right.
    - intros ->. rewrite <- Hperm in Hnd. by apply NoDup_cons in Hnd as [Hnd _]. }
  unfold sort_reversed. rewrite Hrest, reverse_cons.
  rewrite returned_stop; [| | |exact Rz].
  - intros y Hy Hne. rewrite elem_of_reverse. rewrite <- Hperm in Hy.
    by apply elem_of_cons in Hy as [->|Hy].
  - rewrite length_reverse. apply Permutation_length in Hperm.
    simpl in Hperm. lia.
  - apply Forall_forall. intros y Hy. rewrite elem_of_reverse in Hy.
    destruct (Hrest_in y Hy) as [Hy' Hne]. specialize (Hfar y Hy' Hne). lra.
Qed.

Lemma near_tie_entries L :
  (/ 1504 <= L <= / 1503)%R →
  NoDup (imap (profile_entry L) near_tie_profile) ∧
  length (imap (profile_entry L) near_tie_profile) = 1504 ∧
  profile_entry L 0 (500, 1001) ∈ imap (profile_entry L) near_tie_profile ∧
  profile_entry L 1 (501, 1003) ∈ imap (profile_entry L) near_tie_profile ∧
  profile_entry L 2 (502, 1005) ∈ imap (profile_entry L) near_tie_profile ∧
  profile_entry L 3 (0, 1) ∈ imap (profile_entry L) near_tie_profile ∧
  ∀ y, y ∈ imap (profile_entry L) near_tie_profile →
       y ≠ profile_entry L 3 (0, 1) → (ERROR <= relevance y)%R.
Proof.
  intros HL. pose proof ERROR_value as HE.
  assert (Hin : ∀ i p, near_tie_profile !! i = Some p →
                       profile_entry L i p ∈ imap (profile_entry L) near_tie_profile).
  { intros i p Hp. apply elem_of_lookup_imap. eauto. }
  split; [apply profile_entries_NoDup|].
  split; [rewrite length_imap; reflexivity|].
  do 4 (split; [apply Hin; reflexivity|]).
  intros y Hy Hne. apply elem_of_lookup_imap in Hy as (i & p & -> & Hp).
  destruct (near_tie_profile_lookup i p Hp)
    as [[-> ->]|[[-> ->]|[[-> ->]|[[-> ->]|[_ ->]]]]];
    rewrite profile_entry_relevance.
  - change (Z.of_nat 500) with 500%Z. change (Z.of_nat 1001) with 1001%Z. lra.
  - change (Z.of_nat 501) with 501%Z. change (Z.of_nat 1003) with 1003%Z. lra.
  - change (Z.of_nat 502) with 502%Z. change (Z.of_nat 1005) with 1005%Z. lra.
  - destruct Hne. reflexivity.
  - change (Z.of_nat 1) with 1%Z. lra.
Qed.

(** C6, as stated, fails.  On [near_tie_text] with the query "w" the
    scores of lines 0, 1 and 2 increase with the position; lines 0 and 1
    and lines 1 and 2 differ by less than the tolerance, lines 0 and 2 by
    more.  All three are returned, and no order of them follows the
    ranking rule. *)
Lemma ranking_rule_counterexample :
  ∃ engine lr,
    BuildIndex near_tie_text = Ok engine ∧
    ranked engine "w" = Ok lr ∧
    ¬ ranking_rule (returned 2000 lr 0).
Proof.
  destruct (BuildIndex_aligned _ near_tie_aligned) as (engine & HB & _).
  assert (ranked engine "w"
          = Ok (sort_reversed less
                  (imap (profile_entry (idf_value near_tie_text "w")) near_tie_profile)))
    as Hr.
  { rewrite <- near_tie_occ_profile.
    apply (ranked_single near_tie_text engine "w" "w" HB); [reflexivity|].
    rewrite near_tie_vocabulary. apply list_elem_of_here. }
  pose proof near_tie_idf as HL. pose proof ERROR_value as HE.
  revert Hr HL. generalize (idf_value near_tie_text "w"). intros L Hr HL.
  destruct (near_tie_entries L HL) as (Hnd & Hlen & H0 & H1 & H2 & Hz & Hfar).
  revert Hr Hnd Hlen H0 H1 H2 Hz Hfar.
  generalize (imap (profile_entry L) near_tie_profile).
  intros entries Hr Hnd Hlen H0 H1 H2 Hz Hfar.
  exists engine, (sort_reversed less entries).
  split; [exact HB|]. split; [exact Hr|].
  assert (Rz : relevance (profile_entry L 3 (0, 1)) = 0%R).
  { rewrite profile_entry_relevance. change (Z.of_nat 0) with 0%Z. lra. }
  pose proof (returned_all_but_zero entries _ 2000 Hnd Hz Rz Hfar ltac:(lia)) as Hret.
  pose proof (profile_entry_relevance L 0 500 1001) as R0.
  pose proof (profile_entry_relevance L 1 501 1003) as R1.
  pose proof (profile_entry_relevance L 2 502 1005) as R2.
  change (Z.of_nat 500) with 500%Z in R0. change (Z.of_nat 1001) with 1001%Z in R0.
  change (Z.of_nat 501) with 501%Z in R1. change (Z.of_nat 1003) with 1003%Z in R1.
  change (Z.of_nat 502) with 502%Z in R2. change (Z.of_nat 1005) with 1005%Z in R2.
  apply (cycle_breaks_rule _ (profile_entry L 0 (500, 1001))
           (profile_entry L 1 (501, 1003)) (profile_entry L 2 (502, 1005))).
  - apply Hret; [exact H0|]. intros H. apply (f_equal pos) in H. discriminate H.
  - apply Hret; [exact H1|]. intros H. apply (f_equal pos) in H. discriminate H.
  - apply Hret; [exact H2|]. intros H. apply (f_equal pos) in H. discriminate H.
  - apply tie_iff. lra.
  - apply tie_iff. lra.
  - rewrite tie_iff. lra.
  - simpl. lia.
  - simpl. lia.
  - lra.
Qed.

Lemma ranking_text_no_ties L (a b : RelevanceAndPos) :
  (/ 3 <= L)%R →
  a ∈ [profile_entry L 2 (3, 3); profile_entry L 0 (1, 2); profile_entry L 1 (0, 2)] →
  b ∈ [profile_entry L 2 (3, 3); profile_entry L 0 (1, 2); profile_entry L 1 (0, 2)] →
  tie a b → a = b.
Proof.
  intros HL Ha Hb. pose proof ERROR_value as HE. rewrite tie_iff.
  repeat (apply elem_of_cons in Ha as [->|Ha]); [| | |by apply elem_of_nil in Ha];
    (repeat (apply elem_of_cons in Hb as [->|Hb]); [| | |by apply elem_of_nil in Hb]);
    cbn [profile_entry relevance fst snd INR]; intros Ht;
    first [reflexivity | exfalso; lra].
Qed.

Lemma ranking_rule_transitive_ties_witness :
  ∃ engine lr,
    BuildIndex ranking_text = Ok engine ∧
    ranked engine "cat" = Ok lr ∧
    ranking_rule (returned 2 lr 0).
Proof.
  destruct (BuildIndex_aligned _ ranking_text_aligned) as (engine & HB & _).
  exists engine. eexists. split; [exact HB|].
  split; [exact (ranking_text_ranked engine HB)|].
  apply (ranking_rule_transitive_ties ranking_text engine "cat" 2 _ HB
           (ranking_text_ranked engine HB)).
  intros a b c Ha Hb Hc Hab Hbc.
  destruct ranking_text_idf as [HL _].
  rewrite (ranking_text_no_ties _ a b HL Ha Hb Hab). exact Hbc.
Defined.

(** * Further properties of the search engine *)

(** ** The order Comp *)

(** X1.  [Comp] is a strict weak order: it is irreflexive and transitive,
    and two views are equivalent for it (neither is less) exactly when
    their lower-cased characters agree. *)
Theorem Comp_strict_weak_order :
  (∀ x, Comp x x = false) ∧
  (∀ x y z, Comp x y = true → Comp y z = true → Comp x z = true) ∧
  (∀ x y, equiv_key x y = true ↔ map tolower (chars x) = map tolower (chars y)).
Proof.
  split; [apply Comp_irrefl|]. split; [apply Comp_trans|]. apply equiv_key_spec.
Qed.

(** ** insert and find of the ordered set *)

Lemma set_insert_present s x y :
  set_ok s → set_find s x = Some y → set_insert s x = s.
Proof.
  unfold set_ok. induction 1 as [|z s Hs IH Hz]; simpl; [done|].
  destruct (Comp x z) eqn:E1; [done|]. destruct (Comp z x) eqn:E2; [|done].
  intros H. by rewrite IH.
Qed.

Lemma set_find_insert_absent s x :
  set_ok s → set_find s x = None → set_find (set_insert s x) x = Some x.
Proof.
  unfold set_ok. induction 1 as [|z s Hs IH Hz]; simpl.
  - by rewrite Comp_irrefl.
  - destruct (Comp x z) eqn:E1.
    + intros _. simpl. by rewrite Comp_irrefl.
    + destruct (Comp z x) eqn:E2; [|done]. intros H. simpl.
      rewrite E1, E2. by apply IH.
Qed.

(** X2.  Inserting into the ordered set and looking up: a key equivalent
    to a stored element leaves the set as it is and [find] keeps returning
    the stored element; a key without equivalent is stored and found
    itself.  The set stays strictly increasing for [Comp]. *)
Theorem set_insert_find s x :
  StronglySorted (λ a b, Comp a b = true) s →
  StronglySorted (λ a b, Comp a b = true) (set_insert s x) ∧
  (∀ y, set_find s x = Some y →
        set_insert s x = s ∧ set_find (set_insert s x) x = Some y) ∧
  (set_find s x = None → set_find (set_insert s x) x = Some x).
Proof.
  intros Hs. split; [by apply set_insert_ok|]. split.
  - intros y Hy. by rewrite (set_insert_present s x y).
  - by apply set_find_insert_absent.
Qed.

Lemma set_insert_find_witness :
  StronglySorted (λ a b, Comp a b = true) (set_insert ["apple"; "pie"] "Apple") ∧
  (∀ y, set_find ["apple"; "pie"] "Apple" = Some y →
        set_insert ["apple"; "pie"] "Apple" = ["apple"; "pie"] ∧
        set_find (set_insert ["apple"; "pie"] "Apple") "Apple" = Some y) ∧
  (set_find ["apple"; "pie"] "Apple" = None →
   set_find (set_insert ["apple"; "pie"] "Apple") "Apple" = Some "Apple").
Proof.
  apply (set_insert_find ["apple"; "pie"] "Apple").
  repeat constructor.
Defined.

(** ** Words and lines *)

Lemma fields_no_sep sep l f :
  f ∈ fields sep l → Forall (λ c, sep c = false) f.
Proof.
  revert f. induction l as [|c l IH]; intros f; simpl.
  - intros ->%list_elem_of_singleton. constructor.
  - destruct (sep c) eqn:E.
    + intros [->|H]%elem_of_cons; [constructor|by apply IH].
    + destruct (fields sep l) as [|g gs] eqn:F.
      * intros ->%list_elem_of_singleton. by repeat constructor.
      * intros [->|H]%elem_of_cons.
        -- constructor; [done|]. apply IH. by left.
        -- apply IH. by right.
Qed.

Lemma fields_concat sep l :
  concat (fields sep l) = filter (λ c, sep c = false) l.
Proof.
  induction l as [|c l IH]; simpl; [done|].
  destruct (sep c) eqn:E.
  - rewrite filter_cons_False by (by rewrite E). done.
  - rewrite filter_cons_True by done. rewrite <- IH.
    by destruct (fields sep l).
Qed.

Lemma runs_concat sep l :
  concat (runs sep l) = filter (λ c, sep c = false) l.
Proof.
  rewrite <- fields_concat. unfold runs.
  induction (fields sep l) as [|f fs IH]; [done|]. destruct f.
  - by rewrite filter_cons_False by naive_solver.
  - rewrite filter_cons_True by done. simpl. by rewrite IH.
Qed.

Lemma runs_no_sep sep l f :
  f ∈ runs sep l → f ≠ [] ∧ Forall (λ c, sep c = false) f.
Proof.
  unfold runs. rewrite list_elem_of_filter. intros [? ?]. split; [done|].
  by eapply fields_no_sep.
Qed.

(** X3.  The words [GetWordsFromStringView] returns are non-empty and made
    of alphabetic characters only, and together, in order, they are
    exactly the alphabetic characters of the view. *)
Theorem GetWords_alphabetic str :
  Forall (λ w, w ≠ EmptyString ∧ Forall (λ c, isalpha c = true) (chars w))
    (GetWordsFromStringView str) ∧
  concat (map chars (GetWordsFromStringView str))
  = filter (λ c, isalpha c = true) (chars str).
Proof.
  rewrite GetWords_tokens. unfold tokens. split.
  - apply Forall_forall. intros w (f & -> & Hf)%list_elem_of_fmap.
    apply runs_no_sep in Hf as [Hne Hf]. rewrite chars_str_of. split.
    + by destruct f.
    + eapply Forall_impl; [exact Hf|]. intros c. unfold not_alpha.
      by destruct (isalpha c).
  - rewrite map_map.
    rewrite (map_ext (λ f, chars (str_of f)) (λ f, f)) by (intros; apply chars_str_of).
    rewrite map_id, runs_concat. apply list_filter_iff. intros c.
    unfold not_alpha. by destruct (isalpha c).
Qed.

(** X4.  On a non-empty text the lines [GetLinesFromText] returns are
    non-empty and free of newline characters, and together, in order,
    they are the text without its newline characters. *)
Theorem GetLinesFromText_lines text :
  text ≠ EmptyString →
  Forall (λ line, 1 ≤ String.length line ∧
                  Forall (λ c, c ≠ newline) (chars line))
    (GetLinesFromText text) ∧
  concat (map chars (GetLinesFromText text))
  = filter (λ c, c ≠ newline) (chars text).
Proof.
  intros Hne. rewrite GetLinesFromText_spec by done. unfold text_lines. split.
  - apply Forall_forall. intros w (f & -> & Hf)%list_elem_of_fmap.
    apply runs_no_sep in Hf as [Hf0 Hf]. rewrite chars_str_of. split.
    + destruct f; [done|simpl; lia].
    + eapply Forall_impl; [exact Hf|]. intros c. unfold is_newline.
      intros H ->. by rewrite Ascii.eqb_refl in H.
  - rewrite map_map.
    rewrite (map_ext (λ f, chars (str_of f)) (λ f, f)) by (intros; apply chars_str_of).
    rewrite map_id, runs_concat. apply list_filter_iff. intros c.
    unfold is_newline. destruct (Ascii.eqb_spec c newline); naive_solver.
Qed.

Lemma GetLinesFromText_lines_witness :
  Forall (λ line, 1 ≤ String.length line ∧
                  Forall (λ c, c ≠ newline) (chars line))
    (GetLinesFromText ranking_text) ∧
  concat (map chars (GetLinesFromText ranking_text))
  = filter (λ c, c ≠ newline) (chars ranking_text).
Proof. apply (GetLinesFromText_lines ranking_text). discriminate. Defined.

(** X5.  Tokenizing a text gives the same words as tokenizing its lines
    one after the other. *)
Theorem GetWords_of_lines text :
  GetWordsFromStringView text
  = concat (map GetWordsFromStringView (GetLinesFromText text)).
Proof. apply GetWords_lines. Qed.

(** ** The vocabulary *)

Lemma fold_insert_first ws s y :
  set_ok s → y ∈ fold_left set_insert ws s →
  y ∈ s ∨ ∃ pre post, ws = pre ++ y :: post ∧
                      (∀ z, z ∈ pre → key z ≠ key y) ∧
                      (∀ z, z ∈ s → key z ≠ key y).
Proof.
  revert s. induction ws as [|w ws IH]; intros s Hs; simpl; [by left|].
  intros Hy. destruct (IH (set_insert s w) (set_insert_ok s w Hs) Hy)
    as [Hin|(pre & post & -> & Hpre & Hs')].
  - destruct (set_find s w) as [z|] eqn:E.
    + rewrite (set_insert_present s w z Hs E) in Hin. by left.
    + apply set_insert_elem in Hin as [?| ->]; [by left|]. right.
      exists [], ws. split; [done|]. split; [by intros ? ?%elem_of_nil|].
      by apply set_find_None.
  - right. exists (w :: pre), post. split; [done|]. split.
    + intros z Hz. apply elem_of_cons in Hz as [Hzw|Hz]; [subst z|by apply Hpre].
      destruct (set_insert_has s w) as (v & Hv & Hk). rewrite <- Hk. by apply Hs'.
    + intros z Hz. by apply Hs', set_insert_mono.
Qed.

(** X6.  The vocabulary [GetUniqueWordsFromStringView] returns is strictly
    increasing for [Comp]; each of its entries is the first word of the
    view with its lower-cased spelling; and every word of the view is
    found in it, by an entry with the same lower-cased spelling. *)
Theorem GetUniqueWords_vocabulary str :
  StronglySorted (λ a b, Comp a b = true) (GetUniqueWordsFromStringView str) ∧
  (∀ y, y ∈ GetUniqueWordsFromStringView str →
        ∃ pre post, GetWordsFromStringView str = pre ++ y :: post ∧
                    ∀ z, z ∈ pre → key z ≠ key y) ∧
  (∀ w, w ∈ GetWordsFromStringView str →
        ∃ y, set_find (GetUniqueWordsFromStringView str) w = Some y ∧
             y ∈ GetUniqueWordsFromStringView str ∧ key y = key w).
Proof.
  split; [apply GetUniqueWords_ok|]. split.
  - intros y Hy. rewrite GetUniqueWords_tokens in Hy.
    apply fold_insert_first in Hy as [Hy|(pre & post & H & Hpre & _)];
      [by apply elem_of_nil in Hy| |apply set_ok_nil]. eauto.
  - intros w Hw. destruct (GetUniqueWords_find str w Hw) as [y Hy].
    exists y. split; [done|]. by apply set_find_spec; [apply GetUniqueWords_ok|].
Qed.

(** ** Term frequencies *)

(** X7.  [GetTFOfWordsInLine] on a line with words and a strictly
    increasing keyword set returns, for every key, the number of words of
    the line that [keywords.find] maps to it, divided by the number of
    words of the line; on a line without words it divides by zero as soon
    as there is a keyword. *)
Theorem GetTFOfWordsInLine_outcome words_in_line keywords :
  StronglySorted (λ a b, Comp a b = true) keywords →
  (words_in_line ≠ [] →
   ∃ tf, GetTFOfWordsInLine words_in_line keywords = Ok tf ∧
         ∀ k, at_key 0%R tf k
              = (INR (length (filter (λ w, set_find keywords w = Some k) words_in_line))
                 / INR (length words_in_line))%R) ∧
  (words_in_line = [] → keywords ≠ [] →
   GetTFOfWordsInLine words_in_line keywords = Fault DivisionByZero).
Proof.
  intros Hk. split.
  - intros Hw. destruct (GetTF_spec words_in_line keywords Hw Hk) as (tf & ? & ?).
    by exists tf.
  - intros -> Hne. destruct keywords; [done|]. apply GetTF_empty_line.
Qed.

Lemma GetTFOfWordsInLine_outcome_witness :
  (["cat"; "sat"] ≠ [] →
   ∃ tf, GetTFOfWordsInLine ["cat"; "sat"] ["cat"; "dog"] = Ok tf ∧
         ∀ k, at_key 0%R tf k
              = (INR (length (filter (λ w, set_find ["cat"; "dog"] w = Some k)
                                ["cat"; "sat"]))
                 / INR (length ["cat"; "sat"]))%R) ∧
  (["cat"; "sat"] = [] → ["cat"; "dog"] ≠ [] →
   GetTFOfWordsInLine ["cat"; "sat"] ["cat"; "dog"] = Fault DivisionByZero).
Proof.
  apply (GetTFOfWordsInLine_outcome ["cat"; "sat"] ["cat"; "dog"]).
  repeat constructor.
Defined.

(** ** When BuildIndex returns *)

Lemma leading_scored wil i :
  (∀ i' ws, i' ≤ i → wil !! i' = Some ws → ws ≠ []) → i < length wil →
  i < length (scored_words wil).
Proof.
  intros H Hi. rewrite <- (take_drop (S i) wil), scored_words_app, length_app.
  rewrite scored_words_id.
  - rewrite length_take. lia.
  - apply Forall_forall. intros ws [j Hj]%list_elem_of_lookup.
    apply lookup_take_Some in Hj as [Hj Hlt]. apply (H j ws); [lia|done].
Qed.

Lemma aligned_iff wil :
  aligned wil ↔
  ∀ i j ws, i < j → wil !! i = Some [] → wil !! j = Some ws → ws = [].
Proof.
  split.
  - intros Hal i j ws Hij Hi Hj.
    destruct (aligned_lookup wil i Hal) as [H1 _].
    destruct (aligned_lookup wil j Hal) as [_ H2].
    assert (length (scored_words wil) ≤ i) as Hle.
    { destruct (decide (i < length (scored_words wil))) as [Hlt|]; [|lia].
      destruct (H1 Hlt) as (ws' & Hws' & _ & Hne). congruence. }
    rewrite H2 in Hj; [congruence|lia|]. by eapply lookup_lt_Some.
  - intros H. apply (bounded_aligned 0). intros i Hi. simpl.
    apply positions_from_elem in Hi as [_ (ws & Hws & Hne)].
    rewrite Nat.sub_0_r in Hws. apply leading_scored; [|by eapply lookup_lt_Some].
    intros i' ws' Hle Hws' ->.
    destruct (decide (i' = i)) as [->|Hne']; [congruence|].
    apply Hne. apply (H i' i ws); [lia|done..].
Qed.

(** X8.  [BuildIndex] returns an index when no line without words comes
    before a line with words, and reads a vector out of range when one
    does. *)
Theorem BuildIndex_outcome text :
  ((∀ i j ws, i < j →
      map GetWordsFromStringView (GetLinesFromText text) !! i = Some [] →
      map GetWordsFromStringView (GetLinesFromText text) !! j = Some ws →
      ws = []) →
   ∃ engine, BuildIndex text = Ok engine) ∧
  (∀ i j ws, i < j →
     map GetWordsFromStringView (GetLinesFromText text) !! i = Some [] →
     map GetWordsFromStringView (GetLinesFromText text) !! j = Some ws →
     ws ≠ [] → BuildIndex text = Fault OutOfRange).
Proof.
  split.
  - intros H. apply aligned_iff in H.
    destruct (BuildIndex_aligned text H) as (engine & ? & _). eauto.
  - intros i j ws Hij Hi Hj Hne. apply BuildIndex_misaligned.
    intros Hal. apply Hne. by apply (proj1 (aligned_iff _) Hal i j ws).
Qed.

(** ** The index *)

Lemma vocabulary_scored text k :
  k ∈ GetUniqueWordsFromStringView text → scored_words (words_of_lines text) ≠ [].
Proof.
  intros Hk%GetUniqueWords_elem. rewrite GetWords_lines in Hk.
  apply list_elem_of_In, in_concat in Hk as (ws & Hws & Hk).
  apply list_elem_of_In in Hws. intros Hnil.
  assert (ws ∈ scored_words (words_of_lines text)) as Hin.
  { apply list_elem_of_filter. split; [|done]. by intros ->. }
  rewrite Hnil in Hin. by apply elem_of_nil in Hin.
Qed.

(** X9.  The index [BuildIndex] returns: the vocabulary and the lines of
    the text, the positions of the lines without words as [ignore_list_],
    and a relevance table whose keys are the vocabulary entries, the
    vector of an entry holding, per line with words and in line order,
    the term frequency times the inverse document frequency. *)
Theorem BuildIndex_index text engine :
  BuildIndex text = Ok engine →
  text_words_ engine = GetUniqueWordsFromStringView text ∧
  lines_ engine = GetLinesFromText text ∧
  (∀ i, i ∈ ignore_list_ engine ↔
        ∃ line, GetLinesFromText text !! i = Some line ∧
                GetWordsFromStringView line = []) ∧
  (∀ k, k ∈ GetUniqueWordsFromStringView text →
        words_relevance_in_lines_ engine !! k
        = Some (map (λ ws, (TF (GetUniqueWordsFromStringView text) ws k
                            * IDF (GetUniqueWordsFromStringView text)
                                (scored_words (words_of_lines text))
                                (length (GetLinesFromText text)) k)%R)
                  (scored_words (words_of_lines text)))) ∧
  (∀ k, k ∉ GetUniqueWordsFromStringView text →
        words_relevance_in_lines_ engine !! k = None).
Proof.
  intros HB. destruct (built_facts text engine HB) as (_ & Hv & Hl & Hi & R1 & R2).
  split; [done|]. split; [done|]. split; [|split; [|done]].
  - intros i. rewrite Hi. apply collect_lines_snd.
  - intros k Hk. specialize (R1 k Hk). unfold at_key in R1.
    destruct (words_relevance_in_lines_ engine !! k) as [v|]; simpl in R1.
    + by rewrite R1.
    + symmetry in R1. apply map_eq_nil in R1. by apply vocabulary_scored in Hk.
Qed.

Lemma BuildIndex_index_witness :
  ∃ engine, BuildIndex ranking_text = Ok engine ∧
            text_words_ engine = GetUniqueWordsFromStringView ranking_text ∧
            lines_ engine = GetLinesFromText ranking_text.
Proof.
  destruct (BuildIndex_aligned _ ranking_text_aligned) as (engine & HB & _).
  exists engine. split; [exact HB|].
  destruct (BuildIndex_index ranking_text engine HB) as (H1 & H2 & _).
  split; [exact H1|exact H2].
Defined.

(** ** Queries without a known word *)

(** X10.  On a built index a query none of whose words is spelled exactly
    like a vocabulary entry returns no line; in particular a query without
    letters returns no line. *)
Theorem Search_unknown_words text engine query results_count :
  BuildIndex text = Ok engine →
  (∀ q, q ∈ GetUniqueWordsFromStringView query → q ∉ text_words_ engine) →
  Search engine query results_count = Ok [].
Proof.
  intros HB Hq.
  destruct (Search_built text engine query results_count HB)
    as (lr & out & Hr & -> & HF).
  destruct (built_facts text engine HB) as (_ & Hv & _).
  rewrite returned_zero in HF; [by inversion HF|].
  apply Forall_forall. intros x Hx.
  refine (ranked_unknown text engine query x HB _ lr Hr Hx).
  intros q Hin. rewrite <- Hv. by apply Hq.
Qed.

Lemma Search_unknown_words_witness :
  ∃ engine, BuildIndex fruit_text = Ok engine ∧ Search engine "12-34!!" 5 = Ok [].
Proof.
  destruct (BuildIndex_aligned _ fruit_text_aligned) as (engine & HB & _).
  exists engine. split; [exact HB|].
  apply (Search_unknown_words fruit_text engine "12-34!!" 5 HB).
  intros q Hq. vm_compute in Hq. by apply elem_of_nil in Hq.
Defined.

Lemma concat_nil_all {A} (ls : list (list A)) :
  concat ls = [] → ls = replicate (length ls) [].
Proof.
  induction ls as [|l ls IH]; [done|]. simpl.
  intros [-> H]%app_eq_nil. by rewrite <- IH.
Qed.

(** X11.  A text without letters (the empty text among them) is indexed
    without fault, and every query on its index returns no line. *)
Theorem Search_wordless_text text :
  GetWordsFromStringView text = [] →
  ∃ engine, BuildIndex text = Ok engine ∧
            ∀ query results_count, Search engine query results_count = Ok [].
Proof.
  intros Hw.
  assert (words_of_lines text = replicate (length (words_of_lines text)) []) as Hrep.
  { apply concat_nil_all. unfold words_of_lines. by rewrite <- GetWords_lines. }
  assert (aligned (words_of_lines text)) as Hal.
  { rewrite Hrep. unfold aligned.
    rewrite scored_words_replicate, length_replicate. simpl.
    by rewrite Nat.sub_0_r. }
  destruct (BuildIndex_aligned text Hal) as (engine & HB & Hv & _).
  exists engine. split; [done|]. intros query k.
  apply (Search_unknown_words text engine query k HB).
  intros q _. rewrite Hv, GetUniqueWords_tokens, Hw. apply not_elem_of_nil.
Qed.

Lemma Search_wordless_text_witness :
  ∃ engine, BuildIndex "" = Ok engine ∧
            ∀ query results_count, Search engine query results_count = Ok [].
Proof. apply (Search_wordless_text ""). reflexivity. Defined.

(** ** results_count *)

Lemma returned_take k k' lr i :
  k ≤ k' → returned k lr i = take (k - i) (returned k' lr i).
Proof.
  intros Hk. revert i. induction lr as [|x lr IH]; intros i; simpl.
  - by rewrite take_nil.
  - destruct (Nat.leb_spec k i), (Nat.leb_spec k' i); simpl; try lia.
    + by rewrite take_nil.
    + replace (k - i) with 0 by lia. by destruct (bool_decide _).
    + case_bool_decide; [by rewrite take_nil|].
      replace (k - i) with (S (k - S i)) by lia. simpl. by rewrite IH.
Qed.

Lemma Forall2_functional {A B} (R : A → B → Prop) l r r' :
  (∀ a b b', R a b → R a b' → b = b') →
  Forall2 R l r → Forall2 R l r' → r = r'.
Proof.
  intros HR HF. revert r'. induction HF as [|a b l r Ha _ IH]; intros r' HF'.
  - by apply Forall2_nil_inv_l in HF'.
  - apply Forall2_cons_inv_l in HF' as (b' & r'' & Hb' & HF'' & ->).
    f_equal; [by eapply HR|by apply IH].
Qed.

(** X12.  Raising [results_count] only appends: the result for a smaller
    count is the beginning of the result for a larger one. *)
Theorem Search_prefix text engine query k k' result result' :
  BuildIndex text = Ok engine → k ≤ k' →
  Search engine query k = Ok result →
  Search engine query k' = Ok result' →
  result = take k result'.
Proof.
  intros HB Hk Hs Hs'.
  destruct (Search_built text engine query k HB) as (lr & out & Hr & Ho & HF).
  destruct (Search_built text engine query k' HB) as (lr' & out' & Hr' & Ho' & HF').
  rewrite Hr in Hr'. injection Hr' as <-.
  rewrite Hs in Ho. injection Ho as <-. rewrite Hs' in Ho'. injection Ho' as <-.
  rewrite (returned_take k k' lr 0 Hk), Nat.sub_0_r in HF.
  apply (Forall2_take _ _ _ k) in HF'.
  refine (Forall2_functional _ _ _ _ _ HF HF').
  intros a b b' H1 H2. simpl in *. congruence.
Qed.

Lemma Search_prefix_witness :
  ∃ engine result result',
    BuildIndex ranking_text = Ok engine ∧
    Search engine "cat" 1 = Ok result ∧
    Search engine "cat" 2 = Ok result' ∧
    result = take 1 result'.
Proof.
  destruct (BuildIndex_aligned _ ranking_text_aligned) as (engine & HB & _).
  destruct (Search_built ranking_text engine "cat" 1 HB) as (lr & r1 & _ & H1 & _).
  destruct (Search_built ranking_text engine "cat" 2 HB) as (lr' & r2 & _ & H2 & _).
  exists engine, r1, r2. split; [exact HB|]. split; [exact H1|]. split; [exact H2|].
  apply (Search_prefix ranking_text engine "cat" 1 2 r1 r2 HB); [lia|exact H1|exact H2].
Defined.

(** X13.  [Search] returns the lines of pairwise distinct positions: no
    line position is returned twice. *)
Theorem Search_distinct_positions text engine query results_count :
  BuildIndex text = Ok engine →
  ∃ positions result,
    Search engine query results_count = Ok result ∧
    NoDup positions ∧
    Forall2 (λ i line, lines_ engine !! i = Some line) positions result.
Proof.
  intros HB.
  destruct (Search_built text engine query results_count HB)
    as (lr & out & Hr & Hs & HF).
  exists (map pos (returned results_count lr 0)), out. split; [done|]. split.
  - destruct (returned_prefix results_count lr 0) as [n ->].
    rewrite <- firstn_map. eapply sublist_NoDup; [|apply sublist_take].
    rewrite (ranked_built text engine query HB) in Hr. injection Hr as <-.
    rewrite (Permutation_map pos (sort_reversed_perm less _)), map_map. simpl.
    rewrite map_id. apply NoDup_seq.
  - by apply Forall2_fmap_l.
Qed.

Lemma Search_distinct_positions_witness :
  ∃ engine positions result,
    BuildIndex ranking_text = Ok engine ∧
    Search engine "cat" 2 = Ok result ∧
    NoDup positions ∧
    Forall2 (λ i line, lines_ engine !! i = Some line) positions result.
Proof.
  destruct (BuildIndex_aligned _ ranking_text_aligned) as (engine & HB & _).
  destruct (Search_distinct_positions ranking_text engine "cat" 2 HB)
    as (positions & result & H1 & H2 & H3).
  exists engine, positions, result. split; [exact HB|]. split; [exact H1|].
  split; [exact H2|exact H3].
Defined.

(** ** The comparison of Search *)

(** X14.  The comparison passed to [std::sort] is irreflexive and
    asymmetric, and orders any two entries of different positions one way
    or the other. *)
Theorem less_order :
  (∀ a, less a a = false) ∧
  (∀ a b, less a b = true → less b a = false) ∧
  (∀ a b, pos a ≠ pos b → less a b = true ∨ less b a = true).
Proof.
  pose proof ERROR_pos as He.
  assert (Hrefl : ∀ a, tie a a).
  { intros a. apply tie_iff. lra. }
  split; [|split].
  - intros a. rewrite (less_tie a a (Hrefl a)). apply Nat.ltb_irrefl.
  - intros a b. destruct (decide (tie a b)) as [Ht|Ht].
    + rewrite (less_tie a b Ht), (less_tie b a (tie_sym _ _ Ht)).
      rewrite Nat.ltb_lt. intros H. apply Nat.ltb_ge. lia.
    + assert (¬ tie b a) as Ht' by (intros ?%tie_sym; done).
      rewrite (less_no_tie a b Ht), (less_no_tie b a Ht').
      rewrite bool_decide_eq_true. intros H. apply bool_decide_eq_false. lra.
  - intros a b Hp. destruct (less a b) eqn:E; [by left|right].
    by apply less_total.
Qed.

(** ** Words of every line *)

Lemma filter_all {A} (P : A → Prop) `{∀ x, Decision (P x)} (l : list A) :
  Forall P l → filter P l = l.
Proof.
  induction 1 as [|x l Hx _ IH]; [done|]. by rewrite filter_cons_True, IH.
Qed.

(** X15.  A vocabulary word that occurs in every retained line has inverse
    document frequency [ln (N / N) = 0], so all its relevance entries are
    zero: it never contributes to a score. *)
Theorem common_word_relevance text engine k v :
  BuildIndex text = Ok engine →
  (∀ ws, ws ∈ map GetWordsFromStringView (GetLinesFromText text) →
         occurrences (GetUniqueWordsFromStringView text) k ws ≠ 0) →
  words_relevance_in_lines_ engine !! k = Some v →
  Forall (λ x, x = 0%R) v.
Proof.
  intros HB Hocc Hv. destruct (built_vector text engine k v HB Hv) as [Hk ->].
  fold (words_of_lines text) in Hocc.
  assert (Hne : Forall (λ ws, ws ≠ []) (words_of_lines text)).
  { apply Forall_forall. intros ws Hws ->. by apply (Hocc [] Hws). }
  assert (Hsw : scored_words (words_of_lines text) = words_of_lines text)
    by (by apply scored_words_id).
  assert (HDF : DF (GetUniqueWordsFromStringView text) (words_of_lines text) k
                = length (GetLinesFromText text)).
  { rewrite DF_count by done. rewrite <- words_of_lines_length. f_equal.
    apply filter_all. by apply Forall_forall. }
  apply Forall_forall. intros x (ws & -> & Hws)%list_elem_of_fmap.
  unfold relevance_of, IDF. rewrite Hsw, HDF.
  case_decide; [lra|]. rewrite Rdiv_diag by (by apply not_0_INR).
  rewrite ln_1. lra.
Qed.

Lemma common_word_relevance_witness :
  ∃ engine v,
    BuildIndex ("cat sat" +:+ nl +:+ "cat ran") = Ok engine ∧
    words_relevance_in_lines_ engine !! "cat" = Some v ∧
    Forall (λ x, x = 0%R) v.
Proof.
  assert (aligned (words_of_lines ("cat sat" +:+ nl +:+ "cat ran"))) as Hal
    by (vm_compute; reflexivity).
  destruct (BuildIndex_aligned _ Hal) as (engine & HB & _).
  destruct (BuildIndex_index _ engine HB) as (_ & _ & _ & Hrel & _).
  specialize (Hrel "cat" ltac:(apply list_elem_of_In; vm_compute; tauto)).
  exists engine. eexists. split; [exact HB|]. split; [exact Hrel|].
  apply (common_word_relevance _ engine "cat" _ HB); [|exact Hrel].
  intros ws Hws. apply list_elem_of_In in Hws. vm_compute in Hws.
  destruct Hws as [<-|[<-|[]]]; vm_compute; discriminate.
Defined.

(** ** The Minesweeper game *)

Import Minesweeper.

Lemma Cell_eq (a b : Cell) : x a = x b → y a = y b → a = b.
Proof. destruct a, b; simpl; congruence. Qed.

Lemma Cell_neq (a b : Cell) : a ≠ b → x a ≠ x b ∨ y a ≠ y b.
Proof.
  intros Hne. destruct (decide (x a = x b)) as [Hx|Hx]; [|by left].
  right. intros Hy. apply Hne. by apply Cell_eq.
Qed.

Lemma at_cell_lookup field cell info :
  at_cell field cell = Done info ↔
  ∃ line, field !! y cell = Some line ∧ line !! x cell = Some info.
Proof.
  unfold at_cell. split.
  - destruct (field !! y cell) as [line|]; [|discriminate].
    destruct (line !! x cell) as [i|] eqn:E; [|discriminate].
    intros [= ->]. eauto.
  - intros (line & -> & ->). reflexivity.
Qed.

Lemma at_cell_fuel field cell : at_cell field cell ≠ OutOfFuel.
Proof.
  unfold at_cell. destruct (field !! y cell) as [line|]; [|discriminate].
  destruct (line !! x cell); discriminate.
Qed.

Lemma at_cell_cases field cell :
  (∃ info, at_cell field cell = Done info) ∨ at_cell field cell = OutOfBounds.
Proof.
  unfold at_cell. destruct (field !! y cell) as [line|]; [|by right].
  destruct (line !! x cell); [left; eauto|by right].
Qed.

Lemma rectangular_line width height field k line :
  rectangular width height field → field !! k = Some line → length line = width.
Proof.
  intros [_ Hall] Hk. rewrite Forall_lookup in Hall. exact (Hall k line Hk).
Qed.

Lemma at_cell_inside width height field cell :
  rectangular width height field → inside width height cell →
  ∃ info, at_cell field cell = Done info.
Proof.
  intros Hrect [Hx Hy].
  destruct (lookup_lt_is_Some_2 field (y cell)) as [line Hline].
  { destruct Hrect as [-> _]. exact Hy. }
  destruct (lookup_lt_is_Some_2 line (x cell)) as [info Hinfo].
  { rewrite (rectangular_line _ _ _ _ _ Hrect Hline). exact Hx. }
  exists info. apply at_cell_lookup. eauto.
Qed.

Lemma at_cell_Done_inside width height field cell info :
  rectangular width height field → at_cell field cell = Done info →
  inside width height cell.
Proof.
  intros Hrect (line & Hline & Hinfo)%at_cell_lookup. split.
  - rewrite <- (rectangular_line _ _ _ _ _ Hrect Hline).
    eapply lookup_lt_Some, Hinfo.
  - destruct Hrect as [<- _]. eapply lookup_lt_Some, Hline.
Qed.

Lemma at_cell_outside width height field cell :
  rectangular width height field → ¬ inside width height cell →
  at_cell field cell = OutOfBounds.
Proof.
  intros Hrect Hout. destruct (at_cell_cases field cell) as [[info H]|H]; [|done].
  destruct Hout. eapply at_cell_Done_inside; eauto.
Qed.

Lemma assign_Done f field cell info :
  at_cell field cell = Done info →
  assign f field cell = Done (altered f cell field).
Proof. unfold assign. intros ->. reflexivity. Qed.

Lemma assign_cases f field cell :
  (∃ info, at_cell field cell = Done info ∧
           assign f field cell = Done (altered f cell field)) ∨
  (at_cell field cell = OutOfBounds ∧ assign f field cell = OutOfBounds).
Proof.
  destruct (at_cell_cases field cell) as [[info H]|H].
  - left. exists info. split; [done|]. by eapply assign_Done.
  - right. split; [done|]. unfold assign. by rewrite H.
Qed.

Lemma altered_rectangular width height f cell field :
  rectangular width height field → rectangular width height (altered f cell field).
Proof.
  intros [Hlen Hall]. unfold altered. split.
  - by rewrite length_alter.
  - apply Forall_alter; [done|]. intros line _ Hl. by rewrite length_alter.
Qed.

Lemma at_cell_altered_same f cell field info :
  at_cell field cell = Done info →
  at_cell (altered f cell field) cell = Done (f info).
Proof.
  intros (line & Hline & Hinfo)%at_cell_lookup. apply at_cell_lookup.
  exists (alter f (x cell) line). unfold altered. split.
  - rewrite list_lookup_alter_eq. rewrite Hline. reflexivity.
  - rewrite list_lookup_alter_eq. rewrite Hinfo. reflexivity.
Qed.

Lemma at_cell_altered_other f cell cell' field :
  cell' ≠ cell → at_cell (altered f cell field) cell' = at_cell field cell'.
Proof.
  intros Hne. unfold at_cell, altered.
  destruct (decide (y cell' = y cell)) as [Hy|Hy].
  - rewrite Hy. rewrite list_lookup_alter_eq.
    destruct (field !! y cell) as [line|]; simpl; [|done].
    rewrite list_lookup_alter_ne; [done|].
    intros Hx. apply Hne. apply Cell_eq; congruence.
  - rewrite list_lookup_alter_ne by congruence. reflexivity.
Qed.

Lemma at_cell_altered f cell cell' field :
  at_cell (altered f cell field) cell' =
  if decide (cell' = cell) then info ← at_cell field cell; Done (f info)
  else at_cell field cell'.
Proof.
  destruct (decide (cell' = cell)) as [->|Hne].
  - destruct (at_cell_cases field cell) as [[info H]|H].
    + rewrite H. simpl. by apply at_cell_altered_same.
    + rewrite H. simpl. destruct (at_cell_cases (altered f cell field) cell) as [[info' H']|H']; [|done].
      apply at_cell_lookup in H' as (line & Hline & Hinfo). unfold altered in Hline.
      rewrite list_lookup_alter_eq in Hline.
      destruct (field !! y cell) as [l|] eqn:El; [|discriminate]. simpl in Hline.
      injection Hline as <-. rewrite list_lookup_alter_eq in Hinfo.
      destruct (l !! x cell) as [i|] eqn:Ei; [|discriminate].
      assert (at_cell field cell = Done i) by (apply at_cell_lookup; eauto). congruence.
  - by apply at_cell_altered_other.
Qed.

Lemma altered_involutive f cell field :
  (∀ c, f (f c) = c) → altered f cell (altered f cell field) = field.
Proof.
  intros Hf. unfold altered. rewrite list_alter_alter_eq.
  apply list_alter_id. intros line. simpl. rewrite list_alter_alter_eq.
  apply list_alter_id. intros c. apply Hf.
Qed.

(** X16.  The game never leaves [VICTORY] or [DEFEAT]: [OpenCell] and
    [MarkCell] return the object as it is, whatever the cell, also one
    outside the field, and [GetGameTime] no longer depends on the clock. *)
Theorem game_over_is_final g started finished now cell :
  game_status_ g = VICTORY ∨ game_status_ g = DEFEAT →
  OpenCell started finished cell g = Done g ∧
  MarkCell started cell g = Done g ∧
  GetGameTime now g = game_time_ g.
Proof.
  unfold OpenCell, MarkCell, GetGameTime.
  intros [H|H]; rewrite !H; cbn; rewrite ?H; repeat split; reflexivity.
Qed.

Lemma game_over_is_final_witness :
  let g := {| game_status_ := DEFEAT; field_ := []; game_time_ := 7;
              opened_cell_number_ := 0; mine_counter_ := 0; mines_ := 0;
              titles_ := 0 |} in
  OpenCell 1 2 {| x := 5; y := 5 |} g = Done g ∧
  MarkCell 1 {| x := 5; y := 5 |} g = Done g ∧
  GetGameTime 3 g = game_time_ g.
Proof. apply game_over_is_final. right. reflexivity. Defined.

(** The state [OpenCell] and [MarkCell] work on after their first
    statement: a game not started is started at the clock reading. *)
Lemma started_cases g started :
  let g0 := match game_status_ g with
            | NOT_STARTED => with_time started (with_status IN_PROGRESS g)
            | _ => g
            end in
  (game_status_ g = NOT_STARTED ∨ game_status_ g = IN_PROGRESS) →
  game_status_ g0 = IN_PROGRESS ∧ field_ g0 = field_ g ∧
  opened_cell_number_ g0 = opened_cell_number_ g ∧ mines_ g0 = mines_ g ∧
  titles_ g0 = titles_ g ∧ mine_counter_ g0 = mine_counter_ g ∧
  game_time_ g0 = match game_status_ g with NOT_STARTED => started | _ => game_time_ g end.
Proof.
  intros g0 [H|H]; subst g0; rewrite H; simpl; rewrite ?H; repeat split; auto.
Qed.

Lemma MarkCell_in_progress g started cell :
  game_status_ g = IN_PROGRESS →
  MarkCell started cell g =
  info ← at_cell (field_ g) cell;
  if negb (opened info) then
    field ← assign (λ c, set_flaged (negb (flaged c)) c) (field_ g) cell;
    Done (with_field field g)
  else Done g.
Proof. intros H. unfold MarkCell. rewrite H. cbn. rewrite H. reflexivity. Qed.

(** X17.  [MarkCell] in a running game toggles the flag of a closed cell and
    nothing else, so marking the same cell twice restores the object; on an
    open cell it changes nothing, and outside the field it reads out of
    bounds. *)
Theorem MarkCell_toggles g started started' cell :
  game_status_ g = IN_PROGRESS →
  match at_cell (field_ g) cell with
  | Done info =>
      if opened info then MarkCell started cell g = Done g
      else
        ∃ g', MarkCell started cell g = Done g' ∧
          g' = with_field (field_ g') g ∧
          at_cell (field_ g') cell = Done (set_flaged (negb (flaged info)) info) ∧
          (∀ c, c ≠ cell → at_cell (field_ g') c = at_cell (field_ g) c) ∧
          MarkCell started' cell g' = Done g
  | _ => MarkCell started cell g = OutOfBounds
  end.
Proof.
  intros Hs. pose proof (at_cell_fuel (field_ g) cell) as Hfuel.
  destruct (at_cell (field_ g) cell) as [info| |] eqn:Hat; [| |done].
  - destruct (opened info) eqn:Ho.
    + rewrite MarkCell_in_progress by done. rewrite Hat. simpl. rewrite Ho. reflexivity.
    + set (tog := λ c, set_flaged (negb (flaged c)) c).
      exists (with_field (altered tog cell (field_ g)) g). split; [|split; [|split; [|split]]].
      * rewrite MarkCell_in_progress by done. rewrite Hat. simpl. rewrite Ho. simpl.
        rewrite (assign_Done _ _ _ _ Hat). reflexivity.
      * reflexivity.
      * simpl. apply (at_cell_altered_same tog). exact Hat.
      * intros c Hc. simpl. by apply at_cell_altered_other.
      * rewrite MarkCell_in_progress by done. simpl.
        rewrite (at_cell_altered_same tog _ _ _ Hat). simpl. rewrite Ho. simpl.
        erewrite assign_Done by (apply (at_cell_altered_same tog), Hat). simpl.
        fold tog. rewrite altered_involutive.
        { destruct g; simpl in *. reflexivity. }
        intros [o f c n]. unfold tog, set_flaged. simpl. by rewrite negb_involutive.
  - rewrite MarkCell_in_progress by done. rewrite Hat. reflexivity.
Qed.

Lemma MarkCell_toggles_witness :
  let g := {| game_status_ := IN_PROGRESS; field_ := filled 2 2 default_cell;
              game_time_ := 0; opened_cell_number_ := 0; mine_counter_ := 0;
              mines_ := 0; titles_ := 4 |} in
  let cell := {| x := 1; y := 0 |} in
  ∃ g', MarkCell 1 cell g = Done g' ∧
    g' = with_field (field_ g') g ∧
    at_cell (field_ g') cell = Done (set_flaged true default_cell) ∧
    (∀ c, c ≠ cell → at_cell (field_ g') c = at_cell (field_ g) c) ∧
    MarkCell 2 cell g' = Done g.
Proof.
  exact (MarkCell_toggles
    {| game_status_ := IN_PROGRESS; field_ := filled 2 2 default_cell;
       game_time_ := 0; opened_cell_number_ := 0; mine_counter_ := 0;
       mines_ := 0; titles_ := 4 |} 1 2 {| x := 1; y := 0 |} eq_refl).
Defined.

Lemma at_cell_map f field cell :
  at_cell (map (map f) field) cell = info ← at_cell field cell; Done (f info).
Proof.
  unfold at_cell. rewrite list_lookup_fmap.
  destruct (field !! y cell) as [line|]; simpl; [|done].
  rewrite list_lookup_fmap. destruct (line !! x cell); reflexivity.
Qed.

(** X18.  [OpenCell] on a mine, in a game that is not over, ends the game in
    [DEFEAT]: every cell of the field is opened and otherwise unchanged, and
    the stored time is the time elapsed since the start. A flag on the mine
    does not protect it. *)
Theorem OpenCell_mine g started finished cell info :
  game_status_ g = NOT_STARTED ∨ game_status_ g = IN_PROGRESS →
  at_cell (field_ g) cell = Done info →
  content info = MINE →
  ∃ g', OpenCell started finished cell g = Done g' ∧
    game_status_ g' = DEFEAT ∧
    (∀ c, at_cell (field_ g') c = i ← at_cell (field_ g) c; Done (set_opened true i)) ∧
    game_time_ g' =
      (finished - match game_status_ g with
                  | NOT_STARTED => started
                  | _ => game_time_ g
                  end)%Z ∧
    opened_cell_number_ g' = opened_cell_number_ g.
Proof.
  intros Hs Hat Hmine. unfold OpenCell.
  destruct (started_cases g started Hs) as (H1 & H2 & H3 & H4 & H5 & H6 & H7).
  revert H1 H2 H3 H4 H5 H6 H7.
  generalize (match game_status_ g with
              | NOT_STARTED => with_time started (with_status IN_PROGRESS g)
              | _ => g end).
  intros g0 H1 H2 H3 H4 H5 H6 H7. rewrite H1, H2, Hat. simpl. rewrite Hmine.
  eexists. split; [reflexivity|]. simpl. rewrite H7, H3. repeat split.
  intros c. unfold OpenLine. apply (at_cell_map (set_opened true)).
Qed.

Lemma OpenCell_mine_witness :
  let g := {| game_status_ := NOT_STARTED;
              field_ := [[set_flaged true mine_cell; default_cell]];
              game_time_ := 0; opened_cell_number_ := 0; mine_counter_ := 0;
              mines_ := 1; titles_ := 2 |} in
  ∃ g', OpenCell 10 25 {| x := 0; y := 0 |} g = Done g' ∧
    game_status_ g' = DEFEAT ∧
    (∀ c, at_cell (field_ g') c = i ← at_cell (field_ g) c; Done (set_opened true i)) ∧
    game_time_ g' = 15%Z ∧
    opened_cell_number_ g' = 0.
Proof.
  exact (OpenCell_mine
    {| game_status_ := NOT_STARTED;
       field_ := [[set_flaged true mine_cell; default_cell]];
       game_time_ := 0; opened_cell_number_ := 0; mine_counter_ := 0;
       mines_ := 1; titles_ := 2 |} 10 25 {| x := 0; y := 0 |}
    (set_flaged true mine_cell) (or_introl eq_refl) eq_refl eq_refl).
Defined.

Lemma filled_rectangular width height c : rectangular width height (filled width height c).
Proof.
  unfold filled. split; [apply length_replicate|].
  apply Forall_replicate. apply length_replicate.
Qed.

Lemma at_cell_filled width height c cell :
  inside width height cell → at_cell (filled width height c) cell = Done c.
Proof.
  intros [Hx Hy]. apply at_cell_lookup. exists (replicate width c). unfold filled.
  split; apply lookup_replicate_2; assumption.
Qed.

Lemma lay_loop width height cells field :
  rectangular width height field →
  Forall (inside width height) cells →
  ∃ field', for_each (assign (set_content MINE)) cells field = Done field' ∧
    rectangular width height field' ∧
    ∀ c, at_cell field' c =
         i ← at_cell field c;
         Done (if decide (c ∈ cells) then set_content MINE i else i).
Proof.
  revert field. induction cells as [|cell cells IH]; intros field Hrect Hall.
  - exists field. split; [done|]. split; [done|]. intros c.
    destruct (at_cell field c); reflexivity.
  - apply Forall_cons in Hall as [Hin Hall].
    destruct (at_cell_inside _ _ _ _ Hrect Hin) as [info Hinfo].
    simpl. rewrite (assign_Done _ _ _ _ Hinfo). simpl.
    destruct (IH (altered (set_content MINE) cell field)) as (field' & Hrun & Hrect' & Hat);
      [by apply altered_rectangular|done|].
    exists field'. split; [done|]. split; [done|]. intros c. rewrite Hat.
    rewrite at_cell_altered. destruct (decide (c = cell)) as [->|Hne].
    + rewrite Hinfo. simpl.
      destruct (decide (cell ∈ cell :: cells)) as [_|Hn];
        [|destruct Hn; apply list_elem_of_here].
      destruct (decide (cell ∈ cells)); reflexivity.
    + destruct (at_cell field c) as [i| |]; simpl; [|done|done].
      destruct (decide (c ∈ cells)) as [Hc|Hc];
        destruct (decide (c ∈ cell :: cells)) as [Hc'|Hc']; try reflexivity.
      * destruct Hc'. by apply list_elem_of_further.
      * apply elem_of_cons in Hc' as [?|?]; contradiction.
Qed.

Lemma lay_loop_outside width height cells field :
  rectangular width height field →
  ¬ Forall (inside width height) cells →
  for_each (assign (set_content MINE)) cells field = OutOfBounds.
Proof.
  revert field. induction cells as [|cell cells IH]; intros field Hrect Hnot.
  - destruct Hnot. constructor.
  - simpl. destruct (decide (inside width height cell)) as [Hin|Hout].
    + destruct (at_cell_inside _ _ _ _ Hrect Hin) as [info Hinfo].
      rewrite (assign_Done _ _ _ _ Hinfo). simpl. apply IH.
      * by apply altered_rectangular.
      * intros Hall. apply Hnot. by constructor.
    + unfold assign. by rewrite (at_cell_outside _ _ _ _ Hrect Hout).
Qed.

(** X19.  The constructor from a list of mined cells returns a game exactly
    when every listed cell lies inside the field; the game is not started,
    its field is [height] lines of [width] closed, unflagged cells, a cell
    holds a mine exactly when it is listed, and [mines_] is the length of
    the list, duplicates counted. A listed cell outside the field is written
    out of bounds. *)
Theorem Minesweeper_cells_with_mines_game width height cells :
  (Forall (inside width height) cells →
   ∃ g, Minesweeper_cells_with_mines width height cells = Done g ∧
     rectangular width height (field_ g) ∧
     game_status_ g = NOT_STARTED ∧ opened_cell_number_ g = 0 ∧
     mines_ g = length cells ∧ titles_ g = width * height ∧
     ∀ c, inside width height c →
       at_cell (field_ g) c =
       Done (if decide (c ∈ cells) then mine_cell else default_cell)) ∧
  (¬ Forall (inside width height) cells →
   Minesweeper_cells_with_mines width height cells = OutOfBounds).
Proof.
  unfold Minesweeper_cells_with_mines, lay_cells_with_mines. simpl. split.
  - intros Hall.
    destruct (lay_loop width height cells (filled width height default_cell))
      as (field' & Hrun & Hrect & Hat); [apply filled_rectangular|done|].
    rewrite Hrun. simpl. eexists. split; [reflexivity|]. simpl.
    repeat split; try apply Hrect. intros c Hc. rewrite Hat.
    rewrite at_cell_filled by done. simpl. destruct (decide (c ∈ cells)); reflexivity.
  - intros Hnot. rewrite (lay_loop_outside width height); [reflexivity| |done].
    apply filled_rectangular.
Qed.

Lemma Minesweeper_cells_with_mines_game_witness :
  (∃ g, Minesweeper_cells_with_mines 3 2 [{| x := 2; y := 1 |}; {| x := 2; y := 1 |}] = Done g ∧
     rectangular 3 2 (field_ g) ∧
     game_status_ g = NOT_STARTED ∧ opened_cell_number_ g = 0 ∧
     mines_ g = 2 ∧ titles_ g = 6 ∧
     ∀ c, inside 3 2 c →
       at_cell (field_ g) c =
       Done (if decide (c ∈ [{| x := 2; y := 1 |}; {| x := 2; y := 1 |}])
             then mine_cell else default_cell)) ∧
  Minesweeper_cells_with_mines 3 2 [{| x := 3; y := 0 |}] = OutOfBounds.
Proof.
  split.
  - apply (Minesweeper_cells_with_mines_game 3 2 [{| x := 2; y := 1 |}; {| x := 2; y := 1 |}]).
    repeat constructor.
  - apply (Minesweeper_cells_with_mines_game 3 2 [{| x := 3; y := 0 |}]).
    intros H. apply Forall_cons in H as [[H _] _]. simpl in H. lia.
Defined.

Lemma odd_draws_0 rand calls : odd_draws rand calls 0 = 0.
Proof. reflexivity. Qed.

Lemma odd_draws_S rand calls n :
  odd_draws rand calls (S n) =
  (if negb (rand calls mod 2 =? 0) then 1 else 0) + odd_draws rand (S calls) n.
Proof.
  unfold odd_draws. cbn [seq List.filter].
  destruct (negb (rand calls mod 2 =? 0)); reflexivity.
Qed.

Lemma odd_draws_add rand calls n m :
  odd_draws rand calls (n + m) = odd_draws rand calls n + odd_draws rand (calls + n) m.
Proof.
  unfold odd_draws. rewrite seq_app, List.filter_app, length_app. reflexivity.
Qed.

Lemma odd_draws_le rand calls n : odd_draws rand calls n ≤ n.
Proof.
  unfold odd_draws. etrans; [apply List.filter_length_le|]. by rewrite length_seq.
Qed.

Lemma FillLine_spec rand line calls g :
  mine_counter_ g ≤ mines_ g →
  ∃ line' calls' counter,
    FillLine rand line (calls, g) = (line', (calls', with_mine_counter counter g)) ∧
    length line' = length line ∧
    Forall untouched line' ∧
    length (List.filter is_mine line') + mine_counter_ g = counter ∧
    counter = mine_counter_ g + odd_draws rand calls (length line) `min` (mines_ g - mine_counter_ g) ∧
    (counter < mines_ g → calls' = calls + length line) ∧
    calls ≤ calls' ≤ calls + length line.
Proof.
  revert calls g. induction line as [|c line IH]; intros calls g Hle.
  - exists [], calls, (mine_counter_ g). simpl.
    split; [by destruct g|]. repeat split; try lia. constructor.
  - cbn [FillLine]. unfold MineGenerator.
    destruct (mine_counter_ g =? mines_ g) eqn:Efull.
    + apply Nat.eqb_eq in Efull.
      destruct (IH calls g Hle) as (line' & calls' & counter & Hrun & Hlen & Hun & Hcount & Hc & Hcalls & Hb).
      rewrite Hrun. exists (default_cell :: line'), calls', counter.
      split; [reflexivity|]. cbn [length List.filter].
      change (is_mine default_cell) with false. cbn iota.
      split; [by rewrite Hlen|]. split.
      { constructor; [by repeat split|done]. }
      repeat split; try lia.
    + apply Nat.eqb_neq in Efull. cbn [length]. rewrite odd_draws_S.
      destruct (negb (rand calls mod 2 =? 0)) eqn:Eodd.
      * destruct (IH (S calls) (with_mine_counter (S (mine_counter_ g)) g))
          as (line' & calls' & counter & Hrun & Hlen & Hun & Hcount & Hc & Hcalls & Hb);
          [simpl; lia|].
        rewrite Hrun. exists (set_content MINE default_cell :: line'), calls', counter.
        split; [by destruct g|]. cbn [length List.filter].
        change (is_mine (set_content MINE default_cell)) with true. cbn iota.
        cbn [length mine_counter_ mines_ with_mine_counter] in *.
        split; [by rewrite Hlen|]. split.
        { constructor; [by repeat split|done]. }
        repeat split; try lia.
      * destruct (IH (S calls) g Hle)
          as (line' & calls' & counter & Hrun & Hlen & Hun & Hcount & Hc & Hcalls & Hb).
        rewrite Hrun. exists (default_cell :: line'), calls', counter.
        split; [reflexivity|]. cbn [length List.filter].
        change (is_mine default_cell) with false. cbn iota.
        split; [by rewrite Hlen|]. split.
        { constructor; [by repeat split|done]. }
        repeat split; try lia.
Qed.

Lemma fill_lines_spec rand lines calls g :
  mine_counter_ g ≤ mines_ g →
  ∃ lines' calls' counter,
    fill_lines rand lines (calls, g) = (lines', (calls', with_mine_counter counter g)) ∧
    map length lines' = map length lines ∧
    Forall (Forall untouched) lines' ∧
    count_cells is_mine lines' + mine_counter_ g = counter ∧
    counter = mine_counter_ g +
              odd_draws rand calls (length (concat lines)) `min` (mines_ g - mine_counter_ g) ∧
    (counter < mines_ g → calls' = calls + length (concat lines)) ∧
    calls ≤ calls' ≤ calls + length (concat lines).
Proof.
  revert calls g. induction lines as [|line lines IH]; intros calls g Hle.
  - exists [], calls, (mine_counter_ g). simpl.
    split; [by destruct g|]. unfold count_cells. simpl. repeat split; try lia. constructor.
  - cbn [fill_lines].
    destruct (FillLine_spec rand line calls g Hle)
      as (line' & calls1 & c1 & Hrun1 & Hlen1 & Hun1 & Hcount1 & Hc1 & Hcalls1 & Hb1).
    rewrite Hrun1.
    destruct (IH calls1 (with_mine_counter c1 g))
      as (lines' & calls2 & c2 & Hrun2 & Hlen2 & Hun2 & Hcount2 & Hc2 & Hcalls2 & Hb2);
      [simpl; lia|].
    rewrite Hrun2. exists (line' :: lines'), calls2, c2.
    split; [by destruct g|]. simpl in *. split; [by rewrite Hlen1, Hlen2|]. split; [by constructor|].
    unfold count_cells in *. simpl. rewrite List.filter_app, !length_app.
    rewrite odd_draws_add.
    destruct (decide (c1 < mines_ g)) as [Hlt|Hge].
    + rewrite (Hcalls1 Hlt) in *. repeat split; try lia.
    + assert (c1 = mines_ g) as -> by lia. repeat split; try lia.
Qed.

Lemma count_cells_filled p width height c :
  count_cells p (filled width height c) = if p c then width * height else 0.
Proof.
  unfold count_cells, filled. induction height as [|h IH]; simpl.
  - destruct (p c); lia.
  - rewrite List.filter_app, length_app, IH.
    assert (length (List.filter p (replicate width c)) = if p c then width else 0) as ->.
    { clear. induction width as [|w IHw]; simpl; [by destruct (p c)|].
      destruct (p c); simpl; lia. }
    destruct (p c); lia.
Qed.

Lemma length_concat_filled width height (c : CellInfo) :
  length (concat (filled width height c)) = width * height.
Proof.
  unfold filled. induction height as [|h IH]; simpl; [lia|].
  rewrite length_app, IH, length_replicate. lia.
Qed.

Lemma rectangular_lengths width height field :
  rectangular width height field ↔ map length field = replicate height width.
Proof.
  unfold rectangular. split.
  - intros [<- Hall]. induction Hall as [|line field Hl _ IH]; simpl; [done|].
    by rewrite Hl, IH.
  - intros H. split.
    + rewrite <- (length_map length), H. apply length_replicate.
    + apply Forall_forall. intros line Hin.
      assert (length line ∈ map length field) as Hin'.
      { apply list_elem_of_fmap. eauto. }
      rewrite H in Hin'. by apply elem_of_replicate in Hin' as [? _].
Qed.

Lemma lay_mines_count_spec rand width height mines_count calls g :
  mine_counter_ g = 0 → mines_ g = mines_count →
  ∃ calls' g',
    lay_mines_count rand width height mines_count (calls, g) = (calls', g') ∧
    g' = with_mine_counter (mine_counter_ g') (with_field (field_ g') g) ∧
    rectangular width height (field_ g') ∧
    Forall (Forall untouched) (field_ g') ∧
    count_cells is_mine (field_ g') =
      (if width * height <=? mines_count then width * height
       else odd_draws rand calls (width * height) `min` mines_count) ∧
    mine_counter_ g' =
      (if width * height <=? mines_count then 0
       else odd_draws rand calls (width * height) `min` mines_count) ∧
    calls ≤ calls' ≤ calls + width * height.
Proof.
  intros Hc Hm. unfold lay_mines_count.
  destruct (width * height <=? mines_count) eqn:Eall.
  - eexists _, _. split; [reflexivity|]. simpl.
    split; [by destruct g; simpl in *; subst|].
    split; [apply filled_rectangular|]. split.
    { apply Forall_replicate, Forall_replicate. by repeat split. }
    rewrite count_cells_filled. simpl. repeat split; try lia.
  - apply Nat.leb_gt in Eall. destruct (0 <? mines_count) eqn:Epos.
    + unfold FillField. simpl.
      destruct (fill_lines_spec rand (filled width height default_cell) calls
                  (with_field (filled width height default_cell) g))
        as (lines' & calls' & counter & Hrun & Hlen & Hun & Hcount & Hcnt & Hcalls & Hb);
        [simpl; lia|].
      rewrite Hrun. eexists _, _. split; [reflexivity|]. simpl in *.
      rewrite length_concat_filled in *.
      split; [by destruct g|]. split.
      { apply rectangular_lengths. rewrite Hlen.
        apply rectangular_lengths, filled_rectangular. }
      split; [done|]. rewrite Hc, Hm in *. repeat split; try lia.
    + apply Nat.ltb_ge in Epos. assert (mines_count = 0) as -> by lia.
      eexists _, _. split; [reflexivity|]. simpl.
      split; [by destruct g; simpl in *; subst|].
      split; [apply filled_rectangular|]. split.
      { apply Forall_replicate, Forall_replicate. by repeat split. }
      rewrite count_cells_filled. simpl. repeat split; try lia.
Qed.

(** X20.  The constructor from a mine count returns a game not started whose
    field is [height] lines of [width] closed, unflagged cells. When the
    count is at least the number of cells every cell holds a mine. Otherwise
    a cell gets a mine when [rand()] is odd, until the count is reached: the
    field holds as many mines as there were odd values among the [width *
    height] values from the current one on, but at most the count. So the
    field never holds more mines than [mines_] says, and may hold fewer;
    [rand()] is called at most once per cell. *)
Theorem Minesweeper_mines_count_game rand calls width height mines_count :
  ∃ calls' g,
    Minesweeper_mines_count rand calls width height mines_count = (calls', g) ∧
    rectangular width height (field_ g) ∧
    Forall (Forall untouched) (field_ g) ∧
    game_status_ g = NOT_STARTED ∧ opened_cell_number_ g = 0 ∧
    mines_ g = mines_count ∧ titles_ g = width * height ∧
    count_cells is_mine (field_ g) =
      (if width * height <=? mines_count then width * height
       else odd_draws rand calls (width * height) `min` mines_count) ∧
    count_cells is_mine (field_ g) ≤ mines_ g ∧
    calls ≤ calls' ≤ calls + width * height.
Proof.
  unfold Minesweeper_mines_count.
  edestruct (lay_mines_count_spec rand width height mines_count calls)
    as (calls' & g' & Hrun & Hg & Hrect & Hun & Hcount & Hcnt & Hb);
    [| |rewrite Hrun]; [reflexivity|reflexivity|].
  exists calls', g'. split; [reflexivity|]. split; [done|]. split; [done|].
  rewrite Hg. simpl. rewrite Hcount. repeat split; try lia.
  destruct (width * height <=? mines_count) eqn:E; [apply Nat.leb_le in E|]; lia.
Qed.

Lemma FillLine_time rand line calls g t :
  FillLine rand line (calls, with_time t g) =
  let '(line', (calls', g')) := FillLine rand line (calls, g) in
  (line', (calls', with_time t g')).
Proof.
  revert calls g. induction line as [|c line IH]; intros calls g; [reflexivity|].
  cbn [FillLine]. unfold MineGenerator.
  cbn [mine_counter_ mines_ with_time].
  destruct (mine_counter_ g =? mines_ g).
  - rewrite IH. destruct (FillLine rand line (calls, g)) as [l [c' g']]. reflexivity.
  - destruct (negb (rand calls mod 2 =? 0)).
    + change (with_mine_counter (S (mine_counter_ g)) (with_time t g))
        with (with_time t (with_mine_counter (S (mine_counter_ g)) g)).
      rewrite IH.
      destruct (FillLine rand line (S calls, with_mine_counter (S (mine_counter_ g)) g))
        as [l [c' g']]. reflexivity.
    + rewrite IH. destruct (FillLine rand line (S calls, g)) as [l [c' g']]. reflexivity.
Qed.

Lemma fill_lines_time rand lines calls g t :
  fill_lines rand lines (calls, with_time t g) =
  let '(lines', (calls', g')) := fill_lines rand lines (calls, g) in
  (lines', (calls', with_time t g')).
Proof.
  revert calls g. induction lines as [|line lines IH]; intros calls g; [reflexivity|].
  cbn [fill_lines]. rewrite FillLine_time.
  destruct (FillLine rand line (calls, g)) as [l [c' g']]. rewrite IH.
  destruct (fill_lines rand lines (c', g')) as [ls [c'' g'']]. reflexivity.
Qed.

Lemma lay_mines_count_time rand width height mines_count calls g t :
  lay_mines_count rand width height mines_count (calls, with_time t g) =
  let '(calls', g') := lay_mines_count rand width height mines_count (calls, g) in
  (calls', with_time t g').
Proof.
  unfold lay_mines_count. destruct (width * height <=? mines_count); [reflexivity|].
  destruct (0 <? mines_count); [|reflexivity].
  unfold FillField. cbn [snd field_ with_field].
  change (with_field (filled width height default_cell) (with_time t g))
    with (with_time t (with_field (filled width height default_cell) g)).
  rewrite fill_lines_time.
  destruct (fill_lines rand (filled width height default_cell)
              (calls, with_field (filled width height default_cell) g))
    as [ls [c' g']]. reflexivity.
Qed.

Lemma lay_mines_count_field rand width height mines_count calls g f :
  lay_mines_count rand width height mines_count (calls, with_field f g) =
  lay_mines_count rand width height mines_count (calls, g).
Proof. reflexivity. Qed.

Lemma lay_cells_time cells g t :
  lay_cells_with_mines cells (with_time t g) =
  g' ← lay_cells_with_mines cells g; Done (with_time t g').
Proof.
  unfold lay_cells_with_mines. simpl.
  destruct (for_each (assign (set_content MINE)) cells (field_ g)); reflexivity.
Qed.

(** X21.  [NewGame] forgets the game played so far: each overload builds the
    game the constructor of the same arguments builds, and keeps of the old
    object only the stored time. *)
Theorem NewGame_fresh rand calls width height mines_count cells g :
  NewGame_mines_count rand calls width height mines_count g =
    (let '(calls', g') :=
       Minesweeper_mines_count rand calls width height mines_count in
     (calls', with_time (game_time_ g) g')) ∧
  NewGame_cells_with_mines width height cells g =
    (g' ← Minesweeper_cells_with_mines width height cells;
     Done (with_time (game_time_ g) g')).
Proof.
  split.
  - unfold NewGame_mines_count, Minesweeper_mines_count.
    rewrite <- lay_mines_count_time.
    rewrite <- (lay_mines_count_field _ _ _ _ _ _ (field_ g)). reflexivity.
  - unfold NewGame_cells_with_mines, Minesweeper_cells_with_mines.
    rewrite <- lay_cells_time. reflexivity.
Qed.

Lemma info_at_Done field cell info : at_cell field cell = Done info → info_at field cell = info.
Proof. unfold info_at. by intros ->. Qed.

Lemma look_eq field cell acc ij :
  look field cell acc ij =
  if negb (reachable field cell ij) then Done acc
  else
    info ← at_cell field (near cell ij);
    match content info with
    | MINE =>
        Done {| number_of_mines := number_of_mines acc + 1;
                infect_further := false;
                next_cells := next_cells acc |}
    | EMPTY =>
        if infect_further acc && negb (opened info) && negb (flaged info)
        then Done {| number_of_mines := number_of_mines acc;
                     infect_further := infect_further acc;
                     next_cells := next_cells acc ++ [near cell ij] |}
        else Done acc
    end.
Proof. destruct ij as [i j]. reflexivity. Qed.

Lemma look_loop field cell offs acc :
  (∀ o, o ∈ offs → reachable field cell o = true →
        ∃ i, at_cell field (near cell o) = Done i) →
  ∃ acc', for_each (look field cell) offs acc = Done acc' ∧
    number_of_mines acc' =
      (number_of_mines acc +
       Z.of_nat (length (List.filter (λ o, is_mine (info_at field (near cell o)))
                           (List.filter (reachable field cell) offs))))%Z ∧
    infect_further acc' =
      infect_further acc &&
      (length (List.filter (λ o, is_mine (info_at field (near cell o)))
                 (List.filter (reachable field cell) offs)) =? 0) ∧
    (infect_further acc' = true →
     next_cells acc' =
       next_cells acc ++
       map (near cell)
         (List.filter (λ o, closed (info_at field (near cell o))
                            && negb (flaged (info_at field (near cell o))))
            (List.filter (reachable field cell) offs))).
Proof.
  revert acc. induction offs as [|o offs IH]; intros acc Hin.
  - exists acc. simpl. split; [done|]. split; [lia|].
    split; [by rewrite andb_true_r|]. intros _. by rewrite app_nil_r.
  - assert (∀ o', o' ∈ offs → reachable field cell o' = true →
                  ∃ i, at_cell field (near cell o') = Done i) as Hin'.
    { intros o' Ho'. apply Hin. by apply list_elem_of_further. }
    cbn [for_each List.filter]. rewrite look_eq.
    destruct (reachable field cell o) eqn:Ereach; cbn [negb].
    + destruct (Hin o (list_elem_of_here _ _) Ereach) as [i Hi].
      rewrite Hi. cbn [mbind run_bind]. cbn [List.filter].
      rewrite (info_at_Done _ _ _ Hi).
      destruct (content i) eqn:Ec.
      * assert (is_mine i = false) as -> by (unfold is_mine; by rewrite Ec).
        destruct (infect_further acc && negb (opened i) && negb (flaged i)) eqn:Econd.
        -- apply andb_prop in Econd as [[Hf Ho]%andb_prop Hg].
           assert (closed i && negb (flaged i) = true) as ->
             by (unfold closed; by rewrite Ho, Hg).
           destruct (IH {| number_of_mines := number_of_mines acc;
                           infect_further := infect_further acc;
                           next_cells := next_cells acc ++ [near cell o] |} Hin')
             as (acc' & Hrun & Hn & Hf' & Hnext).
           exists acc'. split; [exact Hrun|]. split; [exact Hn|]. split; [exact Hf'|].
           intros Ht. rewrite (Hnext Ht). cbn [next_cells map].
           rewrite <- app_assoc. reflexivity.
        -- destruct (IH acc Hin') as (acc' & Hrun & Hn & Hf' & Hnext).
           exists acc'. split; [exact Hrun|]. split; [exact Hn|]. split; [exact Hf'|].
           intros Ht. rewrite (Hnext Ht).
           assert (infect_further acc = true) as Hacc.
           { rewrite Hf' in Ht. by apply andb_prop in Ht as [? _]. }
           rewrite Hacc in Econd. cbn [andb] in Econd.
           change (closed i) with (negb (opened i)). rewrite Econd. reflexivity.
      * assert (is_mine i = true) as -> by (unfold is_mine; by rewrite Ec).
        destruct (IH {| number_of_mines := number_of_mines acc + 1;
                        infect_further := false;
                        next_cells := next_cells acc |} Hin')
          as (acc' & Hrun & Hn & Hf' & Hnext).
        exists acc'. split; [exact Hrun|]. cbn [length number_of_mines infect_further] in *.
        split; [lia|]. split.
        { rewrite Hf'. cbn [andb]. by rewrite andb_false_r. }
        intros Ht. rewrite Hf' in Ht. discriminate.
    + destruct (IH acc Hin') as (acc' & Hrun & Hn & Hf' & Hnext).
      exists acc'. split; [exact Hrun|]. split; [exact Hn|]. split; [exact Hf'|]. exact Hnext.
Qed.

Lemma offsets_elem ij :
  ij ∈ offsets ↔ (-1 ≤ ij.1 ≤ 1)%Z ∧ (-1 ≤ ij.2 ≤ 1)%Z.
Proof.
  destruct ij as [i j]. unfold offsets. simpl. rewrite !elem_of_cons, elem_of_nil.
  split.
  - intros H. repeat (destruct H as [H|H]); try (injection H as -> ->; lia). done.
  - intros [Hi Hj].
    assert (i = -1 ∨ i = 0 ∨ i = 1)%Z as [-> | [-> | ->]] by lia;
    assert (j = -1 ∨ j = 0 ∨ j = 1)%Z as [-> | [-> | ->]] by lia; tauto.
Qed.

Lemma offsets_NoDup : NoDup offsets.
Proof.
  unfold offsets. simpl. repeat (apply NoDup_cons; split;
    [rewrite ?elem_of_cons, elem_of_nil; intros H;
     repeat (destruct H as [H|H]); try discriminate; done|]).
  apply NoDup_nil_2.
Qed.

Lemma width_of_rectangular width height field :
  rectangular width height field → 0 < height → width_of field = width.
Proof.
  intros [Hlen Hall] Hpos. destruct field as [|line field]; simpl in *; [lia|].
  by apply Forall_cons in Hall as [? _].
Qed.

Lemma reachable_spec width height field cell ij :
  rectangular width height field →
  reachable field cell ij = true ↔
  ij ≠ (0, 0)%Z ∧
  (0 ≤ Z.of_nat (y cell) + ij.1 < Z.of_nat height)%Z ∧
  (0 ≤ Z.of_nat (x cell) + ij.2 < Z.of_nat width)%Z.
Proof.
  intros Hrect. unfold reachable. destruct ij as [i j]. cbn [fst snd].
  rewrite !andb_true_iff, orb_true_iff, !negb_true_iff, !Z.eqb_neq,
    !Z.leb_le, !Z.ltb_lt.
  destruct (decide (0 < height)) as [Hpos|Hzero].
  - rewrite (width_of_rectangular _ _ _ Hrect Hpos). destruct Hrect as [-> _].
    split.
    + intros [[Hne Hy] Hx]. split; [|lia]. intros [= -> ->]. lia.
    + intros (Hne & Hy & Hx). split; [split; [|lia]|lia].
      destruct (decide (i = 0%Z)) as [->|]; [|by left]. right. intros ->. done.
  - destruct Hrect as [Hlen _]. rewrite Hlen. split; intros H; lia.
Qed.

Lemma around_cells_elem width height field cell k :
  rectangular width height field →
  k ∈ around_cells field cell ↔ adjacent cell k ∧ inside width height k.
Proof.
  intros Hrect. unfold around_cells. rewrite list_elem_of_fmap. split.
  - intros (ij & -> & Hin). apply list_elem_of_In, List.filter_In in Hin as [Hoff Hreach].
    apply list_elem_of_In, offsets_elem in Hoff as [Hi Hj].
    apply (reachable_spec _ _ _ _ _ Hrect) in Hreach as (Hne & Hy & Hx).
    destruct ij as [i j]. unfold adjacent, inside, near. cbn [x y fst snd] in *.
    split; [split|]; [|lia|lia].
    intros Heq. apply Hne. destruct cell as [cx cy]. injection Heq as Hx' Hy'.
    cbn [x y] in *. f_equal; lia.
  - intros [(Hne & H1 & H2 & H3 & H4) [Hx Hy]].
    exists ((Z.of_nat (y k) - Z.of_nat (y cell))%Z, (Z.of_nat (x k) - Z.of_nat (x cell))%Z).
    split.
    + unfold near. cbn [fst snd]. apply Cell_eq; cbn [x y]; lia.
    + apply list_elem_of_In, List.filter_In. split.
      * apply list_elem_of_In, offsets_elem. cbn [fst snd]. lia.
      * apply (reachable_spec _ _ _ _ _ Hrect). cbn [fst snd]. split; [|lia].
        intros [= Hy' Hx']. apply Hne. apply Cell_eq; lia.
Qed.

Lemma around_cells_NoDup width height field cell :
  rectangular width height field → NoDup (around_cells field cell).
Proof.
  intros Hrect. unfold around_cells. apply NoDup_fmap_2_strong.
  - intros a b Ha Hb Heq.
    apply list_elem_of_In, List.filter_In in Ha as [_ Ha].
    apply list_elem_of_In, List.filter_In in Hb as [_ Hb].
    apply (reachable_spec _ _ _ _ _ Hrect) in Ha as (_ & Hay & Hax).
    apply (reachable_spec _ _ _ _ _ Hrect) in Hb as (_ & Hby & Hbx).
    destruct a as [ai aj], b as [bi bj]. unfold near in Heq. cbn [fst snd] in *.
    injection Heq as Hx Hy. f_equal; lia.
  - apply NoDup_ListNoDup, List.NoDup_filter, NoDup_ListNoDup, offsets_NoDup.
Qed.

Lemma count_line p (f : CellInfo → CellInfo) line k i :
  line !! k = Some i →
  length (List.filter p (alter f k line)) + (if p i then 1 else 0) =
  length (List.filter p line) + (if p (f i) then 1 else 0).
Proof.
  revert k. induction line as [|c line IH]; intros k Hk; [done|].
  destruct k as [|k]; cbn [alter list_alter List.filter] in *.
  - injection Hk as ->. destruct (p i), (p (f i)); cbn [length]; lia.
  - specialize (IH k Hk). change (list_alter f k line) with (alter f k line).
    destruct (p c); cbn [length]; lia.
Qed.

Lemma count_altered p f cell field i :
  at_cell field cell = Done i →
  count_cells p (altered f cell field) + (if p i then 1 else 0) =
  count_cells p field + (if p (f i) then 1 else 0).
Proof.
  intros (line & Hline & Hi)%at_cell_lookup. unfold count_cells, altered.
  revert Hline. generalize (y cell) as k. induction field as [|l field IH]; intros k Hk; [done|].
  destruct k as [|k]; cbn [alter list_alter concat] in *.
  - injection Hk as ->. rewrite !List.filter_app, !length_app.
    pose proof (count_line p f line (x cell) i Hi). lia.
  - specialize (IH k Hk). change (list_alter (alter f (x cell)) k field)
      with (alter (alter f (x cell)) k field).
    rewrite !List.filter_app, !length_app. lia.
Qed.

Lemma at_cell_functional field k i i' :
  at_cell field k = Done i → at_cell field k = Done i' → i = i'.
Proof. congruence. Qed.

Lemma mined_spec field k i :
  at_cell field k = Done i → mined field k ↔ content i = MINE.
Proof.
  intros Hi. unfold mined. split.
  - intros (i' & Hi' & Hc). congruence.
  - intros Hc. eauto.
Qed.

Lemma is_mine_spec i : is_mine i = true ↔ content i = MINE.
Proof. unfold is_mine. destruct (content i); split; congruence. Qed.

Lemma around_filter width height field cell (p : Cell → bool) :
  rectangular width height field →
  NoDup (List.filter p (around_cells field cell)) ∧
  ∀ k, k ∈ List.filter p (around_cells field cell) ↔
       adjacent cell k ∧ inside width height k ∧ p k = true.
Proof.
  intros Hrect. split.
  - apply NoDup_ListNoDup, List.NoDup_filter, NoDup_ListNoDup.
    by eapply around_cells_NoDup.
  - intros k. rewrite list_elem_of_In, List.filter_In, <- list_elem_of_In.
    rewrite (around_cells_elem _ _ _ _ _ Hrect). tauto.
Qed.

(** What the double loop of [Infect] finds around a cell of the field. *)
Lemma survey width height field cell :
  rectangular width height field →
  ∃ seen n,
    for_each (look field cell) offsets
      {| number_of_mines := 0; infect_further := true; next_cells := [] |} =
    Done seen ∧
    number_of_mines seen = Z.of_nat n ∧
    mines_around field cell n ∧
    infect_further seen = (n =? 0) ∧
    (n = 0 →
     NoDup (next_cells seen) ∧
     ∀ k, k ∈ next_cells seen ↔
          adjacent cell k ∧
          ∃ i, at_cell field k = Done i ∧ opened i = false ∧ flaged i = false).
Proof.
  intros Hrect.
  destruct (look_loop field cell offsets
              {| number_of_mines := 0; infect_further := true; next_cells := [] |})
    as (seen & Hrun & Hn & Hf & Hnext).
  { intros o _ Hreach. apply (reachable_spec _ _ _ _ _ Hrect) in Hreach as (_ & Hy & Hx).
    apply (at_cell_inside _ _ _ _ Hrect). unfold inside, near. cbn [x y]. lia. }
  cbn [number_of_mines infect_further next_cells andb app] in *.
  set (p := λ k, is_mine (info_at field k)) in *.
  set (q := λ k, closed (info_at field k) && negb (flaged (info_at field k))) in *.
  change (λ o, is_mine (info_at field (near cell o))) with (λ o, p (near cell o)) in *.
  change (λ o, closed (info_at field (near cell o)) &&
               negb (flaged (info_at field (near cell o))))
    with (λ o, q (near cell o)) in *.
  assert (∀ r : Cell → bool,
            map (near cell) (List.filter (λ o, r (near cell o))
                               (List.filter (reachable field cell) offsets)) =
            List.filter r (around_cells field cell)) as Hswap.
  { intros r. unfold around_cells. by rewrite List.filter_map_swap. }
  exists seen, (length (List.filter p (around_cells field cell))).
  rewrite <- (Hswap p), length_map. split; [exact Hrun|]. split; [lia|].
  split; [|split; [exact Hf|]].
  - exists (List.filter p (around_cells field cell)).
    destruct (around_filter _ _ _ cell p Hrect) as [Hnd Hel].
    split; [exact Hnd|]. split; [|by rewrite <- (Hswap p), length_map].
    intros k. rewrite Hel. unfold p. split.
    + intros (Hadj & Hin & Hm). split; [done|].
      destruct (at_cell_inside _ _ _ _ Hrect Hin) as [i Hi].
      rewrite (info_at_Done _ _ _ Hi) in Hm. apply is_mine_spec in Hm.
      by apply (mined_spec _ _ _ Hi).
    + intros (Hadj & i & Hi & Hm). split; [done|]. split.
      * by eapply at_cell_Done_inside.
      * rewrite (info_at_Done _ _ _ Hi). by apply is_mine_spec.
  - intros Hzero. rewrite Hzero in Hf. rewrite (Hnext Hf), (Hswap q).
    destruct (around_filter _ _ _ cell q Hrect) as [Hnd Hel].
    split; [exact Hnd|]. intros k. rewrite Hel. unfold q, closed. split.
    + intros (Hadj & Hin & Hq). split; [done|].
      destruct (at_cell_inside _ _ _ _ Hrect Hin) as [i Hi].
      rewrite (info_at_Done _ _ _ Hi) in Hq.
      apply andb_prop in Hq as [Ho Hg]. exists i.
      apply negb_true_iff in Ho, Hg. done.
    + intros (Hadj & i & Hi & Ho & Hg). split; [done|]. split.
      * by eapply at_cell_Done_inside.
      * rewrite (info_at_Done _ _ _ Hi), Ho, Hg. reflexivity.
Qed.

Lemma open_next_Done g c i :
  at_cell (field_ g) c = Done i →
  open_next g c =
  Done (with_opened_cell_number (S (opened_cell_number_ g))
          (with_field (altered (set_opened true) c (field_ g)) g)).
Proof. intros Hi. unfold open_next. by rewrite (assign_Done _ _ _ _ Hi). Qed.

(** The loop of [Infect] that opens the cells found. *)
Lemma open_loop width height cells g :
  rectangular width height (field_ g) →
  NoDup cells →
  (∀ k, k ∈ cells → ∃ i, at_cell (field_ g) k = Done i ∧ opened i = false) →
  ∃ field',
    for_each open_next cells g =
      Done (with_opened_cell_number (opened_cell_number_ g + length cells)
              (with_field field' g)) ∧
    rectangular width height field' ∧
    count_cells closed field' + length cells = count_cells closed (field_ g) ∧
    ∀ k i, at_cell (field_ g) k = Done i →
      at_cell field' k = Done (if decide (k ∈ cells) then set_opened true i else i).
Proof.
  revert g. induction cells as [|c cells IH]; intros g Hrect Hnd Hclosed.
  - exists (field_ g). cbn [for_each length]. split.
    { f_equal. destruct g; unfold with_opened_cell_number, with_field; simpl.
      f_equal. lia. }
    split; [done|]. split; [lia|]. intros k i Hi. exact Hi.
  - apply NoDup_cons in Hnd as [Hc Hnd].
    destruct (Hclosed c (list_elem_of_here _ _)) as (ic & Hic & Hoc).
    cbn [for_each]. rewrite (open_next_Done _ _ _ Hic). cbn [mbind run_bind].
    set (g1 := with_opened_cell_number (S (opened_cell_number_ g))
                 (with_field (altered (set_opened true) c (field_ g)) g)).
    destruct (IH g1) as (field' & Hrun & Hrect' & Hcount & Hat).
    { by apply altered_rectangular. }
    { done. }
    { intros k Hk. destruct (Hclosed k (list_elem_of_further _ _ _ Hk)) as (i & Hi & Ho).
      exists i. split; [|done]. cbn [g1 field_ with_opened_cell_number with_field].
      rewrite at_cell_altered_other; [done|]. intros ->. contradiction. }
    exists field'. rewrite Hrun. split.
    { f_equal. unfold g1, with_opened_cell_number, with_field. simpl. f_equal. lia. }
    split; [done|]. split.
    { cbn [g1 field_ with_opened_cell_number with_field] in Hcount.
      pose proof (count_altered closed (set_opened true) c (field_ g) ic Hic) as Hca.
      change (closed (set_opened true ic)) with false in Hca.
      change (closed ic) with (negb (opened ic)) in Hca.
      rewrite Hoc in Hca. cbn [negb] in Hca. cbn [length]. lia. }
    intros k i Hi. cbn [g1 field_ with_opened_cell_number with_field] in Hat.
    destruct (decide (k = c)) as [->|Hne].
    + rewrite (Hat c (set_opened true i)).
      * rewrite decide_False by done.
        destruct (decide (c ∈ c :: cells)) as [_|Hn]; [done|].
        destruct Hn. apply list_elem_of_here.
      * by apply at_cell_altered_same.
    + rewrite (Hat k i).
      * destruct (decide (k ∈ cells)) as [Hk|Hk];
          destruct (decide (k ∈ c :: cells)) as [Hk'|Hk']; try reflexivity.
        -- destruct Hk'. by apply list_elem_of_further.
        -- apply elem_of_cons in Hk' as [?|?]; contradiction.
      * rewrite at_cell_altered_other; done.
Qed.

Lemma mines_around_ext field field' cell n :
  (∀ k, mined field k ↔ mined field' k) →
  mines_around field cell n → mines_around field' cell n.
Proof.
  intros Hext (cells & Hnd & Hel & Hlen). exists cells. split; [done|]. split; [|done].
  intros k. rewrite Hel, Hext. reflexivity.
Qed.

Lemma flood_step width height field field' visited opened_now k i :
  flood width height field field' visited opened_now →
  at_cell field k = Done i →
  ∃ i', at_cell field' k = Done i' ∧ content i' = content i ∧
    flaged i' = flaged i ∧ (opened i = true → opened i' = true).
Proof.
  intros (_ & _ & _ & _ & _ & _ & Hpt) Hi.
  destruct (Hpt k i Hi) as (i' & Hi' & Hc & Hf & Hsame & _ & Hvis).
  exists i'. repeat split; try done. intros Ho.
  destruct (decide (k ∈ visited)) as [Hk|Hk].
  - by apply Hvis.
  - by rewrite (Hsame Hk).
Qed.

Lemma flood_back width height field field' visited opened_now k i' :
  flood width height field field' visited opened_now →
  at_cell field' k = Done i' →
  ∃ i, at_cell field k = Done i ∧ content i' = content i ∧
    flaged i' = flaged i ∧ (opened i = true → opened i' = true).
Proof.
  intros Hflood Hi'. pose proof Hflood as (Hrect & Hrect' & _).
  destruct (at_cell_inside _ _ _ k Hrect) as [i Hi].
  { by eapply at_cell_Done_inside. }
  destruct (flood_step _ _ _ _ _ _ _ _ Hflood Hi) as (i'' & Hi'' & Hc & Hf & Ho).
  assert (i'' = i') as -> by congruence. eauto.
Qed.

Lemma flood_mined width height field field' visited opened_now k :
  flood width height field field' visited opened_now →
  mined field k ↔ mined field' k.
Proof.
  intros Hflood. split.
  - intros (i & Hi & Hc).
    destruct (flood_step _ _ _ _ _ _ _ _ Hflood Hi) as (i' & Hi' & Hc' & _).
    exists i'. split; [done|]. congruence.
  - intros (i' & Hi' & Hc').
    destruct (flood_back _ _ _ _ _ _ _ _ Hflood Hi') as (i & Hi & Hc & _).
    exists i. split; [done|]. congruence.
Qed.

Lemma flood_open width height field field' visited opened_now k :
  flood width height field field' visited opened_now →
  open field k → open field' k.
Proof.
  intros Hflood (i & Hi & Ho).
  destruct (flood_step _ _ _ _ _ _ _ _ Hflood Hi) as (i' & Hi' & _ & _ & Ho').
  exists i'. auto.
Qed.

Lemma surveyed_mono width height field field' visited opened_now k i :
  flood width height field field' visited opened_now →
  surveyed field k i → surveyed field' k i.
Proof.
  intros Hflood (n & Hn & Hmines & Hclosure). exists n. split; [done|]. split.
  - eapply mines_around_ext; [|exact Hmines]. intros k'. by eapply flood_mined.
  - intros Hz k' i' Hadj Hi'.
    destruct (flood_back _ _ _ _ _ _ _ _ Hflood Hi') as (i0 & Hi0 & _ & Hf & Ho).
    destruct (Hclosure Hz k' i0 Hadj Hi0) as [H|H]; [left; auto|right; congruence].
Qed.

Lemma flood_nil width height field :
  rectangular width height field → flood width height field field [] [].
Proof.
  intros Hrect. split; [done|]. split; [done|]. split; [constructor|].
  split; [apply NoDup_nil_2|].
  split; [done|]. split; [simpl; lia|]. intros k i Hi. exists i.
  split; [done|]. split; [done|]. split; [done|]. split; [done|].
  split; intros H; by apply elem_of_nil in H.
Qed.

Lemma flood_app width height field field1 field2 V1 W1 V2 W2 :
  flood width height field field1 V1 W1 →
  flood width height field1 field2 V2 W2 →
  (∀ k, k ∈ V1 → k ∉ V2) →
  flood width height field field2 (V1 ++ V2) (W1 ++ W2).
Proof.
  intros H1 H2 Hdisj.
  pose proof H1 as (Hrect & Hrect1 & Hin1 & Hnd1 & Hsub1 & Hcount1 & Hpt1).
  pose proof H2 as (_ & Hrect2 & Hin2 & Hnd2 & Hsub2 & Hcount2 & Hpt2).
  split; [done|]. split; [done|]. split; [by apply Forall_app|]. split.
  { apply NoDup_app. split; [done|]. split; [|done].
    intros k Hk1 Hk2. apply (Hdisj k); auto. }
  split.
  { intros k [Hk|Hk]%elem_of_app; apply elem_of_app; auto. }
  split; [rewrite length_app; lia|].
  intros k i Hi.
  destruct (Hpt1 k i Hi) as (i1 & Hi1 & Hc1 & Hf1 & Hsame1 & Hop1 & Hvis1).
  destruct (Hpt2 k i1 Hi1) as (i2 & Hi2 & Hc2 & Hf2 & Hsame2 & Hop2 & Hvis2).
  exists i2. split; [done|]. split; [congruence|]. split; [congruence|].
  split; [|split].
  - intros Hk. rewrite Hsame2, Hsame1; [done| |]; intros Hk'; apply Hk, elem_of_app; auto.
  - intros [Hk|Hk]%elem_of_app; [by apply Hop1|].
    destruct (Hop2 Hk) as (Ho & Hf & Hc).
    destruct (decide (k ∈ V1)) as [HkV|HkV].
    + destruct (Hvis1 HkV) as [Ho1 _]. congruence.
    + rewrite (Hsame1 HkV) in *. done.
  - intros [Hk|Hk]%elem_of_app; [|by apply Hvis2].
    rewrite (Hsame2 (Hdisj k Hk)). destruct (Hvis1 Hk) as [Ho Hs].
    split; [done|]. by eapply surveyed_mono.
Qed.

Lemma Infect_S fuel cluster cell g :
  Infect (S fuel) cluster cell g =
  seen ← for_each (look (field_ g) cell) offsets
            {| number_of_mines := 0; infect_further := true; next_cells := [] |};
  field ← assign (set_number (number_of_mines seen)) (field_ g) cell;
  if infect_further seen then
    g' ← for_each open_next (next_cells seen) (with_field field g);
    for_each (λ '(cluster, g) next_cell, Infect fuel cluster next_cell g)
      (next_cells seen) (cluster ++ [cell], g')
  else Done (cluster ++ [cell], with_field field g).
Proof. reflexivity. Qed.

Lemma with_opened_cell_number_add g n m field field' :
  with_opened_cell_number
    (opened_cell_number_
       (with_opened_cell_number (opened_cell_number_ g + n) (with_field field g)) + m)
    (with_field field'
       (with_opened_cell_number (opened_cell_number_ g + n) (with_field field g))) =
  with_opened_cell_number (opened_cell_number_ g + (n + m)) (with_field field' g).
Proof.
  unfold with_opened_cell_number, with_field. simpl. f_equal. lia.
Qed.

Lemma with_opened_cell_number_0 g :
  g = with_opened_cell_number (opened_cell_number_ g + 0) (with_field (field_ g) g).
Proof.
  destruct g. unfold with_opened_cell_number, with_field. simpl. f_equal. lia.
Qed.

Section Infect_loop.
Variables (width height fuel : nat).
Hypothesis IH : ∀ cl c g,
  rectangular width height (field_ g) →
  open (field_ g) c →
  count_cells closed (field_ g) < fuel →
  ∃ vs g',
    Infect fuel cl c g = Done (cl ++ c :: vs, g') ∧
    g' = with_opened_cell_number (opened_cell_number_ g + length vs)
           (with_field (field_ g') g) ∧
    flood width height (field_ g) (field_ g') (c :: vs) vs.

Lemma Infect_loop cells cl g :
  NoDup cells →
  (∀ k, k ∈ cells → open (field_ g) k) →
  rectangular width height (field_ g) →
  (cells ≠ [] → count_cells closed (field_ g) < fuel) →
  ∃ V W g',
    for_each (λ '(cluster, g) next_cell, Infect fuel cluster next_cell g)
      cells (cl, g) = Done (cl ++ V, g') ∧
    g' = with_opened_cell_number (opened_cell_number_ g + length W)
           (with_field (field_ g') g) ∧
    V ≡ₚ cells ++ W ∧
    flood width height (field_ g) (field_ g') V W.
Proof.
  revert cl g. induction cells as [|c cells IHcells]; intros cl g Hnd Hopen Hrect Hfuel.
  - exists [], [], g. cbn [for_each]. rewrite app_nil_r. split; [done|].
    split; [apply with_opened_cell_number_0|]. split; [done|]. by apply flood_nil.
  - apply NoDup_cons in Hnd as [Hc Hnd].
    destruct (IH cl c g Hrect (Hopen c (list_elem_of_here _ _)) (Hfuel ltac:(done)))
      as (vs1 & g1 & Hrun1 & Hg1 & Hflood1).
    pose proof Hflood1 as (_ & Hrect1 & Hin1 & Hnd1 & _ & Hcount1 & Hpt1).
    destruct (IHcells (cl ++ c :: vs1) g1) as (V2 & W2 & g2 & Hrun2 & Hg2 & Hperm2 & Hflood2).
    { done. }
    { intros k Hk. eapply flood_open; [exact Hflood1|]. apply Hopen. by apply list_elem_of_further. }
    { done. }
    { intros _. specialize (Hfuel ltac:(done)). lia. }
    pose proof Hflood2 as (_ & _ & _ & _ & _ & _ & Hpt2).
    exists ((c :: vs1) ++ V2), (vs1 ++ W2), g2.
    cbn [for_each]. rewrite Hrun1. cbn [mbind run_bind]. rewrite Hrun2.
    split; [by rewrite <- app_assoc|]. split.
    { rewrite Hg2. rewrite Hg1 at 1 2. rewrite with_opened_cell_number_add.
      by rewrite length_app. }
    split.
    { rewrite Hperm2. cbn [app]. constructor.
      rewrite !app_assoc. apply Permutation_app_tail, Permutation_app_comm. }
    apply (flood_app _ _ _ _ _ _ _ _ _ Hflood1 Hflood2).
    intros k Hk Hk2. rewrite Hperm2 in Hk2. apply elem_of_app in Hk2 as [Hk2|Hk2].
    + (* a cell still to visit is open in the field, the cells opened were not *)
      apply elem_of_cons in Hk as [->|Hk]; [contradiction|].
      destruct (Hopen k (list_elem_of_further _ _ _ Hk2)) as (i & Hi & Ho).
      destruct (Hpt1 k i Hi) as (_ & _ & _ & _ & _ & Hop & _).
      destruct (Hop Hk) as [Ho' _]. congruence.
    + (* a cell opened later was closed after the first call *)
      assert (∃ i, at_cell (field_ g) k = Done i) as [i Hi].
      { apply (at_cell_inside _ _ _ _ Hrect).
        rewrite Forall_forall in Hin1. by apply Hin1. }
      destruct (Hpt1 k i Hi) as (i1 & Hi1 & _ & _ & _ & _ & Hvis).
      destruct (Hvis Hk) as [Ho1 _].
      destruct (Hpt2 k i1 Hi1) as (_ & _ & _ & _ & _ & Hop2 & _).
      destruct (Hop2 Hk2) as [Ho2 _]. congruence.
Qed.

End Infect_loop.

Lemma mined_altered f cell field k :
  (∀ i, content (f i) = content i) →
  mined (altered f cell field) k ↔ mined field k.
Proof.
  intros Hf. unfold mined. rewrite at_cell_altered.
  destruct (decide (k = cell)) as [->|Hne]; [|done].
  destruct (at_cell field cell) as [i| |]; cbn [mbind run_bind].
  - split.
    + intros (i' & [= <-] & Hc). exists i. split; [done|]. by rewrite <- Hf.
    + intros (i' & [= <-] & Hc). exists (f i). split; [done|]. by rewrite Hf.
  - split; intros (? & ? & _); discriminate.
  - split; intros (? & ? & _); discriminate.
Qed.

Lemma adjacent_neq a b : adjacent a b → a ≠ b.
Proof. by intros [? _]. Qed.

(** The flood fill from an open cell of a rectangular field, with a depth
    bound above the number of closed cells. *)
Lemma Infect_spec width height fuel cl c g :
  rectangular width height (field_ g) →
  open (field_ g) c →
  count_cells closed (field_ g) < fuel →
  ∃ vs g',
    Infect fuel cl c g = Done (cl ++ c :: vs, g') ∧
    g' = with_opened_cell_number (opened_cell_number_ g + length vs)
           (with_field (field_ g') g) ∧
    flood width height (field_ g) (field_ g') (c :: vs) vs.
Proof.
  revert cl c g. induction fuel as [|fuel IH]; intros cl c g Hrect Hopen Hfuel; [lia|].
  rewrite Infect_S. destruct Hopen as (ic & Hic & Hoc).
  destruct (survey width height (field_ g) c Hrect) as (seen & n & Hrun & Hn & Hmines & Hf & Hnext).
  rewrite Hrun. cbn [mbind run_bind]. rewrite (assign_Done _ _ _ _ Hic). cbn [mbind run_bind].
  set (N := number_of_mines seen) in *.
  set (F1 := altered (set_number N) c (field_ g)).
  assert (rectangular width height F1) as Hrect1
    by exact (altered_rectangular _ _ _ _ _ Hrect).
  assert (inside width height c) as Hinc
    by exact (at_cell_Done_inside _ _ _ _ _ Hrect Hic).
  assert (count_cells closed F1 = count_cells closed (field_ g)) as Hcount1.
  { pose proof (count_altered closed (set_number N) c (field_ g) ic Hic) as H.
    change (closed (set_number N ic)) with (closed ic) in H. fold F1 in H. lia. }
  assert (∀ k i, at_cell (field_ g) k = Done i →
            at_cell F1 k = Done (if decide (k = c) then set_number N i else i)) as Hat1.
  { intros k i Hi. unfold F1. rewrite at_cell_altered.
    destruct (decide (k = c)) as [->|Hne]; [|done]. by rewrite Hi. }
  assert (∀ k, mined F1 k ↔ mined (field_ g) k) as Hmined1.
  { intros k. by apply mined_altered. }
  rewrite Hf. destruct n as [|n]; cbn [Nat.eqb].
  - destruct (Hnext eq_refl) as [Hnd Hel].
    destruct (open_loop width height (next_cells seen) (with_field F1 g))
      as (F2 & Hrun2 & Hrect2 & Hcount2 & Hat2); [done|done| |].
    { intros k Hk. apply Hel in Hk as (Hadj & i & Hi & Ho & _).
      exists i. split; [|done]. cbn [field_ with_field]. rewrite (Hat1 k i Hi).
      rewrite decide_False; [done|]. intros ->. by apply adjacent_neq in Hadj. }
    rewrite Hrun2. cbn [mbind run_bind]. cbn [field_ with_field opened_cell_number_] in *.
    set (g2 := with_opened_cell_number (opened_cell_number_ g + length (next_cells seen))
                 (with_field F2 (with_field F1 g))) in *.
    assert (∀ k i, at_cell (field_ g) k = Done i →
              at_cell F2 k =
              Done (if decide (k ∈ next_cells seen) then set_opened true i
                    else if decide (k = c) then set_number N i else i)) as Hat12.
    { intros k i Hi. rewrite (Hat2 k _ (Hat1 k i Hi)).
      destruct (decide (k ∈ next_cells seen)) as [Hk|Hk]; [|done].
      rewrite decide_False; [done|]. intros ->.
      apply Hel in Hk as (Hadj & _). by apply adjacent_neq in Hadj. }
    destruct (Infect_loop width height fuel IH (next_cells seen) (cl ++ [c]) g2)
      as (V & W & g' & Hrun3 & Hg' & Hperm & Hflood).
    { done. }
    { intros k Hk. pose proof Hk as Hk'. apply Hel in Hk' as (_ & i & Hi & _).
      exists (set_opened true i). split; [|done]. cbn [g2 field_ with_opened_cell_number with_field].
      rewrite (Hat12 k i Hi). by rewrite decide_True. }
    { done. }
    { intros Hne. cbn [g2 field_ with_opened_cell_number with_field].
      destruct (next_cells seen); [done|]. cbn [length] in Hcount2. lia. }
    cbn [g2 field_ with_opened_cell_number with_field] in Hflood.
    pose proof Hflood as (_ & Hrect' & HinV & HndW & HsubW & Hcount' & Hpt).
    assert (length V = length (next_cells seen) + length W) as HlenV.
    { by rewrite Hperm, length_app. }
    assert (∀ k, k ∈ V → ∃ i, at_cell (field_ g) k = Done i ∧
              opened i = false ∧ flaged i = false ∧ content i = EMPTY) as HV.
    { intros k Hk. rewrite Hperm in Hk. apply elem_of_app in Hk as [Hk|Hk].
      - apply Hel in Hk as (Hadj & i & Hi & Ho & Hg). exists i.
        split; [done|]. split; [done|]. split; [done|].
        destruct (content i) eqn:Ec; [done|]. exfalso.
        destruct Hmines as (cells & _ & Hcells & Hlen).
        destruct cells; [|discriminate].
        assert (k ∈ @nil Cell) as Hbad by (apply Hcells; split; [done|]; by exists i).
        by apply elem_of_nil in Hbad.
      - destruct (at_cell_inside _ _ _ k Hrect) as [i Hi].
        { rewrite Forall_forall in HinV. apply HinV. by apply HsubW. }
        destruct (Hpt k _ (Hat12 k i Hi)) as (_ & _ & _ & _ & _ & Hop & _).
        destruct (Hop Hk) as (Ho & Hg & Hc). exists i. split; [done|].
        destruct (decide (k ∈ next_cells seen)); [discriminate|].
        destruct (decide (k = c)); done. }
    assert (c ∉ V) as HcV.
    { intros Hc. destruct (HV c Hc) as (i & Hi & Ho & _). congruence. }
    exists V, g'. rewrite Hrun3. split; [by rewrite <- app_assoc|]. split.
    { rewrite Hg'. unfold g2, with_opened_cell_number, with_field. simpl. f_equal. lia. }
    split; [done|]. split; [done|]. split; [by constructor|]. split.
    { rewrite Hperm. apply NoDup_app. split; [done|]. split; [|done].
      intros k Hk HkW. pose proof Hk as Hk'. apply Hel in Hk' as (_ & i & Hi & _).
      destruct (Hpt k _ (Hat12 k i Hi)) as (_ & _ & _ & _ & _ & Hop & _).
      destruct (Hop HkW) as (Ho & _). rewrite decide_True in Ho by done. discriminate. }
    split; [intros k Hk; by apply list_elem_of_further|]. split; [lia|].
    intros k i Hi.
    destruct (Hpt k _ (Hat12 k i Hi)) as (i' & Hi' & Hc' & Hf' & Hsame & Hop & Hvis).
    exists i'. split; [done|]. split.
    { rewrite Hc'. destruct (decide (k ∈ next_cells seen)); [done|]. by destruct (decide (k = c)). }
    split.
    { rewrite Hf'. destruct (decide (k ∈ next_cells seen)); [done|]. by destruct (decide (k = c)). }
    split; [|split].
    + intros Hk. rewrite Hsame.
      * rewrite decide_False.
        { rewrite decide_False; [done|]. intros ->. apply Hk, list_elem_of_here. }
        intros Hkn. apply Hk, list_elem_of_further. rewrite Hperm. apply elem_of_app. by left.
      * intros HkV. apply Hk. by apply list_elem_of_further.
    + intros Hk. destruct (HV k Hk) as (i0 & Hi0 & H0). by assert (i0 = i) as <- by congruence.
    + intros [->|Hk]%elem_of_cons; [|by apply Hvis].
      rewrite (Hsame HcV). rewrite decide_False.
      2:{ intros Hcn. apply HcV. rewrite Hperm. apply elem_of_app. by left. }
      rewrite decide_True by done. assert (i = ic) as -> by congruence.
      split; [done|]. exists 0. split; [exact Hn|]. split.
      * eapply mines_around_ext; [|exact Hmines]. intros k.
        rewrite <- (flood_mined _ _ _ _ _ _ k Hflood).
        split.
        -- intros (i0 & Hi0 & Hc0). exists (if decide (k ∈ next_cells seen) then set_opened true i0
                  else if decide (k = c) then set_number N i0 else i0).
           split; [by apply Hat12|]. destruct (decide (k ∈ next_cells seen)); [done|].
           by destruct (decide (k = c)).
        -- intros (i2 & Hi2 & Hc2). destruct (at_cell_inside _ _ _ k Hrect) as [i0 Hi0].
           { exact (at_cell_Done_inside _ _ _ _ _ Hrect2 Hi2). }
           exists i0. split; [done|]. rewrite (Hat12 k i0 Hi0) in Hi2. injection Hi2 as <-.
           destruct (decide (k ∈ next_cells seen)); [done|]. by destruct (decide (k = c)).
      * intros _ k i'' Hadj Hi''.
        destruct (at_cell_inside _ _ _ k Hrect) as [i0 Hi0].
        { exact (at_cell_Done_inside _ _ _ _ _ Hrect' Hi''). }
        destruct (Hpt k _ (Hat12 k i0 Hi0)) as (i3 & Hi3 & _ & Hf3 & Hsame3 & _ & Hvis3).
        assert (i3 = i'') as -> by congruence.
        destruct (decide (k ∈ V)) as [HkV|HkV]; [left; by apply Hvis3|].
        assert (k ∉ next_cells seen) as Hkn.
        { intros Hkn. apply HkV. rewrite Hperm. apply elem_of_app. by left. }
        rewrite (Hsame3 HkV). rewrite decide_False by done.
        rewrite decide_False by (intros ->; by apply adjacent_neq in Hadj).
        destruct (opened i0) eqn:Ho0; [by left|]. destruct (flaged i0) eqn:Hg0; [by right|].
        destruct Hkn. apply Hel. split; [done|]. by exists i0.
  - exists [], (with_field F1 g). split; [done|]. split.
    { unfold with_opened_cell_number, with_field. simpl. f_equal. lia. }
    cbn [field_ with_field]. split; [done|]. split; [done|].
    split; [constructor; [done|constructor]|]. split; [apply NoDup_nil_2|].
    split; [intros k Hk; by apply elem_of_nil in Hk|]. split; [simpl; lia|].
    intros k i Hi. exists (if decide (k = c) then set_number N i else i).
    split; [by apply Hat1|]. split; [by destruct (decide (k = c))|].
    split; [by destruct (decide (k = c))|]. split; [|split].
    + intros Hk. rewrite decide_False; [done|]. intros ->. apply Hk, list_elem_of_here.
    + intros Hk. by apply elem_of_nil in Hk.
    + intros ->%list_elem_of_singleton. rewrite decide_True by done.
      assert (i = ic) as -> by congruence. split; [done|].
      exists (S n). split; [exact Hn|]. split; [|done].
      eapply mines_around_ext; [|exact Hmines]. intros k. by rewrite Hmined1.
Qed.

Lemma begun_cases started g :
  (game_status_ g = NOT_STARTED ∨ game_status_ g = IN_PROGRESS) →
  game_status_ (begun started g) = IN_PROGRESS ∧
  field_ (begun started g) = field_ g ∧
  opened_cell_number_ (begun started g) = opened_cell_number_ g ∧
  mines_ (begun started g) = mines_ g ∧
  titles_ (begun started g) = titles_ g.
Proof. unfold begun. intros [H|H]; rewrite H; simpl; auto. Qed.

Lemma begun_over started g :
  (game_status_ g = VICTORY ∨ game_status_ g = DEFEAT) → begun started g = g.
Proof. unfold begun. by intros [-> | ->]. Qed.

Lemma status_cases g :
  (game_status_ g = NOT_STARTED ∨ game_status_ g = IN_PROGRESS) ∨
  (game_status_ g = VICTORY ∨ game_status_ g = DEFEAT).
Proof. destruct (game_status_ g); auto. Qed.

Lemma OpenCell_begun started finished cell g :
  game_status_ (begun started g) = IN_PROGRESS →
  OpenCell started finished cell g =
  info ← at_cell (field_ (begun started g)) cell;
  match content info with
  | MINE =>
      Done (with_time (finished - game_time_ (begun started g))
              (with_status DEFEAT
                 (with_field (map OpenLine (field_ (begun started g)))
                    (begun started g))))
  | EMPTY =>
      if opened info then Done (begun started g)
      else
        field ← assign (set_flaged false) (field_ (begun started g)) cell;
        field ← assign (set_opened true) field cell;
        '(buff, g') ←
          Infect (S (length (concat field))) [] cell
            (with_opened_cell_number (S (opened_cell_number_ (begun started g)))
               (with_field field (begun started g)));
        if mines_ g' + opened_cell_number_ g' =? titles_ g' then
          Done (with_time (finished - game_time_ g') (with_status VICTORY g'))
        else Done g'
  end.
Proof.
  intros H. unfold OpenCell. fold (begun started g). rewrite H. reflexivity.
Qed.

Lemma count_cells_le p field : count_cells p field ≤ length (concat field).
Proof. unfold count_cells. apply List.filter_length_le. Qed.

(** [OpenCell] on a closed cell without mine. *)
Lemma OpenCell_empty_spec width height started finished cell g info :
  rectangular width height (field_ g) →
  game_status_ g = NOT_STARTED ∨ game_status_ g = IN_PROGRESS →
  at_cell (field_ g) cell = Done info →
  content info = EMPTY →
  opened info = false →
  ∃ vs field',
    flood width height
      (altered (set_opened true) cell (altered (set_flaged false) cell (field_ g)))
      field' (cell :: vs) vs ∧
    OpenCell started finished cell g =
    Done (let g' := with_opened_cell_number (opened_cell_number_ g + S (length vs))
                      (with_field field' (begun started g)) in
          if mines_ g + (opened_cell_number_ g + S (length vs)) =? titles_ g
          then with_time (finished - game_time_ g') (with_status VICTORY g')
          else g').
Proof.
  intros Hrect Hs Hinfo Hc Ho.
  destruct (begun_cases started g Hs) as (Hs0 & Hf0 & Hn0 & Hm0 & Ht0).
  rewrite (OpenCell_begun _ _ _ _ Hs0). rewrite Hf0, Hinfo. cbn [mbind run_bind].
  rewrite Hc, Ho. rewrite (assign_Done _ _ _ _ Hinfo). cbn [mbind run_bind].
  set (Fa := altered (set_flaged false) cell (field_ g)).
  assert (at_cell Fa cell = Done (set_flaged false info)) as Hia
    by exact (at_cell_altered_same _ _ _ _ Hinfo).
  rewrite (assign_Done _ _ _ _ Hia). cbn [mbind run_bind].
  set (Fb := altered (set_opened true) cell Fa).
  assert (at_cell Fb cell = Done (set_opened true (set_flaged false info))) as Hib
    by exact (at_cell_altered_same _ _ _ _ Hia).
  assert (rectangular width height Fb) as Hrectb.
  { apply altered_rectangular, altered_rectangular, Hrect. }
  set (gb := with_opened_cell_number (S (opened_cell_number_ (begun started g)))
               (with_field Fb (begun started g))).
  destruct (Infect_spec width height (S (length (concat Fb))) [] cell gb)
    as (vs & g' & Hrun & Hg' & Hflood).
  { done. }
  { exists (set_opened true (set_flaged false info)). by split. }
  { cbn [gb field_ with_opened_cell_number with_field].
    pose proof (count_cells_le closed Fb). lia. }
  exists vs, (field_ g'). split; [exact Hflood|].
  rewrite Hrun. cbn [mbind run_bind app].
  rewrite Hg'. cbn [gb mines_ titles_ opened_cell_number_ with_opened_cell_number with_field].
  rewrite Hm0, Ht0, Hn0.
  replace (S (opened_cell_number_ g) + length vs)
    with (opened_cell_number_ g + S (length vs)) by lia.
  destruct (mines_ g + (opened_cell_number_ g + S (length vs)) =? titles_ g); reflexivity.
Qed.

(** [OpenCell] on a closed cell without mine, cell by cell. *)
Lemma OpenCell_empty_cells width height started finished cell g info :
  rectangular width height (field_ g) →
  game_status_ g = NOT_STARTED ∨ game_status_ g = IN_PROGRESS →
  at_cell (field_ g) cell = Done info →
  content info = EMPTY →
  opened info = false →
  ∃ vs field',
    OpenCell started finished cell g =
    Done (let g' := with_opened_cell_number (opened_cell_number_ g + S (length vs))
                      (with_field field' (begun started g)) in
          if mines_ g + (opened_cell_number_ g + S (length vs)) =? titles_ g
          then with_time (finished - game_time_ g') (with_status VICTORY g')
          else g') ∧
    rectangular width height field' ∧
    NoDup (cell :: vs) ∧
    count_cells closed field' + S (length vs) = count_cells closed (field_ g) ∧
    ∀ k i, at_cell (field_ g) k = Done i →
      ∃ i', at_cell field' k = Done i' ∧ content i' = content i ∧
        (k ∉ cell :: vs → i' = i) ∧
        (k ∈ cell :: vs →
         opened i = false ∧ content i = EMPTY ∧ (k ≠ cell → flaged i = false) ∧
         opened i' = true ∧ flaged i' = false ∧ surveyed field' k i').
Proof.
  intros Hrect Hs Hinfo Hc Ho.
  destruct (OpenCell_empty_spec width height started finished cell g info)
    as (vs & field' & Hflood & Hrun); try done.
  exists vs, field'. split; [exact Hrun|].
  set (Fa := altered (set_flaged false) cell (field_ g)) in *.
  set (Fb := altered (set_opened true) cell Fa) in *.
  pose proof Hflood as (_ & Hrect' & _ & Hnd & _ & Hcount & Hpt).
  assert (∀ k i, at_cell (field_ g) k = Done i →
            at_cell Fb k =
            Done (if decide (k = cell) then set_opened true (set_flaged false i) else i))
    as Hatb.
  { intros k i Hi. unfold Fb, Fa. rewrite !at_cell_altered.
    destruct (decide (k = cell)) as [->|Hne]; [|done].
    rewrite decide_True by done. by rewrite Hi. }
  assert (cell ∉ vs) as Hcvs.
  { intros Hin. destruct (Hpt cell _ (Hatb cell info Hinfo)) as (_ & _ & _ & _ & _ & Hop & _).
    destruct (Hop Hin) as [Hbad _]. rewrite decide_True in Hbad by done. discriminate. }
  split; [done|]. split; [by apply NoDup_cons|]. split.
  { assert (count_cells closed Fa = count_cells closed (field_ g)) as Ha.
    { pose proof (count_altered closed (set_flaged false) cell (field_ g) info Hinfo) as H.
      change (closed (set_flaged false info)) with (closed info) in H. fold Fa in H. lia. }
    assert (count_cells closed Fb + 1 = count_cells closed Fa) as Hb.
    { pose proof (count_altered closed (set_opened true) cell Fa (set_flaged false info)) as H.
      change (closed (set_opened true (set_flaged false info))) with false in H.
      change (closed (set_flaged false info)) with (negb (opened info)) in H.
      rewrite Ho in H. cbn [negb] in H. fold Fb in H.
      specialize (H (at_cell_altered_same _ _ _ _ Hinfo)). lia. }
    lia. }
  intros k i Hi.
  destruct (Hpt k _ (Hatb k i Hi)) as (i' & Hi' & Hc' & Hf' & Hsame & Hop & Hvis).
  exists i'. split; [done|]. split.
  { rewrite Hc'. by destruct (decide (k = cell)). }
  split.
  - intros Hk. rewrite (Hsame Hk). rewrite decide_False; [done|].
    intros ->. apply Hk, list_elem_of_here.
  - intros Hk. destruct (Hvis Hk) as [Ho' Hsurv].
    destruct (decide (k = cell)) as [->|Hne].
    + assert (i = info) as -> by congruence. rewrite Hf'. done.
    + apply elem_of_cons in Hk as [?|Hk]; [done|].
      destruct (Hop Hk) as (H1 & H2 & H3). rewrite Hf'. done.
Qed.

(** X22.  [OpenCell] on a closed cell without mine, in a game that is not
    over and whose field is rectangular, returns without fault; the
    recursion of [Infect] ends within the depth bound. It opens the cell,
    removing its flag, and a set of further cells, each of them closed,
    unflagged and without mine before; it leaves every other cell as it is,
    changes the content of no cell, adds the number of cells it opened to
    [opened_cell_number_], and never ends the game in [DEFEAT]. *)
Theorem OpenCell_opens_empty_cells width height started finished cell g info :
  rectangular width height (field_ g) →
  game_status_ g = NOT_STARTED ∨ game_status_ g = IN_PROGRESS →
  at_cell (field_ g) cell = Done info →
  content info = EMPTY →
  opened info = false →
  ∃ g' vs,
    OpenCell started finished cell g = Done g' ∧
    rectangular width height (field_ g') ∧
    (game_status_ g' = IN_PROGRESS ∨ game_status_ g' = VICTORY) ∧
    NoDup (cell :: vs) ∧
    opened_cell_number_ g' = opened_cell_number_ g + length (cell :: vs) ∧
    ∀ k i, at_cell (field_ g) k = Done i →
      ∃ i', at_cell (field_ g') k = Done i' ∧ content i' = content i ∧
        (k ∉ cell :: vs → i' = i) ∧
        (k ∈ cell :: vs →
         opened i = false ∧ content i = EMPTY ∧ (k ≠ cell → flaged i = false) ∧
         opened i' = true ∧ flaged i' = false).
Proof.
  intros Hrect Hs Hinfo Hc Ho.
  destruct (OpenCell_empty_cells width height started finished cell g info)
    as (vs & field' & Hrun & Hrect' & Hnd & _ & Hpt); try done.
  destruct (begun_cases started g Hs) as (Hs0 & _).
  eexists _, vs. split; [exact Hrun|].
  assert (∀ k i, at_cell (field_ g) k = Done i →
      ∃ i', at_cell field' k = Done i' ∧ content i' = content i ∧
        (k ∉ cell :: vs → i' = i) ∧
        (k ∈ cell :: vs →
         opened i = false ∧ content i = EMPTY ∧ (k ≠ cell → flaged i = false) ∧
         opened i' = true ∧ flaged i' = false)) as Hpt'.
  { intros k i Hi. destruct (Hpt k i Hi) as (i' & H1 & H2 & H3 & H4).
    exists i'. split; [done|]. split; [done|]. split; [done|].
    intros Hk. destruct (H4 Hk) as (? & ? & ? & ? & ? & _). done. }
  destruct (mines_ g + (opened_cell_number_ g + S (length vs)) =? titles_ g);
    cbn [field_ game_status_ opened_cell_number_ with_time with_status
         with_opened_cell_number with_field length];
    (split; [done|]); (split; [auto|]); (split; [done|]); (split; [done|]); exact Hpt'.
Qed.

Lemma OpenCell_opens_empty_cells_witness :
  let g := {| game_status_ := NOT_STARTED;
              field_ := [[default_cell; mine_cell]];
              game_time_ := 0; opened_cell_number_ := 0; mine_counter_ := 0;
              mines_ := 1; titles_ := 2 |} in
  let cell := {| x := 0; y := 0 |} in
  ∃ g' vs,
    OpenCell 10 25 cell g = Done g' ∧
    rectangular 2 1 (field_ g') ∧
    (game_status_ g' = IN_PROGRESS ∨ game_status_ g' = VICTORY) ∧
    NoDup (cell :: vs) ∧
    opened_cell_number_ g' = opened_cell_number_ g + length (cell :: vs) ∧
    ∀ k i, at_cell (field_ g) k = Done i →
      ∃ i', at_cell (field_ g') k = Done i' ∧ content i' = content i ∧
        (k ∉ cell :: vs → i' = i) ∧
        (k ∈ cell :: vs →
         opened i = false ∧ content i = EMPTY ∧ (k ≠ cell → flaged i = false) ∧
         opened i' = true ∧ flaged i' = false).
Proof.
  apply (OpenCell_opens_empty_cells 2 1 10 25 {| x := 0; y := 0 |}
    {| game_status_ := NOT_STARTED;
       field_ := [[default_cell; mine_cell]];
       game_time_ := 0; opened_cell_number_ := 0; mine_counter_ := 0;
       mines_ := 1; titles_ := 2 |} default_cell).
  - split; [reflexivity|]. repeat constructor.
  - left. reflexivity.
  - reflexivity.
  - reflexivity.
  - reflexivity.
Defined.

(** X23.  Every cell that [OpenCell] opens on a closed cell without mine
    stores the number of mines in the cells adjacent to it; and when that
    number is zero, all cells adjacent to it are open or flagged afterwards. *)
Theorem OpenCell_numbers width height started finished cell g info :
  rectangular width height (field_ g) →
  game_status_ g = NOT_STARTED ∨ game_status_ g = IN_PROGRESS →
  at_cell (field_ g) cell = Done info →
  content info = EMPTY →
  opened info = false →
  ∃ g',
    OpenCell started finished cell g = Done g' ∧
    ∀ k i i', at_cell (field_ g) k = Done i → at_cell (field_ g') k = Done i' →
      opened i = false → opened i' = true →
      surveyed (field_ g') k i'.
Proof.
  intros Hrect Hs Hinfo Hc Ho.
  destruct (OpenCell_empty_cells width height started finished cell g info)
    as (vs & field' & Hrun & Hrect' & Hnd & _ & Hpt); try done.
  eexists. split; [exact Hrun|].
  assert (∀ k i i', at_cell (field_ g) k = Done i → at_cell field' k = Done i' →
      opened i = false → opened i' = true → surveyed field' k i') as Hpt'.
  { intros k i i' Hi Hi' Hoi Hoi'.
    destruct (Hpt k i Hi) as (i'' & H1 & H2 & H3 & H4).
    assert (i'' = i') as -> by congruence.
    destruct (decide (k ∈ cell :: vs)) as [Hk|Hk].
    - by destruct (H4 Hk) as (_ & _ & _ & _ & _ & ?).
    - rewrite (H3 Hk) in Hoi'. congruence. }
  destruct (mines_ g + (opened_cell_number_ g + S (length vs)) =? titles_ g);
    cbn [field_ with_time with_status with_opened_cell_number with_field]; exact Hpt'.
Qed.

Lemma OpenCell_numbers_witness :
  let g := {| game_status_ := NOT_STARTED;
              field_ := [[default_cell; mine_cell]];
              game_time_ := 0; opened_cell_number_ := 0; mine_counter_ := 0;
              mines_ := 1; titles_ := 2 |} in
  ∃ g',
    OpenCell 10 25 {| x := 0; y := 0 |} g = Done g' ∧
    ∀ k i i', at_cell (field_ g) k = Done i → at_cell (field_ g') k = Done i' →
      opened i = false → opened i' = true →
      surveyed (field_ g') k i'.
Proof.
  apply (OpenCell_numbers 2 1 10 25 {| x := 0; y := 0 |}
    {| game_status_ := NOT_STARTED;
       field_ := [[default_cell; mine_cell]];
       game_time_ := 0; opened_cell_number_ := 0; mine_counter_ := 0;
       mines_ := 1; titles_ := 2 |} default_cell).
  - split; [reflexivity|]. repeat constructor.
  - left. reflexivity.
  - reflexivity.
  - reflexivity.
  - reflexivity.
Defined.

Lemma filter_split {A} (p : A → bool) (l : list A) :
  length (List.filter p l) + length (List.filter (λ a, negb (p a)) l) = length l.
Proof.
  induction l as [|a l IH]; [done|]. cbn [List.filter].
  destruct (p a); cbn [negb length]; lia.
Qed.

Lemma count_cells_split field :
  count_cells closed field + count_cells opened field = length (concat field).
Proof.
  unfold count_cells, closed. pose proof (filter_split opened (concat field)). lia.
Qed.

Lemma length_concat_rectangular width height field :
  rectangular width height field → length (concat field) = width * height.
Proof.
  intros [<- Hall]. induction Hall as [|line field Hl _ IH]; cbn [concat length]; [lia|].
  rewrite length_app, IH, Hl. lia.
Qed.

Lemma field_Forall (P : CellInfo → Prop) field :
  (∀ k i, at_cell field k = Done i → P i) ↔ Forall P (concat field).
Proof.
  rewrite Forall_forall. split.
  - intros H c Hc. apply list_elem_of_In, in_concat in Hc as (line & Hline & Hc).
    apply list_elem_of_In, list_elem_of_lookup in Hline as [j Hj].
    apply list_elem_of_In, list_elem_of_lookup in Hc as [i Hi].
    apply (H {| x := i; y := j |}). apply at_cell_lookup. eauto.
  - intros H k i (line & Hline & Hi)%at_cell_lookup. apply H.
    apply list_elem_of_In, in_concat. exists line. split; apply list_elem_of_In.
    + by eapply list_elem_of_lookup_2.
    + by eapply list_elem_of_lookup_2.
Qed.

Lemma count_disjoint {A} (p q : A → bool) (l : list A) :
  Forall (λ a, q a = true → p a = false) l →
  length (List.filter p l) + length (List.filter q l) ≤ length l.
Proof.
  induction 1 as [|a l Ha _ IH]; [done|]. cbn [List.filter].
  destruct (p a) eqn:Ep, (q a) eqn:Eq; cbn [length];
    try (specialize (Ha eq_refl); discriminate); lia.
Qed.

Lemma count_cover {A} (p q : A → bool) (l : list A) :
  Forall (λ a, q a = true → p a = false) l →
  length (List.filter p l) + length (List.filter q l) = length l ↔
  Forall (λ a, p a = false → q a = true) l.
Proof.
  induction 1 as [|a l Ha Hl IH]; [by split; [constructor|]|].
  pose proof (count_disjoint p q l Hl).
  cbn [List.filter]. rewrite Forall_cons.
  destruct (p a) eqn:Ep, (q a) eqn:Eq; cbn [length]; try (specialize (Ha eq_refl); discriminate).
  - rewrite <- IH. split; [intros ?; split; [done|lia]|intros [_ ?]; lia].
  - rewrite <- IH. split; [intros ?; split; [done|lia]|intros [_ ?]; lia].
  - split; [lia|]. intros [Hbad _]. specialize (Hbad eq_refl). discriminate.
Qed.

Lemma count_map p (f : CellInfo → CellInfo) field :
  (∀ c, p (f c) = p c) →
  count_cells p (map (map f) field) = count_cells p field.
Proof.
  intros Hf. unfold count_cells. induction field as [|line field IH]; [done|].
  cbn [map concat]. rewrite !List.filter_app, !length_app, IH. f_equal.
  clear IH. induction line as [|c line IHl]; [done|]. cbn [map List.filter].
  rewrite Hf. destruct (p c); cbn [length]; lia.
Qed.

Lemma pointwise_count (p : CellInfo → bool) width height field field' :
  rectangular width height field → rectangular width height field' →
  (∀ k i, at_cell field k = Done i →
          ∃ i', at_cell field' k = Done i' ∧ p i' = p i) →
  count_cells p field' = count_cells p field.
Proof.
  intros Hrect Hrect' Hpt.
  assert (map (map p) field' = map (map p) field) as Heq.
  { apply list_eq. intros j. rewrite !list_lookup_fmap.
    destruct (field !! j) as [line|] eqn:Hline.
    - destruct (lookup_lt_is_Some_2 field' j) as [line' Hline'].
      { destruct Hrect' as [-> _]. destruct Hrect as [<- _]. by eapply lookup_lt_Some. }
      rewrite Hline'. cbn. f_equal. apply list_eq. intros i. rewrite !list_lookup_fmap.
      destruct (line !! i) as [c|] eqn:Hc.
      + destruct (Hpt {| x := i; y := j |} c) as (c' & Hc' & Hp).
        { apply at_cell_lookup. eauto. }
        apply at_cell_lookup in Hc' as (l' & Hl' & Hc'). cbn [x y] in *.
        assert (l' = line') as -> by congruence. rewrite Hc'. cbn. by rewrite Hp.
      + apply lookup_ge_None in Hc.
        rewrite (rectangular_line _ _ _ _ _ Hrect Hline) in Hc.
        rewrite <- (rectangular_line _ _ _ _ _ Hrect' Hline') in Hc.
        apply lookup_ge_None in Hc. by rewrite Hc.
    - apply lookup_ge_None in Hline. destruct Hrect as [Hlen _]. rewrite Hlen in Hline.
      destruct Hrect' as [Hlen' _]. rewrite <- Hlen' in Hline.
      apply lookup_ge_None in Hline. by rewrite Hline. }
  assert (∀ F, count_cells p F = length (List.filter (λ b : bool, b) (concat (map (map p) F)))) as Hc.
  { intros F. unfold count_cells. rewrite <- concat_map, List.filter_map_swap.
    by rewrite length_map. }
  by rewrite !Hc, Heq.
Qed.

Lemma pointwise_mined width height field field' :
  rectangular width height field → rectangular width height field' →
  (∀ k i, at_cell field k = Done i →
          ∃ i', at_cell field' k = Done i' ∧ content i' = content i) →
  ∀ k, mined field k ↔ mined field' k.
Proof.
  intros Hrect Hrect' Hpt k. split.
  - intros (i & Hi & Hc). destruct (Hpt k i Hi) as (i' & Hi' & Hc').
    exists i'. split; [done|]. congruence.
  - intros (i' & Hi' & Hc'). destruct (at_cell_inside _ _ _ k Hrect) as [i Hi].
    { by eapply at_cell_Done_inside. }
    destruct (Hpt k i Hi) as (i'' & Hi'' & Hc). exists i. split; [done|]. congruence.
Qed.

Lemma consistent_begun width height started g :
  consistent width height g →
  game_status_ g = NOT_STARTED ∨ game_status_ g = IN_PROGRESS →
  consistent width height (begun started g).
Proof.
  intros (Hrect & Ht & Hm & Hopen & Hwon) Hs. unfold begun.
  destruct Hs as [Hs|Hs]; rewrite Hs; [|done].
  split; [done|]. split; [done|]. split; [done|]. split.
  - intros _. apply Hopen. by rewrite Hs.
  - discriminate.
Qed.

Lemma MarkCell_begun started cell g :
  game_status_ (begun started g) = IN_PROGRESS →
  MarkCell started cell g =
  info ← at_cell (field_ (begun started g)) cell;
  if negb (opened info) then
    field ← assign (λ c, set_flaged (negb (flaged c)) c) (field_ (begun started g)) cell;
    Done (with_field field (begun started g))
  else Done (begun started g).
Proof.
  intros H. unfold MarkCell. fold (begun started g). rewrite H. reflexivity.
Qed.

Lemma MarkCell_over started cell g :
  game_status_ g = VICTORY ∨ game_status_ g = DEFEAT → MarkCell started cell g = Done g.
Proof. unfold MarkCell. by intros [H|H]; rewrite !H; cbn; rewrite ?H. Qed.

Lemma OpenCell_over started finished cell g :
  game_status_ g = VICTORY ∨ game_status_ g = DEFEAT →
  OpenCell started finished cell g = Done g.
Proof. unfold OpenCell. by intros [H|H]; rewrite !H; cbn; rewrite ?H. Qed.

Lemma consistent_MarkCell width height started cell g g' :
  consistent width height g →
  MarkCell started cell g = Done g' →
  consistent width height g'.
Proof.
  intros Hcons Hrun. destruct (status_cases g) as [Hs|Hs].
  2:{ rewrite (MarkCell_over _ _ _ Hs) in Hrun. by injection Hrun as <-. }
  destruct (begun_cases started g Hs) as (Hs0 & _).
  pose proof (consistent_begun _ _ started _ Hcons Hs) as Hcons0.
  rewrite (MarkCell_begun _ _ _ Hs0) in Hrun. revert Hcons0 Hs0 Hrun.
  generalize (begun started g). clear g Hcons Hs. intros g Hcons Hs Hrun.
  destruct (at_cell (field_ g) cell) as [info| |] eqn:Hinfo; [|done|done].
  cbn [mbind run_bind] in Hrun. destruct (opened info) eqn:Ho; cbn [negb] in Hrun.
  { by injection Hrun as <-. }
  rewrite (assign_Done _ _ _ _ Hinfo) in Hrun. injection Hrun as <-.
  destruct Hcons as (Hrect & Ht & Hm & Hopen & Hwon).
  set (tog := λ c, set_flaged (negb (flaged c)) c).
  assert (∀ p, (∀ c, p (tog c) = p c) →
               count_cells p (altered tog cell (field_ g)) = count_cells p (field_ g)) as Hcount.
  { intros p Hp. pose proof (count_altered p tog cell (field_ g) info Hinfo) as H.
    rewrite Hp in H. lia. }
  unfold consistent.
  cbn [field_ titles_ mines_ game_status_ opened_cell_number_ with_field].
  split; [by apply altered_rectangular|]. split; [done|]. split.
  { by rewrite Hcount. }
  split; [|by rewrite Hs].
  intros Hnd. destruct (Hopen Hnd) as [Hn Hcells]. split; [by rewrite Hcount|].
  intros k i Hi Hoi. rewrite at_cell_altered in Hi.
  destruct (decide (k = cell)) as [->|Hne].
  - rewrite Hinfo in Hi. injection Hi as <-. cbn in Hoi. congruence.
  - destruct (Hcells k i Hi Hoi) as (Hc & Hfl & n & Hnum & Hmines).
    split; [done|]. split; [done|].
    exists n. split; [done|]. eapply mines_around_ext; [|exact Hmines].
    intros k'. symmetry. by apply mined_altered.
Qed.

Lemma consistent_OpenCell width height started finished cell g g' :
  consistent width height g →
  OpenCell started finished cell g = Done g' →
  consistent width height g'.
Proof.
  intros Hcons Hrun. destruct (status_cases g) as [Hs|Hs].
  2:{ rewrite (OpenCell_over _ _ _ _ Hs) in Hrun. by injection Hrun as <-. }
  destruct (at_cell (field_ g) cell) as [info| |] eqn:Hinfo.
  2:{ destruct (begun_cases started g Hs) as (Hs0 & Hf0 & _).
      rewrite (OpenCell_begun _ _ _ _ Hs0), Hf0, Hinfo in Hrun. discriminate. }
  2:{ by apply at_cell_fuel in Hinfo. }
  destruct (content info) eqn:Hc.
  - destruct (opened info) eqn:Ho.
    + destruct (begun_cases started g Hs) as (Hs0 & Hf0 & _).
      rewrite (OpenCell_begun _ _ _ _ Hs0), Hf0, Hinfo in Hrun.
      cbn [mbind run_bind] in Hrun. rewrite Hc, Ho in Hrun. injection Hrun as <-.
      by apply consistent_begun.
    + pose proof Hcons as (Hrect & Ht & Hm & Hopen & _).
      destruct (OpenCell_empty_cells width height started finished cell g info)
        as (vs & field' & Hrun' & Hrect' & Hnd & Hcount & Hpt); try done.
      rewrite Hrun' in Hrun. injection Hrun as <-.
      assert (game_status_ g ≠ DEFEAT) as Hnd' by (destruct Hs as [-> | ->]; discriminate).
      destruct (Hopen Hnd') as [Hn Hcells].
      assert (count_cells is_mine field' = count_cells is_mine (field_ g)) as Hmines.
      { apply (pointwise_count _ width height); try done.
        intros k i Hi. destruct (Hpt k i Hi) as (i' & Hi' & Hc' & _).
        exists i'. split; [done|]. unfold is_mine. by rewrite Hc'. }
      assert (∀ k, mined (field_ g) k ↔ mined field' k) as Hmined.
      { apply (pointwise_mined width height); try done.
        intros k i Hi. destruct (Hpt k i Hi) as (i' & Hi' & Hc' & _). eauto. }
      assert (opened_cell_number_ g + S (length vs) = count_cells opened field') as Hn'.
      { pose proof (count_cells_split field') as H1.
        pose proof (count_cells_split (field_ g)) as H2.
        rewrite (length_concat_rectangular _ _ _ Hrect') in H1.
        rewrite (length_concat_rectangular _ _ _ Hrect) in H2. lia. }
      assert (∀ k i, at_cell field' k = Done i → opened i = true →
                content i = EMPTY ∧ flaged i = false ∧
                ∃ n, number_of_mines_in_near_cells i = Z.of_nat n ∧
                     mines_around field' k n) as Hcells'.
      { intros k i' Hi' Ho'. destruct (at_cell_inside _ _ _ k Hrect) as [i Hi].
        { by eapply at_cell_Done_inside. }
        destruct (Hpt k i Hi) as (i'' & Hi'' & Hc'' & Hout & Hin).
        assert (i'' = i') as -> by congruence.
        destruct (decide (k ∈ cell :: vs)) as [Hk|Hk].
        - destruct (Hin Hk) as (_ & Hce & _ & _ & Hfl & n & Hnum & Hma & _).
          split; [congruence|]. split; [done|]. eauto.
        - rewrite (Hout Hk) in *.
          destruct (Hcells k i Hi Ho') as (Hce & Hfl & n & Hnum & Hma).
          split; [done|]. split; [done|]. exists n. split; [done|].
          eapply mines_around_ext; [|exact Hma]. exact Hmined. }
      destruct (begun_cases started g Hs) as (Hs0 & Hf0 & Hn0 & Hm0 & Ht0).
      unfold consistent.
      destruct (mines_ g + (opened_cell_number_ g + S (length vs)) =? titles_ g) eqn:Ewin;
        cbn [field_ titles_ mines_ game_status_ opened_cell_number_ with_field
             with_time with_status with_opened_cell_number];
        rewrite ?Hm0, ?Ht0, ?Hs0.
      * split; [done|]. split; [done|]. split; [congruence|]. split; [done|].
        intros _. apply Nat.eqb_eq in Ewin.
        refine (proj2 (field_Forall (λ c, content c = EMPTY → opened c = true) field') _).
        assert (Forall (λ c, is_mine c = false → opened c = true) (concat field')) as Hall.
        { apply count_cover.
          - refine (proj1 (field_Forall (λ c, opened c = true → is_mine c = false) field') _).
            intros k i Hi Ho'.
            destruct (Hcells' k i Hi Ho') as [Hce _]. unfold is_mine. by rewrite Hce.
          - fold (count_cells is_mine field'). fold (count_cells opened field').
            rewrite (length_concat_rectangular _ _ _ Hrect'). lia. }
        eapply Forall_impl; [exact Hall|]. intros c Himp Hce. apply Himp.
        unfold is_mine. by rewrite Hce.
      * split; [done|]. split; [done|]. split; [congruence|]. split; [done|]. discriminate.
  - destruct (begun_cases started g Hs) as (Hs0 & Hf0 & Hn0 & Hm0 & Ht0).
    rewrite (OpenCell_begun _ _ _ _ Hs0), Hf0, Hinfo in Hrun.
    cbn [mbind run_bind] in Hrun. rewrite Hc in Hrun. injection Hrun as <-.
    destruct Hcons as (Hrect & Ht & Hm & _ & _). unfold consistent.
    cbn [field_ titles_ mines_ game_status_ opened_cell_number_ with_field
         with_time with_status]. rewrite Hm0, Ht0.
    split.
    { destruct Hrect as [Hlen Hall]. split; [by rewrite length_map|].
      apply Forall_fmap. eapply Forall_impl; [exact Hall|].
      intros line Hl. cbn. unfold OpenLine. by rewrite length_map. }
    split; [done|]. split.
    { unfold OpenLine. by rewrite count_map. }
    split; [done|discriminate].
Qed.

(** X24.  The moves keep the game consistent: if the object is [consistent]
    before [OpenCell] or [MarkCell] and the call returns, it is [consistent]
    after it. *)
Theorem consistent_preserved width height started finished cell g :
  consistent width height g →
  (∀ g', OpenCell started finished cell g = Done g' → consistent width height g') ∧
  (∀ g', MarkCell started cell g = Done g' → consistent width height g').
Proof.
  intros Hcons. split; intros g' Hrun.
  - by eapply consistent_OpenCell.
  - by eapply consistent_MarkCell.
Qed.

Lemma consistent_preserved_witness :
  let g := {| game_status_ := NOT_STARTED;
              field_ := [[default_cell; mine_cell]];
              game_time_ := 0; opened_cell_number_ := 0; mine_counter_ := 0;
              mines_ := 1; titles_ := 2 |} in
  (∀ g', OpenCell 10 25 {| x := 0; y := 0 |} g = Done g' → consistent 2 1 g') ∧
  (∀ g', MarkCell 10 {| x := 0; y := 0 |} g = Done g' → consistent 2 1 g').
Proof.
  apply (consistent_preserved 2 1 10 25 {| x := 0; y := 0 |}).
  split; [split; [reflexivity|repeat constructor]|].
  split; [reflexivity|]. split; [reflexivity|]. split; [|discriminate].
  intros _. split; [reflexivity|]. intros k i Hi Ho. exfalso. revert k i Hi Ho.
  refine (proj2 (field_Forall (λ c, opened c = true → False) _) _).
  repeat constructor; discriminate.
Defined.

(** X25.  [OpenCell] on a closed cell without mine of a consistent game that
    is not over ends the game in [VICTORY] exactly when it leaves no cell
    without mine closed; the stored time is then the time elapsed since the
    start, and [GetGameTime] returns it whatever the clock. *)
Theorem OpenCell_victory width height started finished cell g info :
  consistent width height g →
  game_status_ g = NOT_STARTED ∨ game_status_ g = IN_PROGRESS →
  at_cell (field_ g) cell = Done info →
  content info = EMPTY →
  opened info = false →
  ∃ g',
    OpenCell started finished cell g = Done g' ∧
    (game_status_ g' = VICTORY ↔
     ∀ k i, at_cell (field_ g') k = Done i → content i = EMPTY → opened i = true) ∧
    (game_status_ g' = VICTORY →
     ∀ now, GetGameTime now g' = (finished - game_time_ (begun started g))%Z).
Proof.
  intros Hcons Hs Hinfo Hc Ho. pose proof Hcons as (Hrect & _).
  destruct (OpenCell_empty_cells width height started finished cell g info)
    as (vs & field' & Hrun & _); try done.
  eexists. split; [exact Hrun|].
  pose proof (consistent_OpenCell _ _ _ _ _ _ _ Hcons Hrun)
    as (Hrect' & Ht' & Hm' & Hopen' & Hwon').
  destruct (begun_cases started g Hs) as (Hs0 & Hf0 & Hn0 & Hm0 & Ht0).
  revert Hrect' Ht' Hm' Hopen' Hwon'.
  destruct (mines_ g + (opened_cell_number_ g + S (length vs)) =? titles_ g) eqn:Ewin;
    cbn [field_ titles_ mines_ game_status_ game_time_ opened_cell_number_ with_field
         with_time with_status with_opened_cell_number GetGameTime];
    rewrite ?Hm0, ?Ht0, ?Hs0; intros Hrect' Ht' Hm' Hopen' Hwon'.
  - split; [|done]. split; [exact Hwon'|done].
  - split; [|discriminate]. split; [discriminate|]. intros Hall. exfalso.
    apply Nat.eqb_neq in Ewin. apply Ewin.
    destruct (Hopen' ltac:(discriminate)) as [Hn' Hcells']. rewrite Hn', Hm', Ht'.
    rewrite <- (length_concat_rectangular _ _ _ Hrect'). apply count_cover.
    + refine (proj1 (field_Forall (λ c, opened c = true → is_mine c = false) field') _).
      intros k i Hi Ho'. destruct (Hcells' k i Hi Ho') as [Hce _].
      unfold is_mine. by rewrite Hce.
    + refine (proj1 (field_Forall (λ c, is_mine c = false → opened c = true) field') _).
      intros k i Hi Hnm. apply (Hall k i Hi). unfold is_mine in Hnm.
      by destruct (content i).
Qed.

Lemma OpenCell_victory_witness :
  let g := {| game_status_ := NOT_STARTED;
              field_ := [[default_cell; mine_cell]];
              game_time_ := 0; opened_cell_number_ := 0; mine_counter_ := 0;
              mines_ := 1; titles_ := 2 |} in
  ∃ g',
    OpenCell 10 25 {| x := 0; y := 0 |} g = Done g' ∧
    (game_status_ g' = VICTORY ↔
     ∀ k i, at_cell (field_ g') k = Done i → content i = EMPTY → opened i = true) ∧
    (game_status_ g' = VICTORY → ∀ now, GetGameTime now g' = 15%Z).
Proof.
  apply (OpenCell_victory 2 1 10 25 {| x := 0; y := 0 |}
    {| game_status_ := NOT_STARTED;
       field_ := [[default_cell; mine_cell]];
       game_time_ := 0; opened_cell_number_ := 0; mine_counter_ := 0;
       mines_ := 1; titles_ := 2 |} default_cell).
  - split; [split; [reflexivity|repeat constructor]|].
    split; [reflexivity|]. split; [reflexivity|]. split; [|discriminate].
    intros _. split; [reflexivity|]. intros k i Hi Ho. exfalso. revert k i Hi Ho.
    refine (proj2 (field_Forall (λ c, opened c = true → False) _) _).
    repeat constructor; discriminate.
  - left. reflexivity.
  - reflexivity.
  - reflexivity.
  - reflexivity.
Defined.

Lemma lay_loop_count width height cells field :
  rectangular width height field →
  Forall (inside width height) cells →
  NoDup cells →
  (∀ c i, c ∈ cells → at_cell field c = Done i → content i = EMPTY) →
  ∃ field', for_each (assign (set_content MINE)) cells field = Done field' ∧
    count_cells is_mine field' = count_cells is_mine field + length cells ∧
    count_cells opened field' = count_cells opened field.
Proof.
  revert field. induction cells as [|c cells IH]; intros field Hrect Hin Hnd Hempty.
  - exists field. cbn [for_each length]. split; [done|]. split; [lia|done].
  - apply Forall_cons in Hin as [Hc Hin]. apply NoDup_cons in Hnd as [Hnc Hnd].
    destruct (at_cell_inside _ _ _ _ Hrect Hc) as [ic Hic].
    cbn [for_each]. rewrite (assign_Done _ _ _ _ Hic). cbn [mbind run_bind].
    destruct (IH (altered (set_content MINE) c field)) as (field' & Hrun & Hm & Ho).
    { by apply altered_rectangular. }
    { done. }
    { done. }
    { intros c' i Hc' Hi. rewrite at_cell_altered_other in Hi.
      - eapply Hempty; [|exact Hi]. by apply list_elem_of_further.
      - intros ->. contradiction. }
    exists field'. split; [done|].
    pose proof (count_altered is_mine (set_content MINE) c field ic Hic) as H1.
    pose proof (count_altered opened (set_content MINE) c field ic Hic) as H2.
    change (is_mine (set_content MINE ic)) with true in H1.
    change (opened (set_content MINE ic)) with (opened ic) in H2.
    assert (is_mine ic = false) as Hnm.
    { unfold is_mine. by rewrite (Hempty c ic (list_elem_of_here _ _) Hic). }
    rewrite Hnm in H1. cbn [length]. split; lia.
Qed.

(** X26.  The constructor from a list of mined cells without duplicates, all
    inside the field, returns a consistent game. *)
Theorem Minesweeper_cells_with_mines_consistent width height cells :
  Forall (inside width height) cells →
  NoDup cells →
  ∃ g, Minesweeper_cells_with_mines width height cells = Done g ∧
       consistent width height g.
Proof.
  intros Hin Hnd. unfold Minesweeper_cells_with_mines, lay_cells_with_mines.
  cbn [field_].
  destruct (lay_loop width height cells (filled width height default_cell))
    as (field' & Hrun & Hrect & Hat); [apply filled_rectangular|done|].
  destruct (lay_loop_count width height cells (filled width height default_cell))
    as (field'' & Hrun' & Hm & Ho); [apply filled_rectangular|done|done| |].
  { intros c i Hc Hi. destruct (decide (inside width height c)) as [Hc'|Hc'].
    - rewrite (at_cell_filled _ _ _ _ Hc') in Hi. by injection Hi as <-.
    - rewrite (at_cell_outside _ _ _ _ (filled_rectangular _ _ _) Hc') in Hi. discriminate. }
  assert (field'' = field') as -> by congruence.
  rewrite Hrun. cbn [mbind run_bind]. eexists. split; [reflexivity|].
  unfold consistent.
  cbn [field_ titles_ mines_ game_status_ opened_cell_number_ with_field].
  rewrite !count_cells_filled in *. cbn in Hm, Ho.
  split; [done|]. split; [done|]. split; [lia|]. split; [|discriminate].
  intros _. split; [lia|]. intros k i Hi Hopen. exfalso.
  rewrite Hat in Hi. destruct (decide (inside width height k)) as [Hk|Hk].
  - rewrite (at_cell_filled _ _ _ _ Hk) in Hi. cbn in Hi. injection Hi as <-.
    by destruct (decide (k ∈ cells)).
  - rewrite (at_cell_outside _ _ _ _ (filled_rectangular _ _ _) Hk) in Hi. discriminate.
Qed.

Lemma Minesweeper_cells_with_mines_consistent_witness :
  ∃ g, Minesweeper_cells_with_mines 3 2 [{| x := 2; y := 1 |}; {| x := 0; y := 0 |}] = Done g ∧
       consistent 3 2 g.
Proof.
  apply Minesweeper_cells_with_mines_consistent.
  - repeat constructor.
  - apply NoDup_cons. split; [|apply NoDup_singleton].
    intros H%list_elem_of_singleton. discriminate.
Defined.

(** X27.  In a game that is not over and whose field is rectangular,
    [OpenCell] and [MarkCell] return exactly when the cell is inside the
    field, with a rectangular field of the same size; on a cell outside the
    field they read out of bounds. *)
Theorem moves_outcome width height started finished cell g :
  rectangular width height (field_ g) →
  game_status_ g = NOT_STARTED ∨ game_status_ g = IN_PROGRESS →
  (inside width height cell →
   (∃ g', OpenCell started finished cell g = Done g' ∧
          rectangular width height (field_ g')) ∧
   (∃ g', MarkCell started cell g = Done g' ∧
          rectangular width height (field_ g'))) ∧
  (¬ inside width height cell →
   OpenCell started finished cell g = OutOfBounds ∧
   MarkCell started cell g = OutOfBounds).
Proof.
  intros Hrect Hs. destruct (begun_cases started g Hs) as (Hs0 & Hf0 & _).
  rewrite (OpenCell_begun _ _ _ _ Hs0), (MarkCell_begun _ _ _ Hs0), Hf0. split.
  - intros Hin. destruct (at_cell_inside _ _ _ _ Hrect Hin) as [info Hinfo].
    rewrite Hinfo. cbn [mbind run_bind]. split.
    + destruct (content info) eqn:Hc.
      * destruct (opened info) eqn:Ho.
        -- eexists. split; [reflexivity|]. by rewrite Hf0.
        -- destruct (OpenCell_empty_cells width height started finished cell g info)
             as (vs & field' & Hrun & Hrect' & _); try done.
           rewrite (OpenCell_begun _ _ _ _ Hs0), Hf0, Hinfo in Hrun.
           cbn [mbind run_bind] in Hrun. rewrite Hc, Ho in Hrun. rewrite Hrun.
           eexists. split; [reflexivity|].
           by destruct (mines_ g + (opened_cell_number_ g + S (length vs)) =? titles_ g).
      * eexists. split; [reflexivity|]. cbn [field_ with_time with_status with_field].
        destruct Hrect as [Hlen Hall]. split; [by rewrite length_map|].
        apply Forall_fmap. eapply Forall_impl; [exact Hall|].
        intros line Hl. cbn. unfold OpenLine. by rewrite length_map.
    + destruct (opened info); cbn [negb].
      * eexists. split; [reflexivity|]. by rewrite Hf0.
      * rewrite (assign_Done _ _ _ _ Hinfo). cbn [mbind run_bind].
        eexists. split; [reflexivity|]. by apply altered_rectangular.
  - intros Hout. by rewrite (at_cell_outside _ _ _ _ Hrect Hout).
Qed.

Lemma moves_outcome_witness :
  let g := {| game_status_ := NOT_STARTED;
              field_ := [[default_cell; mine_cell]];
              game_time_ := 0; opened_cell_number_ := 0; mine_counter_ := 0;
              mines_ := 1; titles_ := 2 |} in
  ((∃ g', OpenCell 10 25 {| x := 1; y := 0 |} g = Done g' ∧ rectangular 2 1 (field_ g')) ∧
   (∃ g', MarkCell 10 {| x := 1; y := 0 |} g = Done g' ∧ rectangular 2 1 (field_ g'))) ∧
  (OpenCell 10 25 {| x := 2; y := 0 |} g = OutOfBounds ∧
   MarkCell 10 {| x := 2; y := 0 |} g = OutOfBounds).
Proof.
  split.
  - apply (moves_outcome 2 1 10 25 {| x := 1; y := 0 |}
      {| game_status_ := NOT_STARTED;
         field_ := [[default_cell; mine_cell]];
         game_time_ := 0; opened_cell_number_ := 0; mine_counter_ := 0;
         mines_ := 1; titles_ := 2 |}).
    + split; [reflexivity|repeat constructor].
    + left. reflexivity.
    + split; simpl; lia.
  - apply (moves_outcome 2 1 10 25 {| x := 2; y := 0 |}
      {| game_status_ := NOT_STARTED;
         field_ := [[default_cell; mine_cell]];
         game_time_ := 0; opened_cell_number_ := 0; mine_counter_ := 0;
         mines_ := 1; titles_ := 2 |}).
    + split; [reflexivity|repeat constructor].
    + left. reflexivity.
    + intros [H _]. simpl in H. lia.
Defined.

Lemma render_cell_symbol c :
  (flaged c = false → opened c = true → content c = EMPTY →
   (0 ≤ number_of_mines_in_near_cells c ≤ 9)%Z) →
  render_cell c = String (symbol c) "".
Proof.
  unfold render_cell, symbol. intros Hn.
  destruct (flaged c); [done|]. destruct (opened c); [|done]. cbn [negb].
  destruct (content c); [|done]. specialize (Hn eq_refl eq_refl eq_refl).
  destruct (number_of_mines_in_near_cells c =? 0)%Z eqn:Ez; [done|].
  apply Z.eqb_neq in Ez. revert Hn Ez.
  generalize (number_of_mines_in_near_cells c). intros n Hn Ez.
  assert (n = 1 ∨ n = 2 ∨ n = 3 ∨ n = 4 ∨ n = 5 ∨ n = 6 ∨ n = 7 ∨ n = 8 ∨ n = 9)%Z
    as Hcases by lia.
  repeat (destruct Hcases as [->|Hcases]; [reflexivity|]). by subst.
Qed.

Lemma append_snoc s a t : (s +:+ String a "") +:+ t = s +:+ String a t.
Proof.
  induction s as [|b s IH]; [done|].
  change (String b ((s +:+ String a "") +:+ t) = String b (s +:+ String a t)).
  by rewrite IH.
Qed.

Lemma render_line acc line :
  Forall (λ c, flaged c = false → opened c = true → content c = EMPTY →
               (0 ≤ number_of_mines_in_near_cells c ≤ 9)%Z) line →
  foldl (λ temp cell, temp +:+ render_cell cell) acc line =
  acc +:+ String.string_of_list_ascii (map symbol line).
Proof.
  intros Hall. revert acc. induction Hall as [|c line Hc _ IH]; intros acc.
  - cbn [foldl map String.string_of_list_ascii].
    induction acc as [|a acc IHa]; [done|].
    change (String a acc = String a (acc +:+ "")). by rewrite <- IHa.
  - cbn [foldl map String.string_of_list_ascii]. rewrite IH.
    rewrite (render_cell_symbol c Hc). apply append_snoc.
Qed.

Lemma around_cells_length field cell : length (around_cells field cell) ≤ 8.
Proof.
  unfold around_cells. rewrite length_map.
  change offsets with ([(-1, -1); (-1, 0); (-1, 1); (0, -1)]%Z ++ [(0, 0)%Z] ++
                       [(0, 1); (1, -1); (1, 0); (1, 1)]%Z).
  rewrite !List.filter_app, !length_app.
  pose proof (List.filter_length_le (reachable field cell)
                [(-1, -1); (-1, 0); (-1, 1); (0, -1)]%Z) as H1.
  pose proof (List.filter_length_le (reachable field cell)
                [(0, 1); (1, -1); (1, 0); (1, 1)]%Z) as H2.
  change (List.filter (reachable field cell) [(0, 0)%Z]) with (@nil (Z * Z)).
  cbn [length] in *. lia.
Qed.

Lemma mines_around_le width height field cell n :
  rectangular width height field → mines_around field cell n → n ≤ 8.
Proof.
  intros Hrect (cells & Hnd & Hel & <-).
  etrans; [|apply (around_cells_length field cell)].
  apply submseteq_length, NoDup_submseteq; [done|].
  intros k [Hadj (i & Hi & _)]%Hel. apply (around_cells_elem _ _ _ _ _ Hrect).
  split; [done|]. by eapply at_cell_Done_inside.
Qed.

(** X28.  In a consistent game that is not lost every open cell holds no
    mine, carries no flag and stores the number, at most 8, of the mines
    around it; and [RenderField] shows the field line by line, one character
    per cell: [?] for a flagged cell, else [-] for a closed cell, else [.]
    for no mine around and the digit of the number of mines around
    otherwise. *)
Theorem RenderField_consistent width height g :
  consistent width height g →
  game_status_ g ≠ DEFEAT →
  map String.list_ascii_of_string (RenderField g) = map (map symbol) (field_ g) ∧
  ∀ k i, at_cell (field_ g) k = Done i → opened i = true →
    content i = EMPTY ∧ flaged i = false ∧
    ∃ n, n ≤ 8 ∧ number_of_mines_in_near_cells i = Z.of_nat n ∧
         mines_around (field_ g) k n.
Proof.
  intros (Hrect & _ & _ & Hopen & _) Hnd. destruct (Hopen Hnd) as [_ Hcells].
  assert (∀ k i, at_cell (field_ g) k = Done i → opened i = true →
    content i = EMPTY ∧ flaged i = false ∧
    ∃ n, n ≤ 8 ∧ number_of_mines_in_near_cells i = Z.of_nat n ∧
         mines_around (field_ g) k n) as Hcells'.
  { intros k i Hi Ho. destruct (Hcells k i Hi Ho) as (Hc & Hfl & n & Hn & Hm).
    split; [done|]. split; [done|]. exists n. split; [|done]. by eapply mines_around_le. }
  split; [|exact Hcells'].
  unfold RenderField. rewrite map_map.
  assert (Forall (Forall (λ c, flaged c = false → opened c = true → content c = EMPTY →
               (0 ≤ number_of_mines_in_near_cells c ≤ 9)%Z)) (field_ g)) as Hall.
  { apply Forall_forall. intros line Hline. apply Forall_forall. intros c Hc.
    apply list_elem_of_lookup in Hline as [j Hj]. apply list_elem_of_lookup in Hc as [i Hi].
    intros _ Ho _.
    destruct (Hcells' {| x := i; y := j |} c) as (_ & _ & n & Hle & Hn & _); [|done|lia].
    apply at_cell_lookup. eauto. }
  revert Hall. generalize (field_ g). clear. intros field Hall.
  induction Hall as [|line field Hline _ IH]; [done|]. cbn [map]. f_equal; [|exact IH].
  rewrite (render_line "" line Hline). cbn [String.append].
  apply String.list_ascii_of_string_of_list_ascii.
Qed.

Lemma RenderField_consistent_witness :
  let g := {| game_status_ := IN_PROGRESS;
              field_ := [[set_number 1 (set_opened true default_cell); mine_cell;
                          set_flaged true default_cell]];
              game_time_ := 0; opened_cell_number_ := 1; mine_counter_ := 0;
              mines_ := 1; titles_ := 3 |} in
  RenderField g = ["1-?"] ∧
  map String.list_ascii_of_string (RenderField g) = map (map symbol) (field_ g) ∧
  ∀ k i, at_cell (field_ g) k = Done i → opened i = true →
    content i = EMPTY ∧ flaged i = false ∧
    ∃ n, n ≤ 8 ∧ number_of_mines_in_near_cells i = Z.of_nat n ∧
         mines_around (field_ g) k n.
Proof.
  split; [reflexivity|].
  apply (RenderField_consistent 3 1); [|discriminate].
  split; [split; [reflexivity|repeat constructor]|].
  split; [reflexivity|]. split; [reflexivity|]. split; [|discriminate].
  intros _. split; [reflexivity|]. intros k i Hi Ho.
  destruct k as [[|[|[|kx]]] [|ky]]; try discriminate; injection Hi as <-; try discriminate.
  split; [reflexivity|]. split; [reflexivity|]. exists 1. split; [reflexivity|].
  exists [{| x := 1; y := 0 |}]. split; [apply NoDup_singleton|]. split; [|reflexivity].
  intros c. rewrite list_elem_of_singleton. split.
  - intros ->. split.
    + split; [discriminate|]. simpl. lia.
    + exists mine_cell. split; reflexivity.
  - intros [(Hne & H1 & H2 & H3 & H4) (i & Hi & Hc)].
    destruct c as [[|[|[|cx]]] [|cy]]; try discriminate; try (injection Hi as <-; discriminate).
    reflexivity.
Defined.

Lemma for_each_Done_ext {A B : Type} (body body' : B → A → run B) xs acc r :
  (∀ acc x r, body acc x = Done r → body' acc x = Done r) →
  for_each body xs acc = Done r → for_each body' xs acc = Done r.
Proof.
  intros Hext. revert acc. induction xs as [|a xs IH]; intros acc; [done|].
  cbn [for_each]. destruct (body acc a) as [acc'| |] eqn:E; [|done|done].
  rewrite (Hext _ _ _ E). cbn [mbind run_bind]. apply IH.
Qed.

Lemma Infect_fuel_mono fuel fuel' cl c g r :
  fuel ≤ fuel' → Infect fuel cl c g = Done r → Infect fuel' cl c g = Done r.
Proof.
  revert fuel' cl c g r. induction fuel as [|fuel IH]; intros fuel' cl c g r Hle Hrun;
    [discriminate|].
  destruct fuel' as [|fuel']; [lia|]. rewrite Infect_S in *.
  destruct (for_each (look (field_ g) c) offsets _) as [seen| |]; [|done|done].
  cbn [mbind run_bind] in *.
  destruct (assign (set_number (number_of_mines seen)) (field_ g) c) as [field| |];
    [|done|done].
  cbn [mbind run_bind] in *. destruct (infect_further seen); [|done].
  destruct (for_each open_next (next_cells seen) (with_field field g)) as [g2| |];
    [|done|done].
  cbn [mbind run_bind] in *. eapply for_each_Done_ext; [|exact Hrun].
  intros [cl' g'] k r' Hr. eapply IH; [lia|exact Hr].
Qed.

(** X29.  [Infect] from an open cell of a rectangular field returns for
    every depth bound above the number of closed cells, and with the same
    result: it appends to [cluster] the cell followed by the cells it
    opened, each once; these are the cells closed before and open after; and
    it adds their number to [opened_cell_number_]. *)
Theorem Infect_visits width height fuel fuel' cluster cell g :
  rectangular width height (field_ g) →
  open (field_ g) cell →
  count_cells closed (field_ g) < fuel →
  count_cells closed (field_ g) < fuel' →
  ∃ vs g',
    Infect fuel cluster cell g = Done (cluster ++ cell :: vs, g') ∧
    Infect fuel' cluster cell g = Done (cluster ++ cell :: vs, g') ∧
    NoDup (cell :: vs) ∧
    opened_cell_number_ g' = opened_cell_number_ g + length vs ∧
    ∀ k, k ∈ vs ↔
         ∃ i i', at_cell (field_ g) k = Done i ∧ opened i = false ∧
                 at_cell (field_ g') k = Done i' ∧ opened i' = true.
Proof.
  intros Hrect Hopen Hfuel Hfuel'.
  destruct (Infect_spec width height (S (count_cells closed (field_ g))) cluster cell g)
    as (vs & g' & Hrun & Hg' & Hflood); [done|done|lia|].
  pose proof Hflood as (_ & _ & Hin & Hnd & _ & _ & Hpt).
  destruct Hopen as (ic & Hic & Hoc).
  assert (cell ∉ vs) as Hcvs.
  { intros Hc. destruct (Hpt cell ic Hic) as (_ & _ & _ & _ & _ & Hop & _).
    destruct (Hop Hc) as [Hbad _]. congruence. }
  exists vs, g'. split; [eapply Infect_fuel_mono; [|exact Hrun]; lia|].
  split; [eapply Infect_fuel_mono; [|exact Hrun]; lia|].
  split; [by apply NoDup_cons|]. split; [by rewrite Hg'|].
  intros k. split.
  - intros Hk. destruct (at_cell_inside _ _ _ k Hrect) as [i Hi].
    { rewrite Forall_forall in Hin. by apply Hin, list_elem_of_further. }
    destruct (Hpt k i Hi) as (i' & Hi' & _ & _ & _ & Hop & Hvis).
    exists i, i'. split; [done|]. split; [by apply Hop|]. split; [done|].
    by apply Hvis, list_elem_of_further.
  - intros (i & i' & Hi & Ho & Hi' & Ho').
    destruct (Hpt k i Hi) as (i'' & Hi'' & _ & _ & Hsame & _ & _).
    assert (i'' = i') as -> by congruence.
    destruct (decide (k ∈ cell :: vs)) as [[->|Hk]%elem_of_cons|Hk]; [congruence|done|].
    rewrite (Hsame Hk) in Ho'. congruence.
Qed.

Lemma Infect_visits_witness :
  let g := {| game_status_ := IN_PROGRESS;
              field_ := [[set_opened true default_cell; default_cell; mine_cell]];
              game_time_ := 0; opened_cell_number_ := 1; mine_counter_ := 0;
              mines_ := 1; titles_ := 3 |} in
  let cell := {| x := 0; y := 0 |} in
  ∃ vs g',
    Infect 3 [] cell g = Done ([] ++ cell :: vs, g') ∧
    Infect 7 [] cell g = Done ([] ++ cell :: vs, g') ∧
    NoDup (cell :: vs) ∧
    opened_cell_number_ g' = opened_cell_number_ g + length vs ∧
    ∀ k, k ∈ vs ↔
         ∃ i i', at_cell (field_ g) k = Done i ∧ opened i = false ∧
                 at_cell (field_ g') k = Done i' ∧ opened i' = true.
Proof.
  apply (Infect_visits 3 1 3 7 [] {| x := 0; y := 0 |}
    {| game_status_ := IN_PROGRESS;
       field_ := [[set_opened true default_cell; default_cell; mine_cell]];
       game_time_ := 0; opened_cell_number_ := 1; mine_counter_ := 0;
       mines_ := 1; titles_ := 3 |}).
  - split; [reflexivity|repeat constructor].
  - exists (set_opened true default_cell). split; reflexivity.
  - vm_compute. lia.
  - vm_compute. lia.
Defined.

Lemma count_cells_none p field :
  Forall (Forall (λ c, p c = false)) field → count_cells p field = 0.
Proof.
  unfold count_cells. induction 1 as [|line field Hline _ IH]; [done|].
  cbn [concat]. rewrite List.filter_app, length_app, IH.
  induction Hline as [|c line Hc _ IHl]; [done|]. cbn [List.filter].
  rewrite Hc. exact IHl.
Qed.

(** X30.  The game the constructor from a mine count returns is consistent
    exactly when the field holds as many mines as asked for: when the count
    is the number of cells, or is less and [rand()] returned at least that
    many odd values among the [width * height] values from the current one
    on. *)
Theorem Minesweeper_mines_count_consistent rand calls width height mines_count :
  consistent width height
    (Minesweeper_mines_count rand calls width height mines_count).2 ↔
  if width * height <=? mines_count then mines_count = width * height
  else mines_count ≤ odd_draws rand calls (width * height).
Proof.
  unfold Minesweeper_mines_count.
  edestruct (lay_mines_count_spec rand width height mines_count calls)
    as (calls' & g' & Hrun & Hg & Hrect & Hun & Hcount & Hcnt & Hb);
    [| |rewrite Hrun]; [reflexivity|reflexivity|].
  cbn [snd]. unfold consistent. rewrite Hcount.
  assert (mines_ g' = mines_count) as -> by (by rewrite Hg).
  assert (titles_ g' = width * height) as -> by (by rewrite Hg).
  assert (opened_cell_number_ g' = 0) as -> by (by rewrite Hg).
  assert (game_status_ g' = NOT_STARTED) as -> by (by rewrite Hg).
  assert (count_cells opened (field_ g') = 0) as ->.
  { apply count_cells_none. eapply Forall_impl; [exact Hun|]. intros line Hl.
    eapply Forall_impl; [exact Hl|]. by intros c [? _]. }
  assert (∀ k i, at_cell (field_ g') k = Done i → opened i = true → False) as Hclosed.
  { refine (proj2 (field_Forall (λ c, opened c = true → False) _) _).
    apply Forall_concat. eapply Forall_impl; [exact Hun|]. intros line Hl.
    eapply Forall_impl; [exact Hl|]. intros c [Ho _] Ho'. congruence. }
  split.
  - intros (_ & _ & Hm & _). destruct (width * height <=? mines_count); lia.
  - intros Hm. split; [done|]. split; [done|]. split.
    { destruct (width * height <=? mines_count); lia. }
    split; [|discriminate]. intros _. split; [done|].
    intros k i Hi Ho. destruct (Hclosed k i Hi Ho).
Qed.
